(** * ShiViz: log parsing, vector timestamps, motif search and the graph builder

    A shallow embedding of [js/parser.js], [js/graphBuilder.js] and
    [js/visualization/abbreviation.js], with the vector timestamp and the
    motif finder (whose sources are not part of the files at hand) modelled
    from the written specification. *)

From Stdlib Require Import String Ascii List Arith Lia Bool Sorted ZArith.
From Stdlib Require Import Decimal DecimalString.
From stdpp Require Import base option list gmap strings.

Local Open Scope string_scope.
Local Open Scope nat_scope.
Local Open Scope list_scope.

(** ** JavaScript values and completions *)

(** What a variable, a capture or a label holds: [undefined], a string, a
    number, or an object known by its class only. *)
Inductive value :=
  | Undefined
  | Str (s : string)
  | Num (n : nat)
  | Obj (class : string).

#[global] Instance value_eq_dec : EqDecision value.
Proof. solve_decision. Defined.

(** [nat] to its decimal text, as number-to-string conversion gives it. *)
Definition nat_to_string (n : nat) : string :=
  NilEmpty.string_of_uint (Nat.to_uint n).

(** The abstract operation ToString, which property keys go through. *)
Definition ToString (v : value) : string :=
  match v with
  | Undefined => "undefined"
  | Str s => s
  | Num n => nat_to_string n
  | Obj _ => "[object Object]"
  end.

(** The abstract operation ToBoolean, which a condition and [!] apply. *)
Definition ToBoolean (v : value) : bool :=
  match v with
  | Undefined => false
  | Str s => negb (String.eqb s "")
  | Num n => negb (Nat.eqb n 0)
  | Obj _ => true
  end.

(** The names of the properties of [Object.prototype], which an object made
    by [{}] inherits. Each holds a function, but [__proto__]: reading it
    gives the prototype of the object, and assigning an object to it makes
    that object the prototype, while no property is stored. *)
Definition Object_prototype : list string :=
  ["constructor"; "hasOwnProperty"; "isPrototypeOf"; "propertyIsEnumerable";
   "toLocaleString"; "toString"; "valueOf"; "__proto__";
   "__defineGetter__"; "__defineSetter__"; "__lookupGetter__";
   "__lookupSetter__"].

(** [v + 1] as the addition operator computes it, shown as text. *)
Definition plus_one_text (v : value) : string :=
  match v with
  | Num n => nat_to_string (n + 1)
  | Undefined => "NaN"
  | other => ToString other +:+ "1"
  end.

(** The [Exception] class, used by parser.js and graphBuilder.js and defined
    outside them: as they use it, a message built from styled parts
    ([append], [prepend]) and the user-friendly flag. *)
Record Exception := {
  parts : list (string * string);
  userFriendly : bool
}.

Definition Exception_new (message : string) : Exception :=
  {| parts := [(message, "text")]; userFriendly := false |}.
Definition Exception_append (e : Exception) (s style : string) : Exception :=
  {| parts := parts e ++ [(s, style)]; userFriendly := userFriendly e |}.
Definition Exception_prepend (e : Exception) (s : string) : Exception :=
  {| parts := (s, "text") :: parts e; userFriendly := userFriendly e |}.
Definition Exception_setUserFriendly (e : Exception) (b : bool) : Exception :=
  {| parts := parts e; userFriendly := b |}.

(** What a [throw] carries. *)
Inductive Error :=
  | ReferenceError (identifier : string)
  | ThrownException (e : Exception).

(** How a piece of code ends: it returns, it throws, or the loop bound of the
    model was not enough (the code is still running). *)
Inductive Outcome (A : Type) :=
  | Returned (a : A)
  | Thrown (e : Error)
  | OutOfFuel.
Arguments Returned {A} a.
Arguments Thrown {A} e.
Arguments OutOfFuel {A}.

#[global] Instance Outcome_ret : MRet Outcome := λ A a, Returned a.
#[global] Instance Outcome_bind : MBind Outcome := λ A B f m,
  match m with
  | Returned a => f a
  | Thrown e => Thrown e
  | OutOfFuel => OutOfFuel
  end.

(** ** Strings *)

(** Strings are sequences of code units; the model keeps the code units below
    256. White space for [trim]: TAB, LF, VT, FF, CR, SP and NBSP. *)
Definition is_whitespace (c : ascii) : bool :=
  let n := nat_of_ascii c in
  existsb (Nat.eqb n) [9; 10; 11; 12; 13; 32; 160].

Fixpoint trim_start (s : string) : string :=
  match s with
  | EmptyString => EmptyString
  | String c s' => if is_whitespace c then trim_start s' else s
  end.

Fixpoint trim_end (s : string) : string :=
  match s with
  | EmptyString => EmptyString
  | String c s' =>
      match trim_end s' with
      | EmptyString => if is_whitespace c then EmptyString else String c EmptyString
      | t => String c t
      end
  end.

(** [String.prototype.trim] *)
Definition trim (s : string) : string := trim_end (trim_start s).

(** [s.substr(0, n)] and [s.substring(p, q)] for [p <= q]. *)
Definition substr0 (s : string) (n : nat) : string := substring 0 n s.
Definition slice (s : string) (p q : nat) : string := substring p (q - p) s.

(** [s.match(/\n/g)]: every occurrence of the line feed, or [null] when there
    is none. *)
Fixpoint newline_occurrences (s : string) : list string :=
  match s with
  | EmptyString => []
  | String c s' =>
      if Ascii.eqb c "010"%char then String c EmptyString :: newline_occurrences s'
      else newline_occurrences s'
  end.

Definition match_newlines (s : string) : option (list string) :=
  match newline_occurrences s with
  | [] => None
  | l => Some l
  end.


(** ** Named regular expressions *)

(** The class [NamedRegExp] is used by parser.js and defined outside it. As
    the parser uses it, it holds the names of its capture groups ([names])
    and a compiled pattern ([exec], and [no] for [split]). The compiled
    pattern is taken as a parameter: what one attempt at one position gives,
    the length of the match and the captures of the named groups, in the
    order of [names]. The field [no] is the same pattern with every group
    made non-capturing, so that [split] adds no capture to its result. *)
Record NamedRegExp := {
  names : list string;
  matcher : string → nat → option (nat * list value)
}.

Record Match := {
  index : nat;
  matched : nat;
  groups : list value
}.

(** The position right after a match: the next [lastIndex]. *)
Definition match_end (m : Match) : nat := index m + matched m.

(** [match[name]]: the capture of the group of that name, [undefined] when the
    pattern has no such group. *)
Fixpoint position_of (name : string) (l : list string) : option nat :=
  match l with
  | [] => None
  | x :: l' => if String.eqb x name then Some 0 else S <$> position_of name l'
  end.

Definition named (re : NamedRegExp) (m : Match) (name : string) : value :=
  match position_of name (names re) with
  | Some i => default Undefined (groups m !! i)
  | None => Undefined
  end.

(** The search of a global regular expression: attempts at [i], [i+1], ...,
    [i+n]. *)
Fixpoint search (re : NamedRegExp) (s : string) (n i : nat) : option Match :=
  match matcher re s i with
  | Some (len, gs) => Some {| index := i; matched := len; groups := gs |}
  | None =>
      match n with
      | 0 => None
      | S n' => search re s n' (S i)
      end
  end.

(** [re.exec(s)] with [re.lastIndex = lastIndex]. On a match the new
    [lastIndex] is [match_end]; on failure it is reset to 0. *)
Definition exec (re : NamedRegExp) (s : string) (lastIndex : nat) : option Match :=
  if decide (lastIndex ≤ String.length s)
  then search re s (String.length s - lastIndex) lastIndex
  else None.

(** [s.split(re.no)]: the loop of the split algorithm, with [p] the end of the
    last separator and [q] the position tried next. *)
Fixpoint split_loop (re : NamedRegExp) (s : string) (fuel p q : nat)
    (A : list string) : Outcome (list string) :=
  match fuel with
  | 0 => OutOfFuel
  | S fuel' =>
      if decide (q < String.length s) then
        match matcher re s q with
        | None => split_loop re s fuel' p (q + 1) A
        | Some (len, _) =>
            let e := Nat.min (q + len) (String.length s) in
            if decide (e = p) then split_loop re s fuel' p (q + 1) A
            else split_loop re s fuel' e e (A ++ [slice s p q])
        end
      else Returned (A ++ [slice s p (String.length s)])
  end.

Definition split (s : string) (re : NamedRegExp) : Outcome (list string) :=
  if decide (String.length s = 0) then
    match matcher re s 0 with
    | Some _ => Returned []
    | None => Returned [s]
    end
  else split_loop re s (2 * String.length s + 2) 0 0 [].

(** ** js/parser.js *)

Section Parser.

(** [JSON.parse] and the constructor of [VectorTimestamp] are not defined in
    parser.js: the parser is modelled over them. [JSON_parse] gives the
    parsed value, or the text of the error it throws; the constructor gives
    the timestamp, or the exception it throws. [globals] are the bindings of
    the global object when the parser runs. *)
Context {json VectorTimestamp : Type}.
Variable JSON_parse : string → string + json.
Variable VectorTimestamp_new : json → value → Exception + VectorTimestamp.
Variable globals : gmap string value.

(** [new LogEvent(event, timestamp, ln, fields)] *)
Record LogEvent := {
  text : value;
  timestamp : VectorTimestamp;
  lineNumber : nat;
  fields : gmap string value
}.

(** The object an [ExecutionParser] call constructs. *)
Record ExecutionParser_t := {
  ep_rawString : string;
  ep_label : value;
  timestamps : list VectorTimestamp;
  logEvents : list LogEvent
}.

(** The object a [LogParser] call constructs. The object [executions] is
    used as a table from label to execution: it is modelled by the finite map
    of its own properties, keyed by the label as a property key. Under the
    key [__proto__] the map holds the prototype that an assignment to that
    key has given the object; without that key the prototype is
    [Object.prototype]. *)
Record LogParser_t := {
  lp_rawString : string;
  labels : list value;
  executions : gmap string ExecutionParser_t
}.

(** Reading an identifier: a [ReferenceError] when nothing binds it. *)
Definition identifier (env : gmap string value) (x : string) : Outcome value :=
  match env !! x with
  | Some v => Returned v
  | None => Thrown (ReferenceError x)
  end.

(** The variables of one round of the loop of [ExecutionParser], over the
    globals: what the body of [parseTimestamp] can see besides its own
    parameters and locals. *)
Definition ExecutionParser_scope (rawString : string) (label : value)
    (ln : nat) (clock host event : value) : gmap string value :=
  list_to_map
    [("rawString", Str rawString); ("label", label);
     ("regexp", Obj "NamedRegExp"); ("match", Obj "Array");
     ("newlines", Obj "Array"); ("ln", Num ln); ("clock", clock);
     ("host", host); ("event", event); ("fields", Obj "Object");
     ("timestamp", Undefined); ("parseTimestamp", Obj "Function")]
  ∪ globals.

Definition timestamp_error_prefix : string :=
  "An error occured while trying to parse the vector timestamp on line ".

(** What the body of [parseTimestamp] sees: its parameters and its [var]s
    over the variables of the enclosing constructor. *)
Definition parseTimestamp_scope (outer : gmap string value)
    (clockString hostString : value) : gmap string value :=
  <["clockString" := clockString]> (<["hostString" := hostString]>
    (<["ret" := Undefined]> (<["exception" := Undefined]> outer))).

(** [parseTimestamp(clockString, hostString)], lines 137-159. *)
Definition parseTimestamp (outer : gmap string value)
    (clockString hostString : value) : Outcome VectorTimestamp :=
  let env := parseTimestamp_scope outer clockString hostString in
  match JSON_parse (ToString clockString) with
  | inl err =>
      let env := <["err" := Obj "SyntaxError"]> env in
      line ← identifier env "line";
      let exception :=
        Exception_new (timestamp_error_prefix +:+ plus_one_text line +:+ ":") in
      text ← identifier env "text";
      let exception := Exception_append exception (ToString text) "code" in
      let exception :=
        Exception_append exception
          "The error message from the JSON parser reads:" "text" in
      let exception := Exception_append exception err "italic" in
      let exception := Exception_setUserFriendly exception true in
      Thrown (ThrownException exception)
  | inr clock =>
      match VectorTimestamp_new clock hostString with
      | inr ret => Returned ret
      | inl exception =>
          let env := <["exception" := Obj "Exception"]> env in
          line ← identifier env "line";
          let exception :=
            Exception_prepend exception
              (timestamp_error_prefix +:+ plus_one_text line +:+ ":") in
          text ← identifier env "text";
          let exception := Exception_append exception (ToString text) "code" in
          let exception := Exception_setUserFriendly exception true in
          Thrown (ThrownException exception)
      end
  end.

(** The [forEach] over [regexp.names] that fills [fields], lines 124-130:
    the own properties of [fields]. The assignment to the name [__proto__]
    goes to the setter of [Object.prototype] and stores no property. *)
Definition collect_fields (regexp : NamedRegExp) (m : Match) : gmap string value :=
  foldl (λ fields name,
           if bool_decide (name = "clock" ∨ name = "host" ∨ name = "event")
           then fields
           else if String.eqb name "__proto__" then fields
           else <[name := named regexp m name]> fields)
        ∅ (names regexp).

(** The line number of a match, lines 117-118. *)
Definition line_of (rawString : string) (m : Match) : nat :=
  let newlines := match_newlines (substr0 rawString (index m)) in
  match newlines with
  | Some l => length l + 1
  | None => 1
  end.

(** One round of the loop body, lines 117-134: the timestamp and the event
    made from a match. *)
Definition parse_match (rawString : string) (label : value)
    (regexp : NamedRegExp) (m : Match) : Outcome (VectorTimestamp * LogEvent) :=
  let ln := line_of rawString m in
  let clock := named regexp m "clock" in
  let host := named regexp m "host" in
  let event := named regexp m "event" in
  let fields := collect_fields regexp m in
  timestamp ←
    parseTimestamp (ExecutionParser_scope rawString label ln clock host event)
      clock host;
  mret (timestamp,
        {| text := event; timestamp := timestamp; lineNumber := ln;
           fields := fields |}).

(** The [while (match = regexp.exec(rawString))] loop, lines 115-135. *)
Fixpoint ExecutionParser_loop (rawString : string) (label : value)
    (regexp : NamedRegExp) (fuel lastIndex : nat)
    (ts : list VectorTimestamp) (evs : list LogEvent)
    : Outcome ExecutionParser_t :=
  match fuel with
  | 0 => OutOfFuel
  | S fuel' =>
      match exec regexp rawString lastIndex with
      | None =>
          Returned {| ep_rawString := rawString; ep_label := label;
                      timestamps := ts; logEvents := evs |}
      | Some m =>
          r ← parse_match rawString label regexp m;
          ExecutionParser_loop rawString label regexp fuel' (match_end m)
            (ts ++ [r.1]) (evs ++ [r.2])
      end
  end.

(** [new ExecutionParser(rawString, label, regexp)]. The pattern is taken
    with [lastIndex] 0, where a finished loop leaves it. *)
Definition ExecutionParser (rawString : string) (label : value)
    (regexp : NamedRegExp) : Outcome ExecutionParser_t :=
  ExecutionParser_loop rawString label regexp (S (String.length rawString)) 0 [] [].

(** The loop of lines 49-51, which pushes the label of every delimiter. *)
Fixpoint currLabels_loop (delimiter : NamedRegExp) (rawString : string)
    (fuel lastIndex : nat) (currLabels : list value) : Outcome (list value) :=
  match fuel with
  | 0 => OutOfFuel
  | S fuel' =>
      match exec delimiter rawString lastIndex with
      | None => Returned currLabels
      | Some m =>
          currLabels_loop delimiter rawString fuel' (match_end m)
            (currLabels ++ [named delimiter m "trace"])
      end
  end.

(** The [for] loop of lines 54-59; [rest] is what is left of [currExecs]
    from index [i] on. *)
Fixpoint LogParser_for (regexp : NamedRegExp) (currLabels : list value)
    (i : nat) (rest : list string) (this : LogParser_t) : Outcome LogParser_t :=
  match rest with
  | [] => Returned this
  | currExecs_i :: rest' =>
      if decide (0 < String.length (trim currExecs_i)) then
        let currLabels_i := default Undefined (currLabels !! i) in
        ep ← ExecutionParser currExecs_i currLabels_i regexp;
        LogParser_for regexp currLabels (S i) rest'
          {| lp_rawString := lp_rawString this;
             labels := labels this ++ [currLabels_i];
             executions := <[ToString currLabels_i := ep]> (executions this) |}
      else LogParser_for regexp currLabels (S i) rest' this
  end.

(** [new LogParser(rawString, delimiter, regexp)], lines 26-64. *)
Definition LogParser (rawString : string) (delimiter : option NamedRegExp)
    (regexp : NamedRegExp) : Outcome LogParser_t :=
  let rawString := trim rawString in
  let this := {| lp_rawString := rawString; labels := []; executions := ∅ |} in
  match delimiter with
  | Some delimiter =>
      currExecs ← split rawString delimiter;
      currLabels ←
        (if bool_decide ("trace" ∈ names delimiter)
         then currLabels_loop delimiter rawString
                (S (String.length rawString)) 0 [Str ""]
         else mret [Str ""]);
      LogParser_for regexp currLabels 0 currExecs this
  | None =>
      ep ← ExecutionParser rawString (Str "") regexp;
      mret {| lp_rawString := rawString;
              labels := [Str ""];
              executions := <["" := ep]> ∅ |}
  end.

(** [LogParser.prototype.getLabels] *)
Definition getLabels (this : LogParser_t) : list value := labels this.

(** What [this.executions[label]] gives, as far as [getLogEvents] uses it:
    an execution, or another value, which has no property [logEvents] and of
    which only what ToBoolean makes of it counts. *)
Inductive property :=
  | Execution (ep : ExecutionParser_t)
  | Other (truthy : bool).

(** [this.executions[label]]: an own property, or else a property of the
    prototype chain. With [Object.prototype] as the prototype, the property
    is one of [Object_prototype], a function or an object, or it is
    [undefined]. With an execution as the prototype, there are first the
    properties of that execution: two texts and two arrays; then
    [constructor] of [ExecutionParser.prototype], and [Object.prototype]. *)
Definition executions_get (this : LogParser_t) (label : string) : property :=
  match executions this !! label with
  | Some ep => Execution ep
  | None =>
      match executions this !! "__proto__" with
      | Some proto =>
          if String.eqb label "rawString"
          then Other (ToBoolean (Str (ep_rawString proto)))
          else if String.eqb label "label"
          then Other (ToBoolean (ep_label proto))
          else if String.eqb label "timestamps" || String.eqb label "logEvents"
          then Other true
          else Other (existsb (String.eqb label) Object_prototype)
      | None => Other (existsb (String.eqb label) Object_prototype)
      end
  end.

(** What [getLogEvents] returns: [null], [undefined], or the array of the
    events of an execution. *)
Inductive getLogEvents_result :=
  | ReturnsNull
  | ReturnsUndefined
  | ReturnsEvents (evs : list LogEvent).

(** [LogParser.prototype.getLogEvents], lines 85-88. *)
Definition getLogEvents (this : LogParser_t) (label : string)
    : getLogEvents_result :=
  match executions_get this label with
  | Other false => ReturnsNull
  | Other true => ReturnsUndefined
  | Execution ep => ReturnsEvents (logEvents ep)
  end.

End Parser.

(** ** Vector timestamps *)

Module VectorTimestamp.

(** Modelled from the spec: the [VectorTimestamp] value type, whose source
    file (the constructor, [compare], [update]) is not among the files at
    hand. Sections 3 and 4.1: a mapping from host identifier to a counter,
    and the owner host. *)
Record t := {
  clock : gmap string nat;
  owner : string
}.

(** Modelled from the spec: the tokens of the clock text format of section
    6, braces, colon, comma, quoted host identifiers and non-negative
    integers. *)
Inductive token :=
  | TLBrace | TRBrace | TColon | TComma
  | TString (s : string)
  | TNumber (n : nat).

(** Where the reader of a clock text is: between tokens, inside a quoted
    identifier, inside a number. *)
Inductive lex_state :=
  | Idle
  | InString (acc : string)
  | InNumber (n : nat).

(** The value of a decimal digit. *)
Definition digit_of (c : ascii) : option nat :=
  let n := nat_of_ascii c in
  if decide (48 ≤ n ∧ n ≤ 57) then Some (n - 48) else None.

(** One character met outside a string and outside a number. *)
Definition idle_step (c : ascii) : option (list token * lex_state) :=
  if Ascii.eqb c "{" then Some ([TLBrace], Idle)
  else if Ascii.eqb c "}" then Some ([TRBrace], Idle)
  else if Ascii.eqb c ":" then Some ([TColon], Idle)
  else if Ascii.eqb c "," then Some ([TComma], Idle)
  else if Ascii.eqb c "034"%char then Some ([], InString EmptyString)
  else if is_whitespace c then Some ([], Idle)
  else match digit_of c with
       | Some d => Some ([], InNumber d)
       | None => None
       end.

(** Modelled from the spec: reading a clock text into tokens; [None] when a
    character fits no token of the format or a quoted identifier is left
    open. *)
Fixpoint lex (st : lex_state) (s : string) : option (list token) :=
  match s with
  | EmptyString =>
      match st with
      | Idle => Some []
      | InNumber n => Some [TNumber n]
      | InString _ => None
      end
  | String c s' =>
      match st with
      | InString acc =>
          if Ascii.eqb c "034"%char then cons (TString acc) <$> lex Idle s'
          else lex (InString (acc +:+ String c EmptyString)) s'
      | InNumber n =>
          match digit_of c with
          | Some d => lex (InNumber (10 * n + d)) s'
          | None =>
              match idle_step c with
              | Some (toks, st') => (λ r, TNumber n :: toks ++ r) <$> lex st' s'
              | None => None
              end
          end
      | Idle =>
          match idle_step c with
          | Some (toks, st') => (λ r, toks ++ r) <$> lex st' s'
          | None => None
          end
      end
  end.

(** Modelled from the spec: the pairs of a clock object, after the opening
    brace, host identifier to non-negative integer; a host given twice keeps
    its last count. *)
Fixpoint parse_pairs (toks : list token) (acc : gmap string nat)
    : option (gmap string nat) :=
  match toks with
  | TString k :: TColon :: TNumber n :: rest =>
      match rest with
      | [TRBrace] => Some (<[k := n]> acc)
      | TComma :: rest' => parse_pairs rest' (<[k := n]> acc)
      | _ => None
      end
  | _ => None
  end.

(** Modelled from the spec: the clock text format of section 6, an object
    mapping host identifier strings to non-negative integers. *)
Definition parse_clock (clockText : string) : option (gmap string nat) :=
  match lex Idle clockText with
  | Some [TLBrace; TRBrace] => Some ∅
  | Some (TLBrace :: rest) => parse_pairs rest ∅
  | _ => None
  end.

(** Modelled from the spec: [MalformedClockError] of section 7, with the
    offending text. *)
Inductive MalformedClockError := MalformedClock (clockText : string).

(** Modelled from the spec: [parse(clockText, hostId)] of section 4.1. *)
Definition parse (clockText hostId : string) : MalformedClockError + t :=
  match parse_clock clockText with
  | Some c => inr {| clock := c; owner := hostId |}
  | None => inl (MalformedClock clockText)
  end.

(** Modelled from the spec: [update(other)] of section 4.1, the
    component-wise maximum with the owner of the receiver. *)
Definition update (self other : t) : t :=
  {| clock := union_with (λ x y, Some (Nat.max x y)) (clock self) (clock other);
     owner := owner self |}.

(** Modelled from the spec: the results of [compare], section 4.1. *)
Inductive ordering := LESS | GREATER | EQUAL | CONCURRENT.

(** The count of a host, 0 for a missing key. *)
Definition count (self : t) (h : string) : nat := default 0 (clock self !! h).

(** The component-wise order. *)
Definition leq (a b : t) : bool :=
  bool_decide (map_Forall (λ h n, n ≤ count b h) (clock a)).

(** Modelled from the spec: [compare(other)] of section 4.1, the
    component-wise order with missing keys read as 0. *)
Definition compare (self other : t) : ordering :=
  match leq self other, leq other self with
  | true, true => EQUAL
  | true, false => LESS
  | false, true => GREATER
  | false, false => CONCURRENT
  end.

End VectorTimestamp.

(** ** Motif search *)

Module MotifFinder.

(** Modelled from the spec: the causality graph of sections 3 and 4.4, whose
    source is not among the files at hand. [nodes] lists each host's chain
    in encounter order; [edges] are the parent-to-child edges, those along a
    host's chain included. *)
Record Node := {
  id : nat;
  host : string;
  vectorTimestamp : VectorTimestamp.t
}.

(** Modelled from the spec: the causality graph as its nodes and its
    parent-to-child edges, given by node identifiers. *)
Record CausalityGraph := {
  nodes : list Node;
  edges : list (nat * nat)
}.

(** Modelled from the spec: the pattern graph of section 3, without the
    head sentinels. [bnodes] lists each host's pattern chain in order. *)
Record BuilderNode := {
  bid : nat;
  bhost : string
}.

(** Modelled from the spec: the pattern graph as its pattern nodes and the
    happens-before edges it requires, given by pattern node identifiers. *)
Record BuilderGraph := {
  bnodes : list BuilderNode;
  bedges : list (nat * nat)
}.

(** Modelled from the spec: the match result shape of section 6. *)
Record Motif := {
  matchedNodeIds : list nat;
  matchedEdges : list (nat * nat)
}.

(** Modelled from the spec: [NoMatchError] of section 7. *)
Inductive NoMatchError := NoMatch.

(** Modelled from the spec: the reachability relation of section 4.3, here a
    path of at least one edge and at most [fuel] edges from [x] to [y]. *)
Fixpoint reaches (g : CausalityGraph) (fuel x y : nat) : bool :=
  match fuel with
  | 0 => false
  | S fuel' =>
      existsb (λ e, (e.1 =? x) && ((e.2 =? y) || reaches g fuel' e.2 y))
              (edges g)
  end.

(** Modelled from the spec: reachability in the graph, ancestor to
    descendant, the ground truth of section 4.3. A shortest path takes no
    edge twice, so the number of edges bounds its length. *)
Definition reachable (g : CausalityGraph) (x y : nat) : bool :=
  reaches g (length (edges g)) x y.

(** A partial assignment of pattern nodes, by identifier, to nodes of the
    graph. *)
Definition assignment := list (nat * Node).

(** The node a pattern node is assigned to. *)
Fixpoint assigned (a : assignment) (b : nat) : option Node :=
  match a with
  | [] => None
  | (b', n) :: a' => if b' =? b then Some n else assigned a' b
  end.

(** The nodes listed after the node [x]. *)
Fixpoint after (x : nat) (l : list Node) : list Node :=
  match l with
  | [] => []
  | n :: l' => if id n =? x then l' else after x l'
  end.

(** The real node chosen last on a host: the assignment is kept latest
    first. *)
Fixpoint last_on_host (a : assignment) (h : string) : option Node :=
  match a with
  | [] => None
  | (_, n) :: a' => if String.eqb (host n) h then Some n else last_on_host a' h
  end.

(** Modelled from the spec: the candidates for a pattern node under the
    host-chain order of section 4.3: the nodes of its host, pruned to
    those after the node chosen for its predecessor on the chain. *)
Definition candidates (g : CausalityGraph) (a : assignment) (b : BuilderNode)
    : list Node :=
  filter (λ n, host n = bhost b)
    (match last_on_host a (bhost b) with
     | None => nodes g
     | Some n' => after (id n') (nodes g)
     end).

(** Modelled from the spec: a pattern edge is satisfied only when the nodes
    chosen for its ends are related by reachability, in the same
    direction. *)
Definition edge_satisfied (g : CausalityGraph) (a : assignment)
    (e : nat * nat) : bool :=
  match assigned a e.1, assigned a e.2 with
  | Some x, Some y => reachable g (id x) (id y)
  | _, _ => false
  end.

(** The first candidate, in order, on which [f] succeeds. *)
Fixpoint first_success {A B : Type} (f : A → option B) (l : list A)
    : option B :=
  match l with
  | [] => None
  | x :: l' =>
      match f x with
      | Some r => Some r
      | None => first_success f l'
      end
  end.

(** Modelled from the spec: the backtracking search of section 4.3, in a
    fixed order: pattern nodes are assigned in order; a choice is undone
    when what follows finds no candidate. *)
Fixpoint search (g : CausalityGraph) (p : BuilderGraph)
    (todo : list BuilderNode) (a : assignment) : option assignment :=
  match todo with
  | [] => if forallb (edge_satisfied g a) (bedges p) then Some a else None
  | b :: todo' =>
      first_success (λ n, search g p todo' ((bid b, n) :: a)) (candidates g a b)
  end.

(** Modelled from the spec: the matched nodes and the matched edges of a
    complete assignment. *)
Definition motif_of (p : BuilderGraph) (a : assignment) : Motif :=
  {| matchedNodeIds := map (λ bn, id bn.2) (rev a);
     matchedEdges :=
       omap (λ e, match assigned a e.1, assigned a e.2 with
                  | Some x, Some y => Some (id x, id y)
                  | _, _ => None
                  end) (bedges p) |}.

(** Modelled from the spec: [find(causalityGraph, builderGraph)] of section
    4.3, the first witness under the fixed order, or [NoMatchError]. *)
Definition find (g : CausalityGraph) (p : BuilderGraph) : NoMatchError + Motif :=
  match search g p (bnodes p) [] with
  | Some a => inr (motif_of p a)
  | None => inl NoMatch
  end.

(** What the search keeps true of a partial assignment: a pattern node is
    mapped to a node of the graph, on its own host. *)
Definition respects_hosts (g : CausalityGraph) (p : BuilderGraph)
    (a : assignment) : Prop :=
  ∀ i n, assigned a i = Some n →
         n ∈ nodes g ∧ ∃ bn, bn ∈ bnodes p ∧ bid bn = i ∧ host n = bhost bn.

End MotifFinder.

(** ** js/graphBuilder.js *)

Module GraphBuilder.

Definition MAX_HOSTS : nat := 5.

(** A [GraphBuilderHost] object: its identity and the number it was made
    with. *)
Record GraphBuilderHost := {
  ref : nat;
  hostNum : nat
}.

(** The builder: its [hosts] array, and the number of host objects made so
    far, from which a new object takes its identity. The page elements and
    the colours are left out: nothing of them flows back into [hosts]. *)
Record t := {
  hosts : list GraphBuilderHost;
  allocated : nat
}.

(** How a method ends: in both ways it leaves a builder behind. *)
Inductive Completion :=
  | Normal (this : t)
  | Abrupt (this : t) (e : Exception)
  | Unfinished.

(** [GraphBuilder.prototype.addHost], lines 33-49. *)
Definition addHost (this : t) : Completion :=
  if decide (MAX_HOSTS ≤ length (hosts this)) then
    Abrupt this
      (Exception_new "GraphBuilder.prototype.addHost: no new hosts may be added")
  else
    Normal {| hosts := hosts this ++
                [{| ref := allocated this; hostNum := length (hosts this) |}];
              allocated := S (allocated this) |}.

(** [arr.indexOf(arg)]; [None] is -1. *)
Fixpoint indexOf (arr : list GraphBuilderHost) (arg : GraphBuilderHost)
    : option nat :=
  match arr with
  | [] => None
  | x :: arr' => if ref x =? ref arg then Some 0 else S <$> indexOf arr' arg
  end.

(** [Array.remove(arr, arg)], lines 296-305, for an [arg] that is not a
    function: [arr.splice(arr.indexOf(arg), 1)]. A start of -1 counts from
    the end, so a missing [arg] takes the last element away. *)
Definition Array_remove (arr : list GraphBuilderHost) (arg : GraphBuilderHost)
    : list GraphBuilderHost :=
  match indexOf arr arg with
  | Some i => delete i arr
  | None => delete (length arr - 1) arr
  end.

(** [GraphBuilder.prototype.removeHost], lines 51-88. *)
Definition removeHost (this : t) (host : GraphBuilderHost) : t :=
  {| hosts := Array_remove (hosts this) host; allocated := allocated this |}.

(** The [while] loop of [clear], lines 128-129. *)
Fixpoint clear_loop (fuel : nat) (this : t) : Completion :=
  match fuel with
  | 0 => Unfinished
  | S fuel' =>
      match last (hosts this) with
      | Some h => clear_loop fuel' (removeHost this h)
      | None => Normal this
      end
  end.

(** [GraphBuilder.prototype.clear], lines 127-133. *)
Definition clear (this : t) : Completion :=
  match clear_loop (S (length (hosts this))) this with
  | Normal this =>
      match addHost this with
      | Normal this => addHost this
      | other => other
      end
  | other => other
  end.

(** The constructor, lines 1-21: no host, then two calls of [addHost]. *)
Definition GraphBuilder : Completion :=
  match addHost {| hosts := []; allocated := 0 |} with
  | Normal this => addHost this
  | other => other
  end.

Inductive operation :=
  | AddHost
  | RemoveHost (host : GraphBuilderHost)
  | Clear.

Definition perform (o : operation) (this : t) : Completion :=
  match o with
  | AddHost => addHost this
  | RemoveHost host => Normal (removeHost this host)
  | Clear => clear this
  end.

(** A sequence of calls on one builder; a call that throws leaves the
    builder to the calls after it. [None]: a call did not finish. *)
Fixpoint run (ops : list operation) (this : t) : option t :=
  match ops with
  | [] => Some this
  | o :: ops' =>
      match perform o this with
      | Normal this' => run ops' this'
      | Abrupt this' _ => run ops' this'
      | Unfinished => None
      end
  end.

(** The builder the constructor leaves. *)
Definition initial : t :=
  {| hosts := [{| ref := 0; hostNum := 0 |}; {| ref := 1; hostNum := 1 |}];
     allocated := 2 |}.

(** The [while] loop of [Array.remove(arr, arg)], lines 297-301, for an [arg]
    that is a function: as long as [arr.find(arg)] finds an element, the
    element is removed by [Array.remove]. The elements are objects, which are
    truthy. *)
Fixpoint Array_remove_loop (fuel : nat) (arr : list GraphBuilderHost)
    (arg : GraphBuilderHost → bool) : option (list GraphBuilderHost) :=
  match fuel with
  | 0 => None
  | S fuel' =>
      match List.find arg arr with
      | Some f => Array_remove_loop fuel' (Array_remove arr f) arg
      | None => Some arr
      end
  end.

(** [Array.remove(arr, arg)], lines 296-305, for an [arg] that is a
    function; [None]: the loop did not end. *)
Definition Array_remove_where (arr : list GraphBuilderHost)
    (arg : GraphBuilderHost → bool) : option (list GraphBuilderHost) :=
  Array_remove_loop (S (length arr)) arr arg.

End GraphBuilder.

(** ** js/visualization/abbreviation.js *)

Module Abbreviation.

(** [s.charAt(i)]: the character at [i] as a text, the empty text when there
    is none. *)
Definition charAt (s : string) (i : nat) : string :=
  match String.get i s with
  | Some c => String c EmptyString
  | None => EmptyString
  end.

(** An index given to [slice], counted from the end when negative, and kept
    inside the text. *)
Definition slice_index (len : nat) (k : Z) : nat :=
  if (k <? 0)%Z then Z.to_nat (Z.max (Z.of_nat len + k) 0)
  else Nat.min (Z.to_nat k) len.

(** [s.slice(start, end)]; [None] for an [end] that is not given. *)
Definition String_slice (s : string) (start : Z) (end_ : option Z) : string :=
  let len := String.length s in
  let from := slice_index len start in
  let to := match end_ with
            | Some e => slice_index len e
            | None => len
            end in
  substring from (to - from) s.

(** [s.startsWith(p)] and [s.endsWith(p)]. *)
Definition startsWith (s p : string) : bool :=
  String.eqb (substring 0 (String.length p) s) p.

Definition endsWith (s p : string) : bool :=
  if decide (String.length p ≤ String.length s)
  then String.eqb
         (substring (String.length s - String.length p) (String.length p) s) p
  else false.

(** The console: the messages of the assertions that failed, in order. *)
Definition console_assert (condition : bool) (message : string) : list string :=
  if condition then [] else [message].

(** [a !== b] *)
Definition strict_neq (a b : value) : bool := negb (bool_decide (a = b)).

(** How a call ends: with a result, with a [TypeError], or not within the
    rounds given to its loop. *)
Inductive completion (A : Type) :=
  | Completed (a : A)
  | TypeError (message : string)
  | Unfinished.
Arguments Completed {A} a.
Arguments TypeError {A} message.
Arguments Unfinished {A}.

#[global] Instance completion_ret : MRet completion := λ A a, Completed a.
#[global] Instance completion_bind : MBind completion := λ A B f m,
  match m with
  | Completed a => f a
  | TypeError message => TypeError message
  | Unfinished => Unfinished
  end.

(** An [Abbreviation] object. *)
Record t := {
  prefix : string;
  root : string;
  suffix : string
}.

Definition ABBREV_CHARS : nat := 3.
Definition ELLIPSIS : string := "..".

(** The constructor function has no property [ELLIPSIS_STRING]: reading it
    gives [undefined]. *)
Definition ELLIPSIS_STRING : value := Undefined.

Definition both_affixes : string :=
  "Abbreviation cannot be created with both prefix and suffix".
Definition empty_root : string :=
  "this.root assigned an empty string when a non-empty is available".

(** [Abbreviation.prototype.getOriginalString], lines 44-46. *)
Definition getOriginalString (this : t) : string :=
  (prefix this +:+ root this) +:+ suffix this.

(** The constructor, lines 14-36, with what its assertions write. *)
Definition Abbreviation (prefix root suffix : string) : t * list string :=
  let log1 :=
    console_assert (String.eqb prefix "" || String.eqb suffix "") both_affixes in
  let this :=
    if negb (String.eqb root "") then
      {| prefix := prefix; root := root; suffix := suffix |}
    else if negb (String.eqb prefix "") then
      {| prefix := ""; root := prefix; suffix := suffix |}
    else
      {| prefix := ""; root := suffix; suffix := "" |} in
  let log2 :=
    console_assert
      (negb (String.eqb (Abbreviation.root this) "")
       || String.eqb (getOriginalString this) "") empty_root in
  let log3 :=
    console_assert
      (String.eqb (Abbreviation.prefix this) ""
       || String.eqb (Abbreviation.suffix this) "") both_affixes in
  (this, log1 ++ log2 ++ log3).

(** The inner function [ellipsify], lines 59-65. *)
Definition ellipsify (s : string) : string :=
  if String.length s <? ABBREV_CHARS then s else ELLIPSIS.

(** [Abbreviation.prototype.getEllipsesString], lines 50-66. *)
Definition getEllipsesString (this : t) : string :=
  if String.eqb (root this) "" then ELLIPSIS
  else (ellipsify (prefix this) +:+ root this) +:+ ellipsify (suffix this).

(** [Abbreviation.prototype.shiftPrefix], lines 71-76. *)
Definition shiftPrefix (this : t) : t :=
  let prefix' :=
    if negb (String.eqb (root this) "")
    then prefix this +:+ charAt (root this) 0
    else prefix this in
  {| prefix := prefix';
     root := String_slice (root this) 1 None;
     suffix := suffix this |}.

(** [Abbreviation.prototype.shiftSuffix], lines 81-87. *)
Definition shiftSuffix (this : t) : t :=
  let suffix' :=
    if negb (String.eqb (root this) "")
    then
      let lastRootChar := charAt (root this) (String.length (root this) - 1) in
      lastRootChar +:+ suffix this
    else suffix this in
  {| prefix := prefix this;
     root := String_slice (root this) 0 (Some (-1)%Z);
     suffix := suffix' |}.

(** The [Map] of [findPrefix] from a character to its bucket, in the order
    in which the characters were first met. *)
Fixpoint bucket_push (buckets : list (string * list string))
    (char str : string) : list (string * list string) :=
  match buckets with
  | [] => [(char, [str])]
  | (c, bucket) :: rest =>
      if String.eqb c char then (c, bucket ++ [str]) :: rest
      else (c, bucket) :: bucket_push rest char str
  end.

(** The first [for] loop of a round of [findPrefix], lines 168-177: whether
    a string has a character at [i], and the buckets. *)
Definition fill_buckets (i : nat) (prevMaxBucket : list string)
    : bool * list (string * list string) :=
  foldl (λ st str,
           let char := charAt str i in
           if negb (String.eqb char "")
           then (true, bucket_push st.2 char str)
           else st)
        (false, []) prevMaxBucket.

(** The second [for] loop of a round, lines 178-185: the first of the
    largest buckets, and its size. *)
Definition largest_bucket (buckets : list (string * list string))
    : nat * list string :=
  foldl (λ st cb,
           if st.1 <? length cb.2 then (length cb.2, cb.2) else st)
        (0, []) buckets.

(** The [while (more)] loop of [findPrefix], lines 165-193; it gives the
    last [i] and [prevMaxBucket]. *)
Fixpoint findPrefix_loop (fuel i prevMaxCount : nat)
    (prevMaxBucket : list string) : completion (nat * list string) :=
  match fuel with
  | 0 => Unfinished
  | S fuel' =>
      let filled := fill_buckets i prevMaxBucket in
      let largest := largest_bucket filled.2 in
      if prevMaxCount <=? largest.1 then
        if filled.1 then findPrefix_loop fuel' (i + 1) largest.1 largest.2
        else Completed (i + 1, largest.2)
      else Completed (i, prevMaxBucket)
  end.

(** What [findPrefix] and [findSuffix] return; [count] holds the bucket
    itself, as line 202 has it. *)
Record prefixInfo := { pi_prefix : string; pi_count : list string }.
Record suffixInfo := { si_suffix : string; si_count : list string }.

(** The inner function [findPrefix], lines 158-204. *)
Definition findPrefix (strings : list string) : completion prefixInfo :=
  r ← findPrefix_loop (2 + foldr Nat.max 0 (map String.length strings))
        0 0 strings;
  let i := r.1 in
  let prevMaxBucket := r.2 in
  let prefix :=
    if 1 <? length prevMaxBucket
    then String_slice (default "" (prevMaxBucket !! 0)) 0 (Some (Z.of_nat i))
    else "" in
  mret {| pi_prefix := prefix; pi_count := prevMaxBucket |}.

(** [a > b] on two arrays of strings: both are turned into texts, with
    commas between the elements, and the texts are compared. *)
Definition Array_toString (a : list string) : string := String.concat "," a.
Definition Array_gt (a b : list string) : bool :=
  String.ltb (Array_toString b) (Array_toString a).

Section WithUtil.

(** [Util.reverseString], defined outside this file. *)
Variable reverseString : string → string.

(** The inner function [findSuffix], lines 147-155. *)
Definition findSuffix (strings : list string) : completion suffixInfo :=
  let revStrings := map reverseString strings in
  revSuffixInfo ← findPrefix revStrings;
  let suffix := reverseString (pi_prefix revSuffixInfo) in
  mret {| si_suffix := suffix; si_count := pi_count revSuffixInfo |}.

(** The body of the [for] loop of [abbrevStrings], lines 127-141. *)
Definition abbrevString (prefix suffix str : string) : t * list string :=
  let pre := "" in
  let root := str in
  let suf := "" in
  let cut :=
    if negb (String.eqb prefix "") && startsWith root prefix
    then (String_slice root (Z.of_nat (String.length prefix)) None, prefix)
    else (root, pre) in
  let root := cut.1 in
  let pre := cut.2 in
  let cut :=
    if negb (String.eqb suffix "") && endsWith root suffix
    then (String_slice root 0 (Some (- Z.of_nat (String.length suffix))%Z),
          suffix)
    else (root, suf) in
  let root := cut.1 in
  let suf := cut.2 in
  Abbreviation pre root suf.

(** The inner function [abbrevStrings], lines 110-205, with what the
    assertions of the constructor write. *)
Definition abbrevStrings (strings : list string)
    : completion (list t * list string) :=
  prefixInfo ← findPrefix strings;
  suffixInfo ← findSuffix strings;
  let affixes :=
    if Array_gt (pi_count prefixInfo) (si_count suffixInfo)
    then (pi_prefix prefixInfo, "")
    else ("", si_suffix suffixInfo) in
  let made := map (abbrevString affixes.1 affixes.2) strings in
  mret (map fst made, concat (map snd made)).

(** The [while] loop of [truncate], lines 212-221. *)
Fixpoint truncate_loop (isFit : string → bool) (leftAlways rightAlways : bool)
    (fuel : nat) (abbrev : t) (isLeftNext : bool) : completion t :=
  match fuel with
  | 0 => Unfinished
  | S fuel' =>
      if negb (isFit (getEllipsesString abbrev)) then
        let abbrev :=
          if isLeftNext then shiftPrefix abbrev else shiftSuffix abbrev in
        let isLeftNext :=
          if Bool.eqb leftAlways rightAlways then negb isLeftNext
          else leftAlways in
        truncate_loop isFit leftAlways rightAlways fuel' abbrev isLeftNext
      else Completed abbrev
  end.

(** The inner function [truncate], lines 208-224, with what its assertion
    writes. [isFit] is what [stringsToFitter.get] gave: [None] is
    [undefined], which cannot be called. A fitter is taken as a function of
    the text alone. *)
Definition truncate (abbrev : t) (isFit : option (string → bool))
    : completion (t * list string) :=
  match isFit with
  | None => TypeError "isFit is not a function"
  | Some isFit =>
      let leftAlways := negb (String.eqb (prefix abbrev) "") in
      let rightAlways := negb (String.eqb (suffix abbrev) "") in
      let isLeftNext := leftAlways in
      abbrev ← truncate_loop isFit leftAlways rightAlways
                 (S (String.length (root abbrev))) abbrev isLeftNext;
      mret (abbrev,
            console_assert
              (strict_neq (Str (getEllipsesString abbrev)) ELLIPSIS_STRING)
              ("text size is too small for '" +:+ getOriginalString abbrev
               +:+ "'"))
  end.

(** [stringsToFitter.get(key)] on a [Map] given by its entries in the order
    of their insertion. *)
Fixpoint Map_get (stringsToFitter : list (string * (string → bool)))
    (key : string) : option (string → bool) :=
  match stringsToFitter with
  | [] => None
  | (k, v) :: rest => if String.eqb k key then Some v else Map_get rest key
  end.

(** The [for] loop of [generateFromStrings], lines 104-106. *)
Fixpoint truncate_each (stringsToFitter : list (string * (string → bool)))
    (abbrevs : list t) : completion (list t * list string) :=
  match abbrevs with
  | [] => mret ([], [])
  | abbrev :: rest =>
      r ← truncate abbrev (Map_get stringsToFitter (getOriginalString abbrev));
      rs ← truncate_each stringsToFitter rest;
      mret (r.1 :: rs.1, r.2 ++ rs.2)
  end.

(** [Abbreviation.generateFromStrings], lines 100-226. *)
Definition generateFromStrings
    (stringsToFitter : list (string * (string → bool)))
    : completion (list t * list string) :=
  made ← abbrevStrings (map fst stringsToFitter);
  truncated ← truncate_each stringsToFitter made.1;
  mret (truncated.1, made.2 ++ truncated.2).

End WithUtil.

End Abbreviation.

(** ** Concrete patterns and texts *)

Module Examples.

(** The double quote, and a text between double quotes. *)
Definition dq : string := String "034"%char EmptyString.
Definition quoted (s : string) : string := dq +:+ s +:+ dq.
Definition nl : string := String "010"%char EmptyString.

Definition one (c : ascii) : string := String c EmptyString.

(** The delimiter [=(?<trace>.)=]. *)
Definition delimiter : NamedRegExp :=
  {| names := ["trace"];
     matcher := λ s i,
       match String.get i s, String.get (i + 1) s, String.get (i + 2) s with
       | Some a, Some c, Some b =>
           if Ascii.eqb a "=" && Ascii.eqb b "=" then Some (3, [Str (one c)])
           else None
       | _, _, _ => None
       end |}.

(** The delimiter [---], with no group. *)
Definition dashes : NamedRegExp :=
  {| names := [];
     matcher := λ s i,
       match String.get i s, String.get (i + 1) s, String.get (i + 2) s with
       | Some a, Some b, Some c =>
           if Ascii.eqb a "-" && Ascii.eqb b "-" && Ascii.eqb c "-"
           then Some (3, []) else None
       | _, _, _ => None
       end |}.

(** A pattern that matches nowhere. *)
Definition never (names : list string) : NamedRegExp :=
  {| names := names; matcher := λ _ _, None |}.

(** One attempt of [(?<host>\S)(?<clock>\{[^}]*\})(?<event>\S)]. *)
Definition event_attempt (s : string) (i : nat) : option (nat * list value) :=
  match String.get i s, String.get (i + 1) s with
  | Some h, Some b =>
      if negb (is_whitespace h) && Ascii.eqb b "{" then
        match String.index (i + 1) "}" s with
        | Some j =>
            match String.get (j + 1) s with
            | Some e =>
                if is_whitespace e then None
                else Some (j + 2 - i,
                           [Str (one h); Str (slice s (i + 1) (j + 1)); Str (one e)])
            | None => None
            end
        | None => None
        end
      else None
  | _, _ => None
  end.

Definition event_pattern : NamedRegExp :=
  {| names := ["host"; "clock"; "event"]; matcher := event_attempt |}.

(** [(?<clock>\{[^}]*\})(?<event>\S)]: no group named host. *)
Definition hostless_pattern : NamedRegExp :=
  {| names := ["clock"; "event"];
     matcher := λ s i,
       match String.get i s with
       | Some b =>
           if Ascii.eqb b "{" then
             match String.index i "}" s with
             | Some j =>
                 match String.get (j + 1) s with
                 | Some e =>
                     if is_whitespace e then None
                     else Some (j + 2 - i, [Str (slice s i (j + 1)); Str (one e)])
                 | None => None
                 end
             | None => None
             end
           else None
       | None => None
       end |}.

(** [JSON.parse] on clock texts, and a constructor that accepts every
    clock. *)
Definition JSON_parse (s : string) : string + gmap string nat :=
  match VectorTimestamp.parse_clock s with
  | Some c => inr c
  | None => inl "SyntaxError: Unexpected token"
  end.

Definition VectorTimestamp_new (c : gmap string nat) (host : value)
    : Exception + VectorTimestamp.t :=
  inr {| VectorTimestamp.clock := c; VectorTimestamp.owner := ToString host |}.

(** A global object with nothing of the application's in it. *)
Definition no_globals : gmap string value := ∅.

(** The parser over these. *)
Definition parse_log :=
  LogParser JSON_parse VectorTimestamp_new no_globals.
Definition parse_execution :=
  ExecutionParser JSON_parse VectorTimestamp_new no_globals.

(** The clock texts [{"a":1}] and [{"a":1,"b":2}], and a broken one. *)
Definition clock_a1 : string := "{" +:+ quoted "a" +:+ ":1}".
Definition clock_a1b2 : string :=
  "{" +:+ quoted "a" +:+ ":1," +:+ quoted "b" +:+ ":2}".
Definition clock_a2b1 : string :=
  "{" +:+ quoted "a" +:+ ":2," +:+ quoted "b" +:+ ":1}".
Definition clock_broken : string := "{a:1}".

(** Two executions, labelled x and y, of two and one events. *)
Definition two_executions : string :=
  "=x=a" +:+ clock_a1 +:+ "p" +:+ nl +:+ "b" +:+ clock_a1b2 +:+ "q"
  +:+ "=y=a" +:+ clock_a1 +:+ "r".

(** The label x used twice, with a blank segment in between. *)
Definition reused_label : string :=
  "=x=a" +:+ clock_a1 +:+ "p" +:+ "=z= " +:+ nl
  +:+ "=x=b" +:+ clock_a1b2 +:+ "q".

(** One execution, three lines, the clock of the third broken. *)
Definition broken_third_line : string :=
  "a" +:+ clock_a1 +:+ "p" +:+ nl +:+ "b" +:+ clock_a1b2 +:+ "q" +:+ nl
  +:+ "a" +:+ clock_broken +:+ "r".

(** The delimiter matches of [reused_label] and of [two_executions]. *)
Definition reused_label_matches : list Match :=
  [ {| index := 0; matched := 3; groups := [Str "x"] |};
    {| index := 12; matched := 3; groups := [Str "z"] |};
    {| index := 17; matched := 3; groups := [Str "x"] |} ].

Definition two_executions_matches : list Match :=
  [ {| index := 0; matched := 3; groups := [Str "x"] |};
    {| index := 28; matched := 3; groups := [Str "y"] |} ].

(** The event matches of [broken_third_line]. *)
Definition broken_third_line_matches : list Match :=
  [ {| index := 0; matched := 9;
       groups := [Str "a"; Str clock_a1; Str "p"] |};
    {| index := 10; matched := 15;
       groups := [Str "b"; Str clock_a1b2; Str "q"] |};
    {| index := 26; matched := 7;
       groups := [Str "a"; Str clock_broken; Str "r"] |} ].

(** One execution of two lines. *)
Definition two_lines : string :=
  "a" +:+ clock_a1 +:+ "p" +:+ nl +:+ "b" +:+ clock_a1b2 +:+ "q".

(** Two hosts whose timestamps are ordered, with no edge from one host to
    the other; and the same graph with such an edge. *)
Definition timestamp_of (clockText host : string) : VectorTimestamp.t :=
  {| VectorTimestamp.clock := default ∅ (VectorTimestamp.parse_clock clockText);
     VectorTimestamp.owner := host |}.

Definition unrelated_hosts : MotifFinder.CausalityGraph :=
  {| MotifFinder.nodes :=
       [ {| MotifFinder.id := 1; MotifFinder.host := "a";
            MotifFinder.vectorTimestamp := timestamp_of clock_a1 "a" |};
         {| MotifFinder.id := 2; MotifFinder.host := "a";
            MotifFinder.vectorTimestamp := timestamp_of clock_a2b1 "a" |};
         {| MotifFinder.id := 3; MotifFinder.host := "b";
            MotifFinder.vectorTimestamp := timestamp_of clock_a1b2 "b" |} ];
     MotifFinder.edges := [(1, 2)] |}.

Definition related_hosts : MotifFinder.CausalityGraph :=
  {| MotifFinder.nodes := MotifFinder.nodes unrelated_hosts;
     MotifFinder.edges := [(1, 2); (1, 3)] |}.

(** The pattern of one node on each host, with an edge from the first to the
    second. *)
Definition pattern_a : MotifFinder.BuilderNode :=
  {| MotifFinder.bid := 0; MotifFinder.bhost := "a" |}.
Definition pattern_b : MotifFinder.BuilderNode :=
  {| MotifFinder.bid := 1; MotifFinder.bhost := "b" |}.
Definition cross_host_pattern : MotifFinder.BuilderGraph :=
  {| MotifFinder.bnodes := [pattern_a; pattern_b];
     MotifFinder.bedges := [(0, 1)] |}.

(** A delimiter that matches a run of equal signs, an empty run too, and
    captures it as the trace. *)
Fixpoint run_of (c : ascii) (s : string) : nat :=
  match s with
  | EmptyString => 0
  | String a s' => if Ascii.eqb a c then S (run_of c s') else 0
  end.

Definition equals_run : NamedRegExp :=
  {| names := ["trace"];
     matcher := λ s i,
       if decide (i ≤ String.length s) then
         let n := run_of "=" (substring i (String.length s - i) s) in
         Some (n, [Str (substring i n s)])
       else None |}.

(** The pattern [(?=(?<host>\S)(?<clock>\{[^}]*\})(?<event>\S))]: the groups
    are captured in a lookahead, and the match itself is empty. *)
Definition lookahead_pattern : NamedRegExp :=
  {| names := ["host"; "clock"; "event"];
     matcher := λ s i,
       match event_attempt s i with
       | Some (_, gs) => Some (0, gs)
       | None => None
       end |}.


(** Two executions, the clock of the second one broken. *)
Definition broken_second_execution : string :=
  "=x=a" +:+ clock_a1 +:+ "p" +:+ "=y=a" +:+ clock_broken
  +:+ "r".

Definition broken_second_execution_matches : list Match :=
  [ {| index := 0; matched := 3; groups := [Str "x"] |};
    {| index := 12; matched := 3; groups := [Str "y"] |} ].

(** [Util.reverseString] *)
Definition reverseString (s : string) : string :=
  string_of_list_ascii (rev (list_ascii_of_string s)).

(** A fitter that accepts the texts of at most [n] characters. *)
Definition fits (n : nat) (s : string) : bool := String.length s <=? n.

(** A [Map] from three names to their fitters. *)
Definition three_fitters : list (string * (string → bool)) :=
  [("proc-alpha", fits 8); ("proc-beta", fits 8); ("proc-gamma", fits 6)].

End Examples.

(** ** What the parser is checked against *)

(** A pattern whose matches are never empty and stay inside the text. A
    pattern that can match the empty text never lets the loop of
    [while (match = re.exec(s))] end. *)
Record advancing (re : NamedRegExp) : Prop := {
  advancing_nonempty :
    ∀ s i len gs, matcher re s i = Some (len, gs) → 0 < len;
  advancing_bounded :
    ∀ s i len gs, matcher re s i = Some (len, gs) → i + len ≤ String.length s
}.

(** The successive matches of a pattern in a text, from [lastIndex] on, left
    to right, each search starting where the match before ended. *)
Inductive matches_from (re : NamedRegExp) (s : string) : nat → list Match → Prop :=
  | matches_done lastIndex :
      exec re s lastIndex = None → matches_from re s lastIndex []
  | matches_next lastIndex m ms :
      exec re s lastIndex = Some m →
      matches_from re s (match_end m) ms →
      matches_from re s lastIndex (m :: ms).

(** The segments between the delimiter matches, each with the label captured
    by the match before it; [label] is the label of the segment that starts
    at [p]. *)
Fixpoint segments_after (delimiter : NamedRegExp) (s : string) (p : nat)
    (label : value) (ms : list Match) : list (value * string) :=
  match ms with
  | [] => [(label, slice s p (String.length s))]
  | m :: ms' =>
      (label, slice s p (index m))
        :: segments_after delimiter s (match_end m) (named delimiter m "trace") ms'
  end.

(** The segment before the first delimiter has the empty label. *)
Definition labelled_segments (delimiter : NamedRegExp) (s : string)
    (ms : list Match) : list (value * string) :=
  segments_after delimiter s 0 (Str "") ms.

(** A segment that is not all white space. *)
Definition non_blank (x : value * string) : bool :=
  bool_decide (0 < String.length (trim x.2)).

(** The matches of the delimiter, when there is one. *)
Definition delimiter_matches (delimiter : option NamedRegExp) (s : string)
    (ms : list Match) : Prop :=
  match delimiter with
  | Some d => advancing d ∧ matches_from d s 0 ms
  | None => ms = []
  end.

(** The segments the constructor parses, with their labels, in the order of
    the text: the non-blank segments between the delimiters or, without a
    delimiter, the whole text under the empty label. *)
Definition kept_segments (delimiter : option NamedRegExp) (s : string)
    (ms : list Match) : list (value * string) :=
  match delimiter with
  | Some d => filter (λ x, non_blank x = true) (labelled_segments d s ms)
  | None => [(Str "", s)]
  end.

Section ParserSpec.

Context {json VectorTimestamp : Type}.
Variable JSON_parse : string → string + json.
Variable VectorTimestamp_new : json → value → Exception + VectorTimestamp.
Variable globals : gmap string value.

#[local] Abbreviation ExecutionParser :=
  (ExecutionParser JSON_parse VectorTimestamp_new globals).

(** Recording an execution under its label: the label joins the list, the
    execution goes into the table under the label as a key. *)
Definition record_execution (this : LogParser_t) (label : value)
    (ep : ExecutionParser_t) : @LogParser_t VectorTimestamp :=
  {| lp_rawString := lp_rawString this;
     labels := labels this ++ [label];
     executions := <[ToString label := ep]> (executions this) |}.

(** Parsing the labelled segments one after the other. *)
Fixpoint run_segments (regexp : NamedRegExp) (l : list (value * string))
    (this : LogParser_t) : Outcome LogParser_t :=
  match l with
  | [] => Returned this
  | x :: l' =>
      ep ← ExecutionParser x.2 x.1 regexp;
      run_segments regexp l' (record_execution this x.1 ep)
  end.

(** The events of the matches of an execution, one after the other; the
    first clock that fails ends it. *)
Fixpoint events_of (rawString : string) (label : value) (regexp : NamedRegExp)
    (ms : list Match) (ts : list VectorTimestamp) (evs : list LogEvent)
    : Outcome ExecutionParser_t :=
  match ms with
  | [] =>
      Returned {| ep_rawString := rawString; ep_label := label;
                  timestamps := ts; logEvents := evs |}
  | m :: ms' =>
      r ← parse_match JSON_parse VectorTimestamp_new globals rawString label regexp m;
      events_of rawString label regexp ms' (ts ++ [r.1]) (evs ++ [r.2])
  end.

(** The last segment recorded under a key. *)
Definition last_with_key (k : string) (l : list (value * string))
    : option (value * string) :=
  last (filter (λ x, ToString x.1 = k) l).

(** A match whose clock capture is not a host-to-count mapping: the text
    does not parse, or the constructor of the timestamp refuses it. *)
Definition malformed_clock (regexp : NamedRegExp) (m : Match) : Prop :=
  match JSON_parse (ToString (named regexp m "clock")) with
  | inl _ => True
  | inr clock =>
      match VectorTimestamp_new clock (named regexp m "host") with
      | inl _ => True
      | inr _ => False
      end
  end.

(** The parser as the constructor leaves it before the first segment. *)
Definition empty_parser (rawString : string) : @LogParser_t VectorTimestamp :=
  {| lp_rawString := rawString; labels := []; executions := ∅ |}.

End ParserSpec.

(** ** What the abbreviations are checked against *)

(** The strings of [bucket] have at least [i] characters and the same first
    [i] characters. *)
Definition share_start (i : nat) (bucket : list string) : Prop :=
  ∀ s t, s ∈ bucket → t ∈ bucket →
    i ≤ String.length s ∧
    take i (list_ascii_of_string s) = take i (list_ascii_of_string t).

(** A bucket of round [i] over [strings]: its character is one, and its
    strings are strings of [strings] with that character at [i]. *)
Definition bucket_of (i : nat) (strings : list string)
    (cb : string * list string) : Prop :=
  cb.1 ≠ "" ∧ ∀ s, s ∈ cb.2 → s ∈ strings ∧ Abbreviation.charAt s i = cb.1.

(** Finds the successive matches of a concrete pattern in a concrete text. *)
Ltac find_matches :=
  repeat first
    [ apply matches_done; vm_compute; reflexivity
    | eapply matches_next; [vm_compute; reflexivity|] ].

(** ** Properties of the search *)

Lemma search_Some re s n i m :
  search re s n i = Some m →
  i ≤ index m ≤ i + n ∧
  matcher re s (index m) = Some (matched m, groups m) ∧
  ∀ j, i ≤ j < index m → matcher re s j = None.
Proof.
  revert i. induction n as [|n IH]; intros i; simpl.
  - destruct (matcher re s i) as [[len gs]|] eqn:E; [|done].
    intros [= <-]; simpl. split; [lia|]. split; [done|]. intros j Hj; lia.
  - destruct (matcher re s i) as [[len gs]|] eqn:E.
    + intros [= <-]; simpl. split; [lia|]. split; [done|]. intros j Hj; lia.
    + intros H. destruct (IH _ H) as (Hle & Hm & Hmin).
      split; [lia|]. split; [done|].
      intros j Hj. destruct (decide (j = i)) as [->|]; [done|]. apply Hmin; lia.
Qed.

Lemma search_None re s n i :
  search re s n i = None → ∀ j, i ≤ j ≤ i + n → matcher re s j = None.
Proof.
  revert i. induction n as [|n IH]; intros i; simpl.
  - destruct (matcher re s i) as [[len gs]|] eqn:E; [done|].
    intros _ j Hj. by replace j with i by lia.
  - destruct (matcher re s i) as [[len gs]|] eqn:E; [done|].
    intros H j Hj. destruct (decide (j = i)) as [->|]; [done|].
    apply (IH _ H); lia.
Qed.

Lemma exec_Some re s lastIndex m :
  exec re s lastIndex = Some m →
  lastIndex ≤ index m ≤ String.length s ∧
  matcher re s (index m) = Some (matched m, groups m) ∧
  ∀ j, lastIndex ≤ j < index m → matcher re s j = None.
Proof.
  unfold exec. case_decide; [|done]. intros Hs.
  destruct (search_Some _ _ _ _ _ Hs) as (Hle & Hm & Hmin).
  split; [lia|]. by split.
Qed.

Lemma exec_None re s lastIndex :
  exec re s lastIndex = None →
  ∀ j, lastIndex ≤ j ≤ String.length s → matcher re s j = None.
Proof.
  unfold exec. case_decide; [|intros; lia]. intros Hs j Hj.
  apply (search_None _ _ _ _ Hs); lia.
Qed.

(** The match a search finds is decided by the first position that matches. *)
Lemma exec_first re s lastIndex q len gs :
  lastIndex ≤ q ≤ String.length s →
  (∀ j, lastIndex ≤ j < q → matcher re s j = None) →
  matcher re s q = Some (len, gs) →
  exec re s lastIndex = Some {| index := q; matched := len; groups := gs |}.
Proof.
  intros Hq Hnone Hm.
  destruct (exec re s lastIndex) as [m|] eqn:E.
  - destruct (exec_Some _ _ _ _ E) as (Hle & Hm' & Hmin).
    assert (index m = q) as Hi.
    { destruct (lt_eq_lt_dec (index m) q) as [[Hlt| ->]|Hgt]; [|done|].
      - rewrite Hnone in Hm' by lia. done.
      - rewrite Hmin in Hm by lia. done. }
    destruct m as [i l g]; simpl in *. subst i. by simplify_eq.
  - rewrite (exec_None _ _ _ E) in Hm by lia. done.
Qed.

Lemma matches_from_unique re s lastIndex ms1 ms2 :
  matches_from re s lastIndex ms1 → matches_from re s lastIndex ms2 → ms1 = ms2.
Proof.
  intros H1. revert ms2. induction H1 as [li E|li m ms E _ IH]; intros ms2 H2.
  - inversion H2; [done|congruence].
  - inversion H2 as [|li' m' ms' E' H']; subst; [congruence|].
    assert (m' = m) as -> by congruence. f_equal. by apply IH.
Qed.

(** An advancing pattern has finitely many matches: at most one for each
    character left. *)
Lemma matches_from_bound re s lastIndex ms :
  advancing re → matches_from re s lastIndex ms →
  lastIndex ≤ String.length s → length ms + lastIndex ≤ String.length s.
Proof.
  intros [Hne Hbd] H. induction H as [li E|li m ms E _ IH]; intros Hli.
  - simpl; lia.
  - destruct (exec_Some _ _ _ _ E) as (Hle & Hm & _).
    pose proof (Hne _ _ _ _ Hm). pose proof (Hbd _ _ _ _ Hm).
    unfold match_end in IH. simpl. lia.
Qed.

Lemma matches_from_exists re s :
  advancing re → ∀ lastIndex, ∃ ms, matches_from re s lastIndex ms.
Proof.
  intros [Hne Hbd].
  assert (∀ n li, String.length s < li + n → ∃ ms, matches_from re s li ms) as H.
  { induction n as [|n IH]; intros li Hn.
    - exists []. constructor. unfold exec. case_decide; [lia|done].
    - destruct (exec re s li) as [m|] eqn:E.
      + destruct (exec_Some _ _ _ _ E) as (Hle & Hm & _).
        pose proof (Hne _ _ _ _ Hm).
        destruct (IH (match_end m)) as [ms Hms]; [unfold match_end; lia|].
        exists (m :: ms). by econstructor.
      + exists []. by constructor. }
  intros li. apply (H (S (String.length s))). lia.
Qed.


(** ** Splitting and labelling *)

(** The split loop cuts the text exactly at the matches the [exec] loop
    finds. *)
Lemma split_loop_matches d s :
  advancing d →
  ∀ fuel p q A label ms,
    p ≤ q → q ≤ String.length s → String.length s - q < fuel →
    (∀ j, p ≤ j < q → matcher d s j = None) →
    matches_from d s p ms →
    split_loop d s fuel p q A
    = Returned (A ++ map snd (segments_after d s p label ms)).
Proof.
  intros [Hne Hbd].
  induction fuel as [|fuel IH]; intros p q A label ms Hpq Hq Hfuel Hnone Hms.
  { lia. }
  simpl. case_decide as Hlt.
  - destruct (matcher d s q) as [[len gs]|] eqn:Em.
    + pose proof (Hne _ _ _ _ Em) as Hlen. pose proof (Hbd _ _ _ _ Em) as Hin.
      assert (exec d s p = Some {| index := q; matched := len; groups := gs |}) as Ex.
      { apply exec_first; [lia|done|done]. }
      inversion Hms as [li E|li m ms' E Hms']; subst; [congruence|].
      assert (m = {| index := q; matched := len; groups := gs |}) as -> by congruence.
      unfold match_end in *; simpl in *.
      rewrite Nat.min_l by lia. case_decide; [lia|].
      rewrite (IH (q + len) (q + len) _
                 (named d {| index := q; matched := len; groups := gs |} "trace")
                 ms');
        [|lia|lia|lia|intros; lia|done].
      by rewrite <- app_assoc.
    + apply IH; [lia|lia|lia| |done].
      intros j Hj. destruct (decide (j = q)) as [->|]; [done|]. apply Hnone; lia.
  - assert (q = String.length s) as -> by lia.
    inversion Hms as [li E|li m ms' E Hms']; subst; [done|].
    destruct (exec_Some _ _ _ _ E) as (Hle & Hm & _).
    pose proof (Hne _ _ _ _ Hm). pose proof (Hbd _ _ _ _ Hm).
    rewrite Hnone in Hm by lia. done.
Qed.

Lemma split_matches d s ms :
  advancing d → matches_from d s 0 ms →
  split s d = Returned (map snd (labelled_segments d s ms)).
Proof.
  intros Hadv Hms. unfold split, labelled_segments. case_decide as Hlen.
  - destruct (matcher d s 0) as [[len gs]|] eqn:Em.
    { pose proof (advancing_nonempty _ Hadv _ _ _ _ Em).
      pose proof (advancing_bounded _ Hadv _ _ _ _ Em). lia. }
    inversion Hms as [li E|li m ms' E Hms']; subst.
    + simpl. unfold slice. rewrite Hlen. by destruct s.
    + destruct (exec_Some _ _ _ _ E) as (Hle & Hm & _).
      assert (index m = 0) as Hi by lia. rewrite Hi in Hm. congruence.
  - rewrite (split_loop_matches d s Hadv _ 0 0 [] (Str "") ms);
      [done|lia|lia|lia|intros; lia|done].
Qed.

(** The labels pushed by the loop of lines 49-51 are the trace captures of
    the matches, in order. *)
Lemma currLabels_loop_matches d s ms :
  ∀ fuel lastIndex acc,
    matches_from d s lastIndex ms → length ms < fuel →
    currLabels_loop d s fuel lastIndex acc
    = Returned (acc ++ map (λ m, named d m "trace") ms).
Proof.
  induction ms as [|m ms IH]; intros fuel li acc Hms Hfuel;
    (destruct fuel as [|fuel]; [simpl in Hfuel; lia|]);
    inversion Hms as [?  E|? ? ? E Hms']; subst; simpl; rewrite E.
  - by rewrite app_nil_r.
  - rewrite IH; [|done|simpl in Hfuel; lia]. by rewrite <- app_assoc.
Qed.

Lemma position_of_None name l : name ∉ l → position_of name l = None.
Proof.
  induction l as [|x l IH]; [done|]. intros Hnot. simpl.
  destruct (String.eqb_spec x name) as [->|Hne].
  - exfalso. apply Hnot. by left.
  - rewrite IH; [done|]. intros Hin. apply Hnot. by right.
Qed.

(** Without a group named trace, the trace of a match is [undefined]. *)
Lemma named_without_group d m name : name ∉ names d → named d m name = Undefined.
Proof. intros H. unfold named. by rewrite position_of_None. Qed.

Lemma segments_after_labels d s p label ms :
  map fst (segments_after d s p label ms)
  = label :: map (λ m, named d m "trace") ms.
Proof.
  revert p label. induction ms as [|m ms IH]; intros p label; simpl; [done|].
  by rewrite IH.
Qed.

Section ParserFacts.

Context {json VectorTimestamp : Type}.
Variable JSON_parse : string → string + json.
Variable VectorTimestamp_new : json → value → Exception + VectorTimestamp.
Variable globals : gmap string value.

#[local] Abbreviation ExecutionParser' :=
  (ExecutionParser JSON_parse VectorTimestamp_new globals).
#[local] Abbreviation LogParser' :=
  (LogParser JSON_parse VectorTimestamp_new globals).
#[local] Abbreviation run_segments' :=
  (run_segments JSON_parse VectorTimestamp_new globals).

(** The [for] loop of the constructor parses the non-blank segments in order,
    each under the label found at its own index. *)
Lemma LogParser_for_segments regexp currLabels :
  ∀ (l : list (value * string)) i (this : @LogParser_t VectorTimestamp),
    (∀ j x, l !! j = Some x → default Undefined (currLabels !! (i + j)) = x.1) →
    LogParser_for JSON_parse VectorTimestamp_new globals regexp currLabels i
      (map snd l) this
    = run_segments' regexp (filter (λ x, non_blank x = true) l) this.
Proof.
  induction l as [|[label seg] l IH]; intros i this Hlab; [done|].
  simpl. pose proof (Hlab 0 (label, seg) eq_refl) as H0.
  rewrite Nat.add_0_r in H0. simpl in H0.
  assert (∀ j x, l !! j = Some x →
                 default Undefined (currLabels !! (S i + j)) = x.1) as Hrest.
  { intros j x Hj. specialize (Hlab (S j) x Hj).
    by replace (S i + j) with (i + S j) by lia. }
  destruct (decide (0 < String.length (trim seg))) as [Hnb|Hb].
  - rewrite filter_cons_True
      by (unfold non_blank; simpl; by apply bool_decide_eq_true_2).
    simpl. rewrite H0.
    destruct (ExecutionParser' seg label regexp) as [ep| |]; simpl; [|done|done].
    by rewrite IH.
  - rewrite filter_cons_False
      by (unfold non_blank; simpl; by rewrite bool_decide_eq_false_2).
    by rewrite IH.
Qed.

(** With a delimiter whose matches are [ms], the constructor parses the
    non-blank labelled segments, in order. *)
Lemma LogParser_delimited rawString d regexp ms :
  advancing d → matches_from d (trim rawString) 0 ms →
  LogParser' rawString (Some d) regexp
  = run_segments' regexp
      (filter (λ x, non_blank x = true) (labelled_segments d (trim rawString) ms))
      {| lp_rawString := trim rawString; labels := []; executions := ∅ |}.
Proof.
  intros Hadv Hms. unfold LogParser. cbv zeta.
  rewrite (split_matches _ _ _ Hadv Hms).
  pose proof (matches_from_bound _ _ _ _ Hadv Hms) as Hbound.
  assert (∀ currLabels,
    (∀ j x, labelled_segments d (trim rawString) ms !! j = Some x →
            default Undefined (currLabels !! (0 + j)) = x.1) →
    LogParser_for JSON_parse VectorTimestamp_new globals regexp currLabels 0
      (map snd (labelled_segments d (trim rawString) ms))
      {| lp_rawString := trim rawString; labels := []; executions := ∅ |}
    = run_segments' regexp
        (filter (λ x, non_blank x = true) (labelled_segments d (trim rawString) ms))
        {| lp_rawString := trim rawString; labels := []; executions := ∅ |}) as Hfor.
  { intros currLabels H. by apply LogParser_for_segments. }
  case_bool_decide as Htrace.
  - rewrite (currLabels_loop_matches d _ ms); [|done|lia].
    change (LogParser_for JSON_parse VectorTimestamp_new globals regexp
              ([Str ""] ++ map (λ m, named d m "trace") ms) 0
              (map snd (labelled_segments d (trim rawString) ms))
              {| lp_rawString := trim rawString; labels := []; executions := ∅ |}
            = run_segments' regexp
                (filter (λ x, non_blank x = true)
                   (labelled_segments d (trim rawString) ms))
                {| lp_rawString := trim rawString; labels := []; executions := ∅ |}).
    apply Hfor. intros j x Hj. simpl.
    assert (map fst (labelled_segments d (trim rawString) ms) !! j = Some x.1) as Hx.
    { by rewrite list_lookup_fmap, Hj. }
    unfold labelled_segments in Hx. rewrite segments_after_labels in Hx.
    by rewrite Hx.
  - change (LogParser_for JSON_parse VectorTimestamp_new globals regexp
              [Str ""] 0
              (map snd (labelled_segments d (trim rawString) ms))
              {| lp_rawString := trim rawString; labels := []; executions := ∅ |}
            = run_segments' regexp
                (filter (λ x, non_blank x = true)
                   (labelled_segments d (trim rawString) ms))
                {| lp_rawString := trim rawString; labels := []; executions := ∅ |}).
    apply Hfor. intros j x Hj. simpl.
    assert (map fst (labelled_segments d (trim rawString) ms) !! j = Some x.1) as Hx.
    { by rewrite list_lookup_fmap, Hj. }
    unfold labelled_segments in Hx. rewrite segments_after_labels in Hx.
    destruct j as [|j]; simpl in *; [by simplify_eq|].
    rewrite list_lookup_fmap in Hx.
    destruct (ms !! j) as [m|] eqn:Em; simpl in Hx; [|done].
    simplify_eq. rewrite <- Hx. by rewrite named_without_group.
Qed.

End ParserFacts.


(** ** Texts and line numbers *)

Lemma trim_end_idemp s : trim_end (trim_end s) = trim_end s.
Proof.
  induction s as [|c s IH]; [done|]. simpl.
  destruct (trim_end s) as [|c' r] eqn:E.
  - destruct (is_whitespace c) eqn:Ec; [done|]. simpl. by rewrite Ec.
  - simpl in *. by rewrite IH.
Qed.

Lemma trim_start_head s :
  trim_start s = EmptyString ∨
  ∃ c r, trim_start s = String c r ∧ is_whitespace c = false.
Proof.
  induction s as [|c s IH]; [by left|]. simpl.
  destruct (is_whitespace c) eqn:Ec; [done|]. right. by exists c, s.
Qed.

Lemma trim_idemp s : trim (trim s) = trim s.
Proof.
  unfold trim. destruct (trim_start_head s) as [->|(c & r & -> & Hc)]; [done|].
  assert (∃ r', trim_end (String c r) = String c r') as [r' Hr].
  { simpl. destruct (trim_end r); rewrite ?Hc; eauto. }
  rewrite Hr. simpl trim_start. rewrite Hc. rewrite <- Hr. apply trim_end_idemp.
Qed.

Lemma length_zero_empty s : String.length s = 0 ↔ s = EmptyString.
Proof. destruct s; simpl; split; intros; done. Qed.

Lemma substring_all s : substring 0 (String.length s) s = s.
Proof. induction s as [|c s IH]; [done|]. simpl. by rewrite IH. Qed.

Lemma slice_all s : slice s 0 (String.length s) = s.
Proof. unfold slice. rewrite Nat.sub_0_r. apply substring_all. Qed.





Lemma last_with_key_cons k (x : value * string) l :
  last_with_key k (x :: l)
  = match last_with_key k l with
    | Some y => Some y
    | None => if decide (ToString x.1 = k) then Some x else None
    end.
Proof.
  unfold last_with_key. rewrite filter_cons. case_decide.
  - rewrite last_cons. by destruct (last _).
  - by destruct (last _).
Qed.

Lemma last_with_key_None k (l : list (value * string)) :
  last_with_key k l = None ↔ k ∉ map (λ x, ToString x.1) l.
Proof.
  induction l as [|x l IH]; [split; [intros _ H; inversion H|done]|].
  rewrite last_with_key_cons. simpl. rewrite not_elem_of_cons.
  destruct (last_with_key k l) eqn:E.
  - split; [done|]. intros [_ H]. apply IH in H. done.
  - case_decide; split; try done.
    + intros [H' _]. by subst.
    + intros _. split; [congruence|]. by apply IH.
Qed.

Lemma last_with_key_app_r k (l1 l2 : list (value * string)) x :
  last_with_key k l2 = Some x → last_with_key k (l1 ++ l2) = Some x.
Proof.
  intros H. induction l1 as [|y l1 IH]; [done|].
  simpl. rewrite last_with_key_cons. by rewrite IH.
Qed.

Section ExecutionFacts.

Context {json VectorTimestamp : Type}.
Variable JSON_parse : string → string + json.
Variable VectorTimestamp_new : json → value → Exception + VectorTimestamp.
Variable globals : gmap string value.

#[local] Abbreviation EP :=
  (ExecutionParser JSON_parse VectorTimestamp_new globals).
#[local] Abbreviation EP_loop :=
  (ExecutionParser_loop JSON_parse VectorTimestamp_new globals).
#[local] Abbreviation segs := (run_segments JSON_parse VectorTimestamp_new globals).
#[local] Abbreviation evs_of := (events_of JSON_parse VectorTimestamp_new globals).
#[local] Abbreviation pm := (parse_match JSON_parse VectorTimestamp_new globals).

(** The loop of [ExecutionParser] handles the successive matches in order. *)
Lemma ExecutionParser_loop_matches rawString label regexp ms :
  ∀ fuel lastIndex ts evs,
    matches_from regexp rawString lastIndex ms → length ms < fuel →
    EP_loop rawString label regexp fuel lastIndex ts evs
    = evs_of rawString label regexp ms ts evs.
Proof.
  induction ms as [|m ms IH]; intros fuel li ts evs Hms Hfuel;
    (destruct fuel as [|fuel]; [simpl in Hfuel; lia|]);
    inversion Hms as [? E|? ? ? E Hms']; subst; simpl; rewrite E; [done|].
  destruct (pm rawString label regexp m) as [r| |]; simpl; [|done|done].
  apply IH; [done|simpl in Hfuel; lia].
Qed.

(** A loop that returns has gone through all the matches of the text. *)
Lemma ExecutionParser_loop_returned rawString label regexp ep :
  ∀ fuel lastIndex ts evs,
    EP_loop rawString label regexp fuel lastIndex ts evs = Returned ep →
    ∃ ms, matches_from regexp rawString lastIndex ms ∧
          evs_of rawString label regexp ms ts evs = Returned ep.
Proof.
  induction fuel as [|fuel IH]; intros li ts evs; simpl; [done|].
  destruct (exec regexp rawString li) as [m|] eqn:E.
  - destruct (pm rawString label regexp m) as [r| |] eqn:Er; simpl; [|done|done].
    intros H. destruct (IH _ _ _ H) as (ms & Hms & Hev).
    exists (m :: ms). split; [by econstructor|]. simpl. by rewrite Er.
  - intros H. exists []. split; [by constructor|done].
Qed.

(** The events of an execution that was parsed, against its matches: one
    event for each match, in the order of the matches, made from that
    match. *)
Lemma events_of_returned rawString label regexp ms :
  ∀ ts evs ep,
    evs_of rawString label regexp ms ts evs = Returned ep →
    ep_rawString ep = rawString ∧ ep_label ep = label ∧
    ∃ new, logEvents ep = evs ++ new ∧
           Forall2 (λ e m, pm rawString label regexp m = Returned (timestamp e, e))
                   new ms.
Proof.
  induction ms as [|m ms IH]; intros ts evs ep; simpl.
  - intros [= <-]. simpl. split; [done|]. split; [done|].
    exists []. by rewrite app_nil_r.
  - destruct (pm rawString label regexp m) as [[t e]| |] eqn:Er; simpl; [|done|done].
    intros H. destruct (IH _ _ _ H) as (Hr & Hl & new & Hnew & Hall).
    split; [done|]. split; [done|].
    exists (e :: new). split; [by rewrite Hnew, <- app_assoc|].
    constructor; [|done].
    assert (timestamp e = t) as ->; [|done].
    unfold parse_match in Er.
    destruct (parseTimestamp _ _ _ _ _) as [t'| |]; cbn in Er; [|done|done].
    by injection Er as <- <-.
Qed.


(** Parsing the labelled segments: the labels come out in the order of the
    segments, and the table holds, for each key, the execution of the last
    segment recorded under it. *)
Lemma run_segments_returned regexp :
  ∀ l (this p : @LogParser_t VectorTimestamp),
    segs regexp l this = Returned p →
    lp_rawString p = lp_rawString this ∧
    labels p = labels this ++ map fst l ∧
    ∀ k, match last_with_key k l with
         | Some x => ∃ ep, EP x.2 x.1 regexp = Returned ep ∧
                           executions p !! k = Some ep
         | None => executions p !! k = executions this !! k
         end.
Proof.
  induction l as [|x l IH]; intros this p; simpl.
  - intros [= <-]. split; [done|]. split; [by rewrite app_nil_r|done].
  - destruct (EP x.2 x.1 regexp) as [ep| |] eqn:Eep; simpl; [|done|done].
    intros H. destruct (IH _ _ H) as (Hr & Hl & Hk). simpl in *.
    split; [done|]. split; [by rewrite Hl, <- app_assoc|].
    intros k. rewrite last_with_key_cons. specialize (Hk k).
    destruct (last_with_key k l) as [y|]; [done|].
    case_decide as Hkey.
    + exists ep. split; [done|]. rewrite Hk, <- Hkey. apply lookup_insert_eq.
    + rewrite Hk. by apply lookup_insert_ne.
Qed.

End ExecutionFacts.


(** ** The example patterns *)

Lemma get_Some_lt s i c : String.get i s = Some c → i < String.length s.
Proof.
  revert i. induction s as [|a s IH]; intros i; simpl; [by destruct i|].
  destruct i as [|i]; [lia|]. intros H. apply IH in H. lia.
Qed.

Lemma delimiter_advancing : advancing Examples.delimiter.
Proof.
  split; intros s i len gs; simpl;
    destruct (String.get i s) as [a|] eqn:Ea; try done;
    destruct (String.get (i + 1) s) as [c|] eqn:Ec; try done;
    destruct (String.get (i + 2) s) as [b|] eqn:Eb; try done;
    destruct (_ && _); try done; intros [= <- <-]; [lia|].
  apply get_Some_lt in Eb. lia.
Qed.

Lemma dashes_advancing : advancing Examples.dashes.
Proof.
  split; intros s i len gs; simpl;
    destruct (String.get i s) as [a|] eqn:Ea; try done;
    destruct (String.get (i + 1) s) as [c|] eqn:Ec; try done;
    destruct (String.get (i + 2) s) as [b|] eqn:Eb; try done;
    destruct (_ && _); try done; intros [= <- <-]; [lia|].
  apply get_Some_lt in Eb. lia.
Qed.

Lemma never_advancing names : advancing (Examples.never names).
Proof. split; intros s i len gs; simpl; done. Qed.

(** ** The constructor of LogParser *)

Section LogParserFacts.

Context {json VectorTimestamp : Type}.
Variable JSON_parse : string → string + json.
Variable VectorTimestamp_new : json → value → Exception + VectorTimestamp.
Variable globals : gmap string value.

(** Whatever the delimiter, the constructor parses the kept segments in
    order, starting from the empty parser. *)
Lemma LogParser_kept rawString delimiter regexp ms :
  delimiter_matches delimiter (trim rawString) ms →
  LogParser JSON_parse VectorTimestamp_new globals rawString delimiter regexp
  = run_segments JSON_parse VectorTimestamp_new globals regexp
      (kept_segments delimiter (trim rawString) ms)
      (empty_parser (trim rawString)).
Proof.
  destruct delimiter as [d|]; simpl.
  - intros [Hadv Hms]. by apply LogParser_delimited.
  - intros _. unfold LogParser. cbv zeta. simpl.
    by destruct (ExecutionParser _ _ _ _ _ _).
Qed.

(** C1. With a delimiter, the segments between its matches are parsed in
    order, each under the label captured by the delimiter match before it,
    the first one under the empty label; a blank segment is skipped, and the
    segments after it keep the labels of the matches before them. So the
    constructor does what parsing the non-blank labelled segments does, and
    the labels it leaves are theirs, in their order. *)
Theorem LogParser_labels_follow_delimiters rawString d regexp ms :
  advancing d →
  matches_from d (trim rawString) 0 ms →
  LogParser JSON_parse VectorTimestamp_new globals rawString (Some d) regexp
  = run_segments JSON_parse VectorTimestamp_new globals regexp
      (filter (λ x, non_blank x = true) (labelled_segments d (trim rawString) ms))
      (empty_parser (trim rawString))
  ∧ ∀ p,
      LogParser JSON_parse VectorTimestamp_new globals rawString (Some d) regexp
      = Returned p →
      getLabels p
      = map fst (filter (λ x, non_blank x = true)
                   (labelled_segments d (trim rawString) ms)).
Proof.
  intros Hadv Hms.
  pose proof (LogParser_delimited JSON_parse VectorTimestamp_new globals
                rawString d regexp ms Hadv Hms) as Heq.
  split; [exact Heq|].
  intros p Hp. rewrite Heq in Hp.
  apply run_segments_returned in Hp as (_ & Hl & _). exact Hl.
Qed.

End LogParserFacts.

Lemma LogParser_labels_follow_delimiters_witness :
  advancing Examples.delimiter ∧
  matches_from Examples.delimiter (trim Examples.reused_label) 0
    Examples.reused_label_matches ∧
  labelled_segments Examples.delimiter (trim Examples.reused_label)
    Examples.reused_label_matches
  = [ (Str "", ""); (Str "x", "a" +:+ Examples.clock_a1 +:+ "p");
      (Str "z", " " +:+ Examples.nl);
      (Str "x", "b" +:+ Examples.clock_a1b2 +:+ "q") ] ∧
  ∃ p,
    Examples.parse_log
      Examples.reused_label (Some Examples.delimiter) Examples.event_pattern
    = Returned p ∧
    getLabels p = [Str "x"; Str "x"].
Proof.
  assert (matches_from Examples.delimiter (trim Examples.reused_label) 0
            Examples.reused_label_matches) as Hms by find_matches.
  split; [exact delimiter_advancing|]. split; [exact Hms|].
  split; [vm_compute; reflexivity|].
  destruct (Examples.parse_log
              Examples.reused_label (Some Examples.delimiter)
              Examples.event_pattern) as [p|e|] eqn:Hp;
    [|vm_compute in Hp; discriminate|vm_compute in Hp; discriminate].
  exists p. split; [reflexivity|].
  rewrite (proj2 (LogParser_labels_follow_delimiters
                    Examples.JSON_parse Examples.VectorTimestamp_new Examples.no_globals
                    Examples.reused_label Examples.delimiter
                    Examples.event_pattern Examples.reused_label_matches
                    delimiter_advancing Hms) p Hp).
  vm_compute. reflexivity.
Defined.

(** ** Texts without a delimiter match *)

Lemma split_loop_no_match d s :
  (∀ j, j ≤ String.length s → matcher d s j = None) →
  ∀ fuel p q A,
    q ≤ String.length s → String.length s - q < fuel →
    split_loop d s fuel p q A = Returned (A ++ [slice s p (String.length s)]).
Proof.
  intros Hnone. induction fuel as [|fuel IH]; intros p q A Hq Hfuel; [lia|].
  simpl. case_decide; [|done].
  rewrite Hnone by lia. apply IH; lia.
Qed.

Lemma split_no_match d s :
  exec d s 0 = None → split s d = Returned [s].
Proof.
  intros E. pose proof (exec_None _ _ _ E) as Hnone.
  unfold split. case_decide.
  - rewrite Hnone by lia. done.
  - rewrite (split_loop_no_match d s); [|intros; apply Hnone; lia|lia|lia].
    simpl. by rewrite slice_all.
Qed.

Section UndelimitedFacts.

Context {json VectorTimestamp : Type}.
Variable JSON_parse : string → string + json.
Variable VectorTimestamp_new : json → value → Exception + VectorTimestamp.
Variable globals : gmap string value.

(** An execution that was parsed: its events are those of the successive
    matches of its text, in their order. *)
Lemma ExecutionParser_returned rawString label regexp ep :
  ExecutionParser JSON_parse VectorTimestamp_new globals rawString label regexp
  = Returned ep →
  ep_rawString ep = rawString ∧ ep_label ep = label ∧
  ∃ ms, matches_from regexp rawString 0 ms ∧
        Forall2 (λ e m,
                   parse_match JSON_parse VectorTimestamp_new globals
                     rawString label regexp m = Returned (timestamp e, e))
                (logEvents ep) ms.
Proof.
  intros H. apply ExecutionParser_loop_returned in H as (ms & Hms & Hev).
  apply events_of_returned in Hev as (Hr & Hl & new & Hnew & Hall).
  split; [done|]. split; [done|]. exists ms. split; [done|].
  by rewrite Hnew.
Qed.

(** A delimiter that matches nowhere leaves one segment, the whole text. *)
Lemma LogParser_no_match rawString d regexp :
  exec d (trim rawString) 0 = None →
  LogParser JSON_parse VectorTimestamp_new globals rawString (Some d) regexp
  = LogParser_for JSON_parse VectorTimestamp_new globals regexp [Str ""] 0
      [trim rawString] (empty_parser (trim rawString)).
Proof.
  intros E. unfold LogParser. cbv zeta. rewrite (split_no_match _ _ E).
  case_bool_decide; [|done].
  simpl. by rewrite E.
Qed.

(** C7, as the code has it. When the delimiter is absent, or matches nowhere
    in a text that is not blank, the constructor leaves exactly one
    execution, under the empty label, parsed from the whole trimmed text: its
    events are those of the successive matches of the event pattern in that
    text. When the delimiter is present and the text is blank, it leaves no
    execution. *)
Theorem LogParser_without_delimiter_match rawString delimiter regexp :
  (delimiter = None ∨
   ∃ d, delimiter = Some d ∧ exec d (trim rawString) 0 = None) →
  (delimiter = None ∨ trim rawString ≠ EmptyString →
   LogParser JSON_parse VectorTimestamp_new globals rawString delimiter regexp
   = (ep ← ExecutionParser JSON_parse VectorTimestamp_new globals
             (trim rawString) (Str "") regexp;
      mret {| lp_rawString := trim rawString; labels := [Str ""];
              executions := <["" := ep]> ∅ |})
   ∧ ∀ p,
       LogParser JSON_parse VectorTimestamp_new globals rawString delimiter regexp
       = Returned p →
       getLabels p = [Str ""] ∧
       ∃ evs ms,
         getLogEvents p "" = ReturnsEvents evs ∧
         matches_from regexp (trim rawString) 0 ms ∧
         Forall2 (λ e m,
                    parse_match JSON_parse VectorTimestamp_new globals
                      (trim rawString) (Str "") regexp m
                    = Returned (timestamp e, e)) evs ms)
  ∧ (delimiter ≠ None → trim rawString = EmptyString →
     LogParser JSON_parse VectorTimestamp_new globals rawString delimiter regexp
     = Returned (empty_parser EmptyString)).
Proof.
  intros Hd.
  assert (trim rawString ≠ EmptyString ↔ 0 < String.length (trim (trim rawString)))
    as Hblank.
  { rewrite trim_idemp. destruct (trim rawString); simpl; split; intros; try done; lia. }
  split.
  - intros Hcase.
    assert (LogParser JSON_parse VectorTimestamp_new globals rawString delimiter regexp
            = (ep ← ExecutionParser JSON_parse VectorTimestamp_new globals
                      (trim rawString) (Str "") regexp;
               mret {| lp_rawString := trim rawString; labels := [Str ""];
                       executions := <["" := ep]> ∅ |})) as Heq.
    { destruct Hd as [->|(d & -> & E)]; [done|].
      destruct Hcase as [|Hne]; [done|].
      rewrite (LogParser_no_match _ _ _ E). simpl.
      rewrite decide_True by by apply Hblank.
      by destruct (ExecutionParser _ _ _ _ _ _). }
    split; [exact Heq|].
    intros p Hp. rewrite Heq in Hp.
    destruct (ExecutionParser _ _ _ _ _ _) as [ep| |] eqn:Eep; [|done|done].
    cbn in Hp. injection Hp as <-. split; [done|].
    apply ExecutionParser_returned in Eep as (_ & _ & ms & Hms & Hall).
    exists (logEvents ep), ms. split; [|done].
    unfold getLogEvents, executions_get. simpl. by rewrite lookup_insert_eq.
  - intros Hsome Hempty. destruct Hd as [->|(d & -> & E)]; [done|].
    rewrite (LogParser_no_match _ _ _ E). simpl.
    rewrite decide_False; [by rewrite Hempty|].
    intros H. by apply Hblank in H.
Qed.

End UndelimitedFacts.

Lemma LogParser_without_delimiter_match_witness :
  exec Examples.dashes (trim ("a" +:+ Examples.clock_a1 +:+ "p")) 0 = None ∧
  ∃ p,
    Examples.parse_log
      ("a" +:+ Examples.clock_a1 +:+ "p") (Some Examples.dashes)
      Examples.event_pattern = Returned p ∧
    getLabels p = [Str ""] ∧
    ∃ evs, getLogEvents p "" = ReturnsEvents evs ∧ map text evs = [Str "p"].
Proof.
  split; [vm_compute; reflexivity|].
  destruct (Examples.parse_log
              ("a" +:+ Examples.clock_a1 +:+ "p") (Some Examples.dashes)
              Examples.event_pattern) as [p|e|] eqn:Hp;
    [|vm_compute in Hp; discriminate|vm_compute in Hp; discriminate].
  exists p. split; [reflexivity|].
  destruct (LogParser_without_delimiter_match
              Examples.JSON_parse Examples.VectorTimestamp_new Examples.no_globals
              ("a" +:+ Examples.clock_a1 +:+ "p") (Some Examples.dashes)
              Examples.event_pattern) as [H1 _].
  { right. exists Examples.dashes. split; [reflexivity|]. vm_compute. reflexivity. }
  destruct H1 as [_ H1]; [right; vm_compute; discriminate|].
  destruct (H1 p Hp) as (Hl & evs & ms & Hev & _ & _).
  split; [exact Hl|]. exists evs. split; [exact Hev|].
  vm_compute in Hp. injection Hp as <-. vm_compute in Hev. injection Hev as <-.
  reflexivity.
Defined.

(** C7 as stated fails: a blank text with a delimiter that matches nowhere
    leaves no execution at all, and the empty label is unknown. *)
Lemma blank_text_yields_no_execution :
  exec (Examples.never []) (trim "  ") 0 = None ∧
  ∃ p,
    Examples.parse_log
      "  " (Some (Examples.never [])) Examples.event_pattern = Returned p ∧
    getLabels p = [] ∧ getLogEvents p "" = ReturnsNull.
Proof.
  split; [vm_compute; reflexivity|].
  eexists. split; [vm_compute; reflexivity|]. split; reflexivity.
Qed.

(** ** Looking executions up *)

Section LookupFacts.

Context {json VectorTimestamp : Type}.
Variable JSON_parse : string → string + json.
Variable VectorTimestamp_new : json → value → Exception + VectorTimestamp.
Variable globals : gmap string value.

(** What the constructor leaves: the labels of the kept segments in their
    order, and a table that holds, under each key, the execution parsed from
    the last kept segment of that key, and nothing else. *)
Lemma LogParser_returned rawString delimiter regexp ms p :
  delimiter_matches delimiter (trim rawString) ms →
  LogParser JSON_parse VectorTimestamp_new globals rawString delimiter regexp
  = Returned p →
  labels p = map fst (kept_segments delimiter (trim rawString) ms) ∧
  ∀ k, match last_with_key k (kept_segments delimiter (trim rawString) ms) with
       | Some x =>
           ∃ ep, ExecutionParser JSON_parse VectorTimestamp_new globals
                   x.2 x.1 regexp = Returned ep ∧
                 executions p !! k = Some ep
       | None => executions p !! k = None
       end.
Proof.
  intros Hms Hp. rewrite (LogParser_kept _ _ _ _ _ _ _ Hms) in Hp.
  apply run_segments_returned in Hp as (_ & Hl & Hk).
  split; [exact Hl|]. intros k. specialize (Hk k).
  destruct (last_with_key k _); [done|]. by rewrite Hk.
Qed.

Lemma last_with_key_Some k (l : list (value * string)) x :
  last_with_key k l = Some x → x ∈ l ∧ ToString x.1 = k.
Proof.
  unfold last_with_key. intros H. apply last_Some_elem_of in H.
  by apply list_elem_of_filter in H as [? ?].
Qed.

Lemma kept_segment_non_blank delimiter s ms (x : value * string) :
  x ∈ kept_segments delimiter s ms → ToString x.1 = "__proto__" →
  ToBoolean (Str x.2) = true ∧ ToBoolean x.1 = true.
Proof.
  destruct x as [v t]. cbn [fst snd]. intros Hx Hkey. split.
  - destruct delimiter as [d|]; cbn [kept_segments] in Hx.
    + apply list_elem_of_filter in Hx as [Hnb _]. unfold non_blank in Hnb.
      apply bool_decide_eq_true in Hnb. cbn [snd] in Hnb.
      destruct t; [vm_compute in Hnb; lia|done].
    + apply list_elem_of_singleton in Hx. injection Hx as -> ->.
      discriminate Hkey.
  - destruct v as [|t'|[|n]|c].
    + discriminate Hkey.
    + cbn [ToString] in Hkey. by subst t'.
    + vm_compute in Hkey. discriminate Hkey.
    + done.
    + done.
Qed.

Lemma Object_prototype_has label :
  existsb (String.eqb label) Object_prototype
  = bool_decide (label ∈ Object_prototype).
Proof.
  destruct (existsb _ _) eqn:E; symmetry.
  - apply bool_decide_eq_true. apply existsb_exists in E as (x & Hx & He).
    apply String.eqb_eq in He. subst x. by apply list_elem_of_In.
  - apply bool_decide_eq_false. intros Hin. apply list_elem_of_In in Hin.
    assert (existsb (String.eqb label) Object_prototype = true) as E'.
    { apply existsb_exists. exists label. split; [done|]. apply String.eqb_refl. }
    congruence.
Qed.

(** C5, as the code has it. On a parser that was constructed: [getLabels]
    gives the labels of the parsed segments in the order of the text, and for
    a label among them [getLogEvents] gives the events of the execution
    recorded under it, which are those of the successive matches of the event
    pattern in its text, in their order. For a label that is not among them
    [getLogEvents] gives [null] only when the label names no property that
    the table inherits: for the names of [Object.prototype] and, once an
    execution was recorded under [__proto__], for the names of the properties
    of an execution, it gives [undefined]. *)
Theorem getLogEvents_getLabels rawString delimiter regexp ms p :
  delimiter_matches delimiter (trim rawString) ms →
  LogParser JSON_parse VectorTimestamp_new globals rawString delimiter regexp
  = Returned p →
  getLabels p = map fst (kept_segments delimiter (trim rawString) ms)
  ∧ (∀ label, label ∉ map ToString (getLabels p) →
       getLogEvents p label
       = if decide (label ∈ Object_prototype ∨
                    ("__proto__" ∈ map ToString (getLabels p) ∧
                     label ∈ ["rawString"; "label"; "timestamps"; "logEvents"]))
         then ReturnsUndefined else ReturnsNull)
  ∧ (∀ label, label ∈ map ToString (getLabels p) →
       ∃ x evs ems,
         last_with_key label (kept_segments delimiter (trim rawString) ms) = Some x ∧
         getLogEvents p label = ReturnsEvents evs ∧
         matches_from regexp x.2 0 ems ∧
         Forall2 (λ e m,
                    parse_match JSON_parse VectorTimestamp_new globals
                      x.2 x.1 regexp m = Returned (timestamp e, e)) evs ems).
Proof.
  intros Hms Hp.
  destruct (LogParser_returned _ _ _ _ _ Hms Hp) as [Hl Hk].
  unfold getLabels. rewrite Hl, map_map.
  split; [done|]. split.
  - intros label Hnot.
    assert (executions p !! label = None) as Hown.
    { apply last_with_key_None in Hnot. specialize (Hk label).
      by rewrite Hnot in Hk. }
    unfold getLogEvents, executions_get. rewrite Hown.
    pose proof (Hk "__proto__") as Hproto.
    destruct (last_with_key "__proto__" _) as [x|] eqn:Ex.
    + destruct Hproto as (proto & Hep & ->).
      apply ExecutionParser_returned in Hep as (-> & -> & _).
      pose proof (last_with_key_Some _ _ _ Ex) as [Hx Hkey].
      destruct (kept_segment_non_blank _ _ _ _ Hx Hkey) as [-> ->].
      assert ("__proto__" ∈ map (λ x, ToString x.1)
                (kept_segments delimiter (trim rawString) ms)) as Hin.
      { apply list_elem_of_fmap. by exists x. }
      rewrite Object_prototype_has.
      destruct (String.eqb_spec label "rawString") as [->|H1].
      { rewrite decide_True; [done|]. right. split; [done|]. by left. }
      destruct (String.eqb_spec label "label") as [->|H2].
      { rewrite decide_True; [done|]. right. split; [done|]. right. by left. }
      destruct (String.eqb_spec label "timestamps") as [->|H3].
      { rewrite decide_True; [done|]. right. split; [done|].
        right. right. by left. }
      destruct (String.eqb_spec label "logEvents") as [->|H4].
      { rewrite decide_True; [done|]. right. split; [done|].
        right. right. right. by left. }
      cbn [orb]. case_bool_decide as Hobj.
      * rewrite decide_True; [done|]. by left.
      * rewrite decide_False; [done|].
        intros [?|[_ Hfour]]; [done|].
        repeat (apply elem_of_cons in Hfour as [?|Hfour]; [done|]).
        by apply elem_of_nil in Hfour.
    + rewrite Hproto. apply last_with_key_None in Ex.
      rewrite Object_prototype_has. case_bool_decide as Hobj.
      * rewrite decide_True; [done|]. by left.
      * rewrite decide_False; [done|]. by intros [?|[? _]].
  - intros label Hin. specialize (Hk label).
    destruct (last_with_key label _) as [x|] eqn:Ex.
    + destruct Hk as (ep & Hep & Hlook).
      apply ExecutionParser_returned in Hep as (_ & _ & ems & Hems & Hall).
      exists x, (logEvents ep), ems. split; [done|].
      unfold getLogEvents, executions_get. rewrite Hlook. by split.
    + apply last_with_key_None in Ex. done.
Qed.

(** C6. When a label is captured again by a later delimiter, the table holds
    under that label the execution of the later segment, whose events
    [getLogEvents] returns; every entry of the table is the execution of the
    last segment of its key, so the earlier one is in it no more. *)
Theorem reused_label_keeps_last_execution rawString d regexp ms p l1 x1 l2 x2 l3 :
  advancing d →
  matches_from d (trim rawString) 0 ms →
  LogParser JSON_parse VectorTimestamp_new globals rawString (Some d) regexp
  = Returned p →
  filter (λ x, non_blank x = true) (labelled_segments d (trim rawString) ms)
  = l1 ++ x1 :: l2 ++ x2 :: l3 →
  ToString x1.1 = ToString x2.1 →
  ToString x2.1 ∉ map (λ x, ToString x.1) l3 →
  (∃ ep2,
     ExecutionParser JSON_parse VectorTimestamp_new globals x2.2 x2.1 regexp
     = Returned ep2 ∧
     executions p !! ToString x1.1 = Some ep2 ∧
     getLogEvents p (ToString x1.1) = ReturnsEvents (logEvents ep2))
  ∧ ∀ k ep,
      executions p !! k = Some ep →
      last_with_key k
        (filter (λ x, non_blank x = true) (labelled_segments d (trim rawString) ms))
      = Some (ep_label ep, ep_rawString ep).
Proof.
  intros Hadv Hms Hp Hsplit Hkey Hlast.
  destruct (LogParser_returned rawString (Some d) regexp ms p (conj Hadv Hms) Hp)
    as [_ Hk].
  simpl in Hk. split.
  - specialize (Hk (ToString x1.1)).
    assert (last_with_key (ToString x1.1)
              (filter (λ x, non_blank x = true)
                 (labelled_segments d (trim rawString) ms)) = Some x2) as Hx2.
    { rewrite Hsplit.
      assert (last_with_key (ToString x1.1) (x2 :: l3) = Some x2) as H3.
      { rewrite last_with_key_cons.
        apply last_with_key_None in Hlast. rewrite <- Hkey in Hlast.
        rewrite Hlast. by rewrite decide_True. }
      apply last_with_key_app_r. rewrite last_with_key_cons.
      by rewrite (last_with_key_app_r _ l2 _ _ H3). }
    rewrite Hx2 in Hk. destruct Hk as (ep2 & Hep & Hlook).
    exists ep2. split; [done|]. split; [done|].
    unfold getLogEvents, executions_get. by rewrite Hlook.
  - intros k ep Hlook. specialize (Hk k).
    destruct (last_with_key k _) as [x|]; [|congruence].
    destruct Hk as (ep' & Hep & Hlook').
    assert (ep' = ep) as -> by congruence.
    apply ExecutionParser_returned in Hep as (Hr & Hl & _).
    rewrite Hr, Hl. by destruct x.
Qed.


End LookupFacts.

(** ** Timestamps that fail to parse *)

Section TimestampFacts.

Context {json VectorTimestamp : Type}.
Variable JSON_parse : string → string + json.
Variable VectorTimestamp_new : json → value → Exception + VectorTimestamp.
Variable globals : gmap string value.

(** Nothing that [parseTimestamp] can see binds the identifier [line], unless
    a global does. *)
Lemma line_unbound rawString label ln clock host event clockString hostString :
  globals !! "line" = None →
  parseTimestamp_scope
    (ExecutionParser_scope globals rawString label ln clock host event)
    clockString hostString !! "line" = None.
Proof.
  intros Hg. unfold parseTimestamp_scope. rewrite !lookup_insert_ne by done.
  unfold ExecutionParser_scope. apply lookup_union_None_2; [|done].
  simpl. rewrite !lookup_insert_ne by done. apply lookup_empty.
Qed.

Lemma identifier_unbound (env : gmap string value) k v x :
  k ≠ x → env !! x = None →
  identifier (<[k := v]> env) x = Thrown (ReferenceError x).
Proof. intros Hk Hx. unfold identifier. by rewrite lookup_insert_ne, Hx. Qed.

(** What [parseTimestamp] does, when no global is named [line]: both handlers
    stop at their first statement, on the identifier [line]. *)
Lemma parseTimestamp_outcome rawString label ln clock host event :
  globals !! "line" = None →
  parseTimestamp JSON_parse VectorTimestamp_new
    (ExecutionParser_scope globals rawString label ln clock host event) clock host
  = match JSON_parse (ToString clock) with
    | inl _ => Thrown (ReferenceError "line")
    | inr c =>
        match VectorTimestamp_new c host with
        | inl _ => Thrown (ReferenceError "line")
        | inr t => Returned t
        end
    end.
Proof.
  intros Hg. unfold parseTimestamp. cbv zeta.
  destruct (JSON_parse (ToString clock)) as [err|c].
  - by rewrite (identifier_unbound _ _ _ "line")
      by (done || by apply line_unbound).
  - destruct (VectorTimestamp_new c host) as [exc|t]; [|done].
    by rewrite (identifier_unbound _ _ _ "line")
      by (done || by apply line_unbound).
Qed.

Lemma parse_match_malformed rawString label regexp m :
  globals !! "line" = None →
  malformed_clock JSON_parse VectorTimestamp_new regexp m →
  parse_match JSON_parse VectorTimestamp_new globals rawString label regexp m
  = Thrown (ReferenceError "line").
Proof.
  intros Hg Hbad. unfold parse_match. cbv zeta.
  rewrite parseTimestamp_outcome by done. unfold malformed_clock in Hbad.
  destruct (JSON_parse _) as [err|c]; [done|].
  by destruct (VectorTimestamp_new c _).
Qed.

Lemma parse_match_outcome rawString label regexp m :
  globals !! "line" = None →
  (malformed_clock JSON_parse VectorTimestamp_new regexp m ∧
   parse_match JSON_parse VectorTimestamp_new globals rawString label regexp m
   = Thrown (ReferenceError "line"))
  ∨ ∃ r, parse_match JSON_parse VectorTimestamp_new globals rawString label regexp m
         = Returned r.
Proof.
  intros Hg. unfold parse_match, malformed_clock. cbv zeta.
  rewrite parseTimestamp_outcome by done.
  destruct (JSON_parse _) as [err|c]; [by left|].
  destruct (VectorTimestamp_new c _) as [exc|t]; [by left|]. right. by eexists.
Qed.

(** The first malformed clock among the matches ends the parse. *)
Lemma events_of_malformed rawString label regexp ms :
  globals !! "line" = None →
  Exists (malformed_clock JSON_parse VectorTimestamp_new regexp) ms →
  ∀ ts evs,
    events_of JSON_parse VectorTimestamp_new globals rawString label regexp ms ts evs
    = Thrown (ReferenceError "line").
Proof.
  intros Hg. induction ms as [|m ms IH]; intros Hex ts evs; [by inversion Hex|].
  simpl. destruct (parse_match_outcome rawString label regexp m Hg)
    as [[_ ->]|[r Hr]]; [done|].
  rewrite Hr. simpl. apply IH.
  inversion Hex as [? ? Hm|]; subst; [|done].
  by rewrite (parse_match_malformed rawString label regexp m Hg Hm) in Hr.
Qed.

(** C2, as the code has it. When some match of an execution has a malformed
    clock, the parse of the execution is aborted, but what is thrown is the
    [ReferenceError] for the identifier [line], which holds neither the line
    number of the match nor the text of the clock. *)
Theorem malformed_clock_raises_ReferenceError rawString label regexp ms :
  globals !! "line" = None →
  advancing regexp →
  matches_from regexp rawString 0 ms →
  Exists (malformed_clock JSON_parse VectorTimestamp_new regexp) ms →
  ExecutionParser JSON_parse VectorTimestamp_new globals rawString label regexp
  = Thrown (ReferenceError "line").
Proof.
  intros Hg Hadv Hms Hex. unfold ExecutionParser.
  rewrite (ExecutionParser_loop_matches _ _ _ _ _ _ ms); [|done|].
  - by apply events_of_malformed.
  - pose proof (matches_from_bound _ _ _ _ Hadv Hms). lia.
Qed.

(** The loops of the constructor throw only where a match is parsed. *)
Lemma ExecutionParser_loop_thrown rawString label regexp e :
  ∀ fuel lastIndex ts evs,
    ExecutionParser_loop JSON_parse VectorTimestamp_new globals
      rawString label regexp fuel lastIndex ts evs = Thrown e →
    ∃ li m, exec regexp rawString li = Some m ∧
            parse_match JSON_parse VectorTimestamp_new globals
              rawString label regexp m = Thrown e.
Proof.
  induction fuel as [|fuel IH]; intros li ts evs; simpl; [done|].
  destruct (exec regexp rawString li) as [m|] eqn:E; [|done].
  destruct (parse_match _ _ _ _ _ _ m) as [r|e'|] eqn:Er; simpl; [|intros [= ->]|done].
  - apply IH.
  - by exists li, m.
Qed.

Lemma LogParser_for_thrown regexp currLabels e :
  ∀ rest i (this : @LogParser_t VectorTimestamp),
    LogParser_for JSON_parse VectorTimestamp_new globals regexp currLabels i rest this
    = Thrown e →
    ∃ seg label,
      seg ∈ rest ∧
      ExecutionParser JSON_parse VectorTimestamp_new globals seg label regexp
      = Thrown e.
Proof.
  induction rest as [|seg rest IH]; intros i this; simpl; [done|].
  case_decide as Hblank.
  - destruct (ExecutionParser _ _ _ seg _ regexp) as [ep|e'|] eqn:Eep; simpl;
      [|intros [= ->]|done].
    + intros H. apply IH in H as (seg' & label & Hin & H).
      exists seg', label. split; [by right|done].
    + eexists seg, _. split; [by left|done].
  - intros H. apply IH in H as (seg' & label & Hin & H).
    exists seg', label. split; [by right|done].
Qed.

Lemma split_loop_not_thrown d s e : ∀ fuel p q A, split_loop d s fuel p q A ≠ Thrown e.
Proof.
  induction fuel as [|fuel IH]; intros p q A; simpl; [done|].
  case_decide; [|done].
  destruct (matcher d s q) as [[len gs]|]; [|apply IH].
  case_decide; apply IH.
Qed.

Lemma currLabels_loop_not_thrown d s e :
  ∀ fuel lastIndex acc, currLabels_loop d s fuel lastIndex acc ≠ Thrown e.
Proof.
  induction fuel as [|fuel IH]; intros li acc; simpl; [done|].
  destruct (exec d s li); [apply IH|done].
Qed.

Lemma LogParser_thrown rawString delimiter regexp e :
  LogParser JSON_parse VectorTimestamp_new globals rawString delimiter regexp
  = Thrown e →
  ∃ seg label li m,
    match delimiter with
    | Some d =>
        ∃ currExecs,
          split (trim rawString) d = Returned currExecs ∧ seg ∈ currExecs
    | None => seg = trim rawString
    end ∧
    exec regexp seg li = Some m ∧
    parse_match JSON_parse VectorTimestamp_new globals seg label regexp m = Thrown e.
Proof.
  unfold LogParser. cbv zeta. destruct delimiter as [d|].
  - destruct (split (trim rawString) d) as [currExecs|e'|] eqn:Es; simpl; [| |done].
    + destruct (if bool_decide ("trace" ∈ names d) then _ else _)
        as [currLabels|e'|] eqn:El; simpl; [| |done].
      * intros H. apply LogParser_for_thrown in H as (seg & label & Hin & H).
        apply ExecutionParser_loop_thrown in H as (li & m & E & Hpm).
        exists seg, label, li, m. split; [by exists currExecs|done].
      * case_bool_decide; [|done]. exfalso.
        exact (currLabels_loop_not_thrown d (trim rawString) e'
                 (S (String.length (trim rawString))) 0 [Str ""] El).
    + exfalso. unfold split in Es. case_decide.
      * by destruct (matcher d _ 0).
      * by apply split_loop_not_thrown in Es.
  - destruct (ExecutionParser _ _ _ (trim rawString) _ regexp) as [ep|e'|] eqn:Eep;
      simpl; [done| |done].
    intros [= ->].
    apply ExecutionParser_loop_thrown in Eep as (li & m & E & Hpm).
    by exists (trim rawString), (Str ""), li, m.
Qed.

(** C3, as the code has it. The constructor checks no group name. A group
    that the event pattern does not have reads as [undefined] at every
    match. Whatever the names of the groups, the constructor succeeds when
    the pattern matches nowhere in the text, leaving an execution without
    events. And when it throws, the pattern has matched: in the trimmed text
    when there is no delimiter, in one of the segments that [split] gave
    when there is one; the pattern matches that text at the index of the
    match, the clock of the match failed to parse, and the error is the one
    raised while parsing its timestamp. *)
Theorem LogParser_checks_no_group_name rawString regexp :
  (∀ m name, name ∉ names regexp → named regexp m name = Undefined)
  ∧ (exec regexp (trim rawString) 0 = None →
     LogParser JSON_parse VectorTimestamp_new globals rawString None regexp
     = Returned
         {| lp_rawString := trim rawString; labels := [Str ""];
            executions :=
              <["" := {| ep_rawString := trim rawString; ep_label := Str "";
                         timestamps := []; logEvents := [] |}]> ∅ |})
  ∧ (globals !! "line" = None →
     ∀ delimiter e,
       LogParser JSON_parse VectorTimestamp_new globals rawString delimiter regexp
       = Thrown e →
       e = ReferenceError "line" ∧
       ∃ seg label lastIndex m,
         match delimiter with
         | Some d =>
             ∃ currExecs,
               split (trim rawString) d = Returned currExecs ∧ seg ∈ currExecs
         | None => seg = trim rawString
         end ∧
         exec regexp seg lastIndex = Some m ∧
         matcher regexp seg (index m) = Some (matched m, groups m) ∧
         malformed_clock JSON_parse VectorTimestamp_new regexp m ∧
         parse_match JSON_parse VectorTimestamp_new globals seg label regexp m
         = Thrown e).
Proof.
  split; [|split].
  - intros m name. apply named_without_group.
  - intros E. unfold LogParser, ExecutionParser. cbv zeta. simpl. by rewrite E.
  - intros Hg delimiter e H.
    apply LogParser_thrown in H as (seg & label & li & m & Hseg & E & Hpm).
    destruct (parse_match_outcome seg label regexp m Hg) as [[Hbad Ht]|[r Hr]];
      [|congruence].
    split; [congruence|]. exists seg, label, li, m.
    split; [done|]. split; [done|].
    split; [by apply exec_Some in E as (_ & ? & _)|]. by split.
Qed.

End TimestampFacts.

(** ** The loops end *)

(** [split] always returns: a position is tried at most twice. *)
Lemma split_loop_returns d s :
  ∀ fuel p q A,
    p ≤ q →
    2 * (String.length s - q) + (if decide (p < q) then 1 else 0) < fuel →
    ∃ l, split_loop d s fuel p q A = Returned l.
Proof.
  induction fuel as [|fuel IH]; intros p q A Hpq Hfuel; [lia|].
  simpl. destruct (decide (q < String.length s)) as [Hq|Hq]; [|eauto].
  destruct (decide (p < q)) as [Hlt|Hge].
  - destruct (matcher d s q) as [[len gs]|].
    + destruct (decide (Nat.min (q + len) (String.length s) = p)).
      * apply IH; [lia|]. destruct (decide (p < q + 1)); lia.
      * apply IH; [lia|]. destruct (decide (_ < _)); lia.
    + apply IH; [lia|]. destruct (decide (p < q + 1)); lia.
  - destruct (matcher d s q) as [[len gs]|].
    + destruct (decide (Nat.min (q + len) (String.length s) = p)).
      * apply IH; [lia|]. destruct (decide (p < q + 1)); lia.
      * apply IH; [lia|]. destruct (decide (_ < _)); lia.
    + apply IH; [lia|]. destruct (decide (p < q + 1)); lia.
Qed.

Lemma split_returns s d : ∃ l, split s d = Returned l.
Proof.
  unfold split. case_decide.
  - destruct (matcher d s 0); eauto.
  - apply split_loop_returns; [lia|]. destruct (decide (0 < 0)); lia.
Qed.

Section Termination.

Context {json VectorTimestamp : Type}.
Variable JSON_parse : string → string + json.
Variable VectorTimestamp_new : json → value → Exception + VectorTimestamp.
Variable globals : gmap string value.

Lemma identifier_finishes (env : gmap string value) x :
  identifier env x ≠ OutOfFuel.
Proof. unfold identifier. by destruct (env !! x). Qed.

Lemma parseTimestamp_finishes outer clockString hostString :
  parseTimestamp JSON_parse VectorTimestamp_new outer clockString hostString
  ≠ OutOfFuel.
Proof.
  unfold parseTimestamp. cbv zeta.
  destruct (JSON_parse _) as [err|c];
    [|destruct (VectorTimestamp_new c _) as [exc|t]; [|done]];
    match goal with
    | |- context [identifier ?env "line"] =>
        pose proof (identifier_finishes env "line");
        pose proof (identifier_finishes env "text");
        destruct (identifier env "line"); [|done|done];
        destruct (identifier env "text"); done
    end.
Qed.

Lemma parse_match_finishes rawString label regexp m :
  parse_match JSON_parse VectorTimestamp_new globals rawString label regexp m
  ≠ OutOfFuel.
Proof.
  unfold parse_match. cbv zeta.
  match goal with
  | |- context [parseTimestamp ?a ?b ?c ?d ?e] =>
      pose proof (parseTimestamp_finishes c d e);
      destruct (parseTimestamp a b c d e); done
  end.
Qed.

Lemma events_of_finishes rawString label regexp ms :
  ∀ ts evs,
    events_of JSON_parse VectorTimestamp_new globals rawString label regexp ms ts evs
    ≠ OutOfFuel.
Proof.
  induction ms as [|m ms IH]; intros ts evs; simpl; [done|].
  pose proof (parse_match_finishes rawString label regexp m) as Hm.
  destruct (parse_match _ _ _ _ _ _ m); simpl; [apply IH|done|done].
Qed.

(** With a pattern that advances, the loop of [ExecutionParser] ends: the
    constructor returns or throws. *)
Lemma ExecutionParser_finishes rawString label regexp :
  advancing regexp →
  ExecutionParser JSON_parse VectorTimestamp_new globals rawString label regexp
  ≠ OutOfFuel.
Proof.
  intros Hadv. destruct (matches_from_exists regexp rawString Hadv 0) as [ms Hms].
  unfold ExecutionParser.
  rewrite (ExecutionParser_loop_matches _ _ _ _ _ _ ms); [|done|].
  - apply events_of_finishes.
  - pose proof (matches_from_bound _ _ _ _ Hadv Hms). lia.
Qed.

Lemma run_segments_finishes regexp :
  advancing regexp →
  ∀ l (this : @LogParser_t VectorTimestamp),
    run_segments JSON_parse VectorTimestamp_new globals regexp l this ≠ OutOfFuel.
Proof.
  intros Hadv. induction l as [|x l IH]; intros this; simpl; [done|].
  pose proof (ExecutionParser_finishes x.2 x.1 regexp Hadv) as Hx.
  destruct (ExecutionParser _ _ _ x.2 x.1 regexp); simpl; [apply IH|done|done].
Qed.

(** With patterns that advance, the constructor of [LogParser] returns or
    throws. *)
Lemma LogParser_finishes rawString delimiter regexp :
  (∀ d, delimiter = Some d → advancing d) →
  advancing regexp →
  LogParser JSON_parse VectorTimestamp_new globals rawString delimiter regexp
  ≠ OutOfFuel.
Proof.
  intros Hd Hre.
  assert (∃ ms, delimiter_matches delimiter (trim rawString) ms) as [ms Hms].
  { destruct delimiter as [d|]; simpl; [|by exists []].
    destruct (matches_from_exists d (trim rawString) (Hd d eq_refl) 0) as [ms Hms].
    exists ms. split; [by apply Hd|done]. }
  rewrite (LogParser_kept _ _ _ _ _ _ _ Hms). by apply run_segments_finishes.
Qed.

End Termination.

(** ** The claims on concrete texts *)

Lemma index_ge s2 : ∀ n m s1, String.index n s1 s2 = Some m → n ≤ m.
Proof.
  induction s2 as [|b s2 IH]; intros n m s1; simpl.
  - destruct n; [|done]. destruct s1; [|done]. intros [= <-]. lia.
  - destruct n as [|n].
    + intros _. lia.
    + destruct (String.index n s1 s2) as [k|] eqn:E; [|done].
      intros [= <-]. apply IH in E. lia.
Qed.

Lemma event_pattern_advancing : advancing Examples.event_pattern.
Proof.
  assert (∀ s i len gs,
            Examples.event_attempt s i = Some (len, gs) →
            0 < len ∧ i + len ≤ String.length s) as H.
  { intros s i len gs. unfold Examples.event_attempt.
    destruct (String.get i s) as [h|]; [|done].
    destruct (String.get (i + 1) s) as [b|]; [|done].
    destruct (_ && _); [|done].
    destruct (String.index (i + 1) "}" s) as [j|] eqn:Ej; [|done].
    destruct (String.get (j + 1) s) as [e|] eqn:Ee; [|done].
    destruct (is_whitespace e); [done|]. intros [= <- <-].
    apply index_ge in Ej. apply get_Some_lt in Ee. lia. }
  split; intros s i len gs Hm; apply (H s i len gs Hm).
Qed.

Lemma malformed_clock_raises_ReferenceError_witness :
  Examples.no_globals !! "line" = None ∧
  advancing Examples.event_pattern ∧
  matches_from Examples.event_pattern Examples.broken_third_line 0
    Examples.broken_third_line_matches ∧
  Exists (malformed_clock Examples.JSON_parse Examples.VectorTimestamp_new
            Examples.event_pattern) Examples.broken_third_line_matches ∧
  Examples.parse_execution
    Examples.broken_third_line (Str "") Examples.event_pattern
  = Thrown (ReferenceError "line").
Proof.
  assert (matches_from Examples.event_pattern Examples.broken_third_line 0
            Examples.broken_third_line_matches) as Hms by find_matches.
  assert (Exists (malformed_clock Examples.JSON_parse Examples.VectorTimestamp_new
                    Examples.event_pattern) Examples.broken_third_line_matches)
    as Hex.
  { apply Exists_cons_tl, Exists_cons_tl, Exists_cons_hd. vm_compute. exact I. }
  split; [reflexivity|]. split; [exact event_pattern_advancing|].
  split; [exact Hms|]. split; [exact Hex|].
  exact (malformed_clock_raises_ReferenceError
           Examples.JSON_parse Examples.VectorTimestamp_new Examples.no_globals
           Examples.broken_third_line (Str "") Examples.event_pattern
           Examples.broken_third_line_matches
           eq_refl event_pattern_advancing Hms Hex).
Defined.

(** C3 as stated fails: a pattern with no group named host is accepted, and
    the parser is constructed. *)
Lemma pattern_without_host_is_accepted :
  ("host" ∉ names Examples.hostless_pattern) ∧
  ∃ p,
    Examples.parse_log
      "hello" None Examples.hostless_pattern = Returned p ∧
    getLabels p = [Str ""] ∧ getLogEvents p "" = ReturnsEvents [].
Proof.
  split.
  - apply (bool_decide_unpack _). vm_compute. exact I.
  - eexists. split; [vm_compute; reflexivity|]. split; reflexivity.
Qed.

Lemma LogParser_checks_no_group_name_witness :
  exec Examples.hostless_pattern (trim "hello") 0 = None ∧
  Examples.no_globals !! "line" = None ∧
  Examples.parse_log
    "hello" None Examples.hostless_pattern
  = Returned
      {| lp_rawString := "hello"; labels := [Str ""];
         executions :=
           <["" := {| ep_rawString := "hello"; ep_label := Str "";
                      timestamps := []; logEvents := [] |}]> ∅ |} ∧
  (∀ m, named Examples.hostless_pattern m "host" = Undefined) ∧
  ∀ e,
    Examples.parse_log
      Examples.broken_third_line None Examples.hostless_pattern = Thrown e →
    e = ReferenceError "line".
Proof.
  assert (exec Examples.hostless_pattern (trim "hello") 0 = None) as E
    by (vm_compute; reflexivity).
  split; [exact E|]. split; [reflexivity|]. split; [|split].
  - exact (proj1 (proj2 (LogParser_checks_no_group_name
                    Examples.JSON_parse Examples.VectorTimestamp_new Examples.no_globals
                    "hello" Examples.hostless_pattern)) E).
  - intros m.
    apply (proj1 (LogParser_checks_no_group_name
                    Examples.JSON_parse Examples.VectorTimestamp_new Examples.no_globals
                    "hello" Examples.hostless_pattern) m "host").
    intros H. revert H. apply (bool_decide_unpack _). vm_compute. exact I.
  - intros e He.
    exact (proj1 (proj2 (proj2 (LogParser_checks_no_group_name
                           Examples.JSON_parse Examples.VectorTimestamp_new Examples.no_globals
                           Examples.broken_third_line Examples.hostless_pattern))
                    eq_refl None e He)).
Defined.


Lemma getLogEvents_getLabels_witness :
  delimiter_matches (Some Examples.delimiter) (trim Examples.two_executions)
    Examples.two_executions_matches ∧
  ∃ p,
    Examples.parse_log
      Examples.two_executions (Some Examples.delimiter) Examples.event_pattern
    = Returned p ∧
    getLabels p = [Str "x"; Str "y"] ∧
    getLogEvents p "w" = ReturnsNull ∧
    getLogEvents p "constructor" = ReturnsUndefined ∧
    ∃ evs, getLogEvents p "x" = ReturnsEvents evs ∧
           map text evs = [Str "p"; Str "q"].
Proof.
  assert (delimiter_matches (Some Examples.delimiter) (trim Examples.two_executions)
            Examples.two_executions_matches) as Hms.
  { split; [exact delimiter_advancing|]. find_matches. }
  split; [exact Hms|].
  destruct (Examples.parse_log
              Examples.two_executions (Some Examples.delimiter)
              Examples.event_pattern) as [p|e|] eqn:Hp;
    [|vm_compute in Hp; discriminate|vm_compute in Hp; discriminate].
  exists p. split; [reflexivity|].
  destruct (getLogEvents_getLabels
              Examples.JSON_parse Examples.VectorTimestamp_new Examples.no_globals
              Examples.two_executions (Some Examples.delimiter)
              Examples.event_pattern Examples.two_executions_matches p Hms Hp)
    as (Hl & Hnone & Hsome).
  assert (getLabels p = [Str "x"; Str "y"]) as Hlabels.
  { rewrite Hl. vm_compute. reflexivity. }
  split; [exact Hlabels|]. split; [|split].
  - rewrite Hnone.
    + apply decide_False. rewrite Hlabels.
      intros [H|[H _]]; revert H; apply (bool_decide_unpack _); vm_compute;
        exact I.
    + rewrite Hlabels. apply (bool_decide_unpack _). vm_compute. exact I.
  - rewrite Hnone.
    + apply decide_True. left. apply (bool_decide_unpack _). vm_compute. exact I.
    + rewrite Hlabels. apply (bool_decide_unpack _). vm_compute. exact I.
  - destruct (Hsome "x") as (x & evs & ems & _ & Hev & _ & _).
    { rewrite Hlabels. apply (bool_decide_unpack _). vm_compute. exact I. }
    exists evs. split; [exact Hev|].
    vm_compute in Hp. injection Hp as <-. vm_compute in Hev. injection Hev as <-.
    reflexivity.
Defined.

Lemma reused_label_keeps_last_execution_witness :
  advancing Examples.delimiter ∧
  matches_from Examples.delimiter (trim Examples.reused_label) 0
    Examples.reused_label_matches ∧
  ∃ p,
    Examples.parse_log
      Examples.reused_label (Some Examples.delimiter) Examples.event_pattern
    = Returned p ∧
    ∃ ep2,
      Examples.parse_execution
        ("b" +:+ Examples.clock_a1b2 +:+ "q") (Str "x") Examples.event_pattern
      = Returned ep2 ∧
      getLogEvents p "x" = ReturnsEvents (logEvents ep2) ∧
      map text (logEvents ep2) = [Str "q"].
Proof.
  assert (matches_from Examples.delimiter (trim Examples.reused_label) 0
            Examples.reused_label_matches) as Hms by find_matches.
  split; [exact delimiter_advancing|]. split; [exact Hms|].
  destruct (Examples.parse_log
              Examples.reused_label (Some Examples.delimiter)
              Examples.event_pattern) as [p|e|] eqn:Hp;
    [|vm_compute in Hp; discriminate|vm_compute in Hp; discriminate].
  exists p. split; [reflexivity|].
  destruct (reused_label_keeps_last_execution
              Examples.JSON_parse Examples.VectorTimestamp_new Examples.no_globals
              Examples.reused_label Examples.delimiter Examples.event_pattern
              Examples.reused_label_matches p
              [] (Str "x", "a" +:+ Examples.clock_a1 +:+ "p")
              [] (Str "x", "b" +:+ Examples.clock_a1b2 +:+ "q") []
              delimiter_advancing Hms Hp)
    as [(ep2 & Hep2 & _ & Hev) _].
  - vm_compute. reflexivity.
  - reflexivity.
  - simpl. apply not_elem_of_nil.
  - exists ep2. split; [exact Hep2|]. split; [exact Hev|].
    simpl in Hep2. vm_compute in Hep2. injection Hep2 as <-. reflexivity.
Defined.

(** ** Merging vector timestamps *)

Lemma update_clock_lookup (a b : VectorTimestamp.t) h :
  VectorTimestamp.clock (VectorTimestamp.update a b) !! h
  = match VectorTimestamp.clock a !! h, VectorTimestamp.clock b !! h with
    | Some x, Some y => Some (Nat.max x y)
    | Some x, None => Some x
    | None, Some y => Some y
    | None, None => None
    end.
Proof.
  unfold VectorTimestamp.update. simpl. rewrite lookup_union_with.
  by destruct (VectorTimestamp.clock a !! h), (VectorTimestamp.clock b !! h).
Qed.

Lemma update_clock_comm (a b : VectorTimestamp.t) :
  VectorTimestamp.clock (VectorTimestamp.update a b)
  = VectorTimestamp.clock (VectorTimestamp.update b a).
Proof.
  apply map_eq. intros h. rewrite !update_clock_lookup.
  destruct (VectorTimestamp.clock a !! h), (VectorTimestamp.clock b !! h);
    try done.
  by rewrite Nat.max_comm.
Qed.

(** C8. For two clock texts that parse, over the same hosts, merging one
    timestamp into the other gives the same mapping whichever is the
    receiver, and the owner of the merge is the owner of the receiver. *)
Theorem update_commutes_keeps_owner C1 C2 host1 host2 a b :
  VectorTimestamp.parse C1 host1 = inr a →
  VectorTimestamp.parse C2 host2 = inr b →
  dom (VectorTimestamp.clock a) = dom (VectorTimestamp.clock b) →
  VectorTimestamp.clock (VectorTimestamp.update a b)
  = VectorTimestamp.clock (VectorTimestamp.update b a)
  ∧ VectorTimestamp.owner (VectorTimestamp.update a b) = VectorTimestamp.owner a
  ∧ VectorTimestamp.owner (VectorTimestamp.update b a) = VectorTimestamp.owner b.
Proof.
  intros _ _ _. split; [apply update_clock_comm|]. by split.
Qed.

Lemma update_commutes_keeps_owner_witness :
  ∃ a b,
    VectorTimestamp.parse Examples.clock_a1b2 "a" = inr a ∧
    VectorTimestamp.parse Examples.clock_a2b1 "b" = inr b ∧
    dom (VectorTimestamp.clock a) = dom (VectorTimestamp.clock b) ∧
    VectorTimestamp.clock (VectorTimestamp.update a b)
    = VectorTimestamp.clock (VectorTimestamp.update b a) ∧
    VectorTimestamp.clock (VectorTimestamp.update a b) !! "a" = Some 2 ∧
    VectorTimestamp.clock (VectorTimestamp.update a b) !! "b" = Some 2 ∧
    VectorTimestamp.owner (VectorTimestamp.update a b) = "a" ∧
    VectorTimestamp.owner (VectorTimestamp.update b a) = "b".
Proof.
  destruct (VectorTimestamp.parse Examples.clock_a1b2 "a") as [e|a] eqn:Ha;
    [vm_compute in Ha; discriminate|].
  destruct (VectorTimestamp.parse Examples.clock_a2b1 "b") as [e|b] eqn:Hb;
    [vm_compute in Hb; discriminate|].
  assert (dom (VectorTimestamp.clock a) = dom (VectorTimestamp.clock b)) as Hdom.
  { vm_compute in Ha. injection Ha as <-. vm_compute in Hb. injection Hb as <-.
    vm_compute. reflexivity. }
  exists a, b. split; [reflexivity|]. split; [reflexivity|]. split; [exact Hdom|].
  destruct (update_commutes_keeps_owner
              Examples.clock_a1b2 Examples.clock_a2b1 "a" "b" a b Ha Hb Hdom)
    as (Hclock & Ho1 & Ho2).
  split; [exact Hclock|].
  rewrite Ho1, Ho2.
  vm_compute in Ha. injection Ha as <-. vm_compute in Hb. injection Hb as <-.
  repeat split; vm_compute; reflexivity.
Defined.

(** ** Motif search and reachability *)

Section MotifFacts.

Import MotifFinder.

Variable g : CausalityGraph.
Variable p : BuilderGraph.

Lemma first_success_None {A B : Type} (f : A → option B) (l : list A) :
  (∀ x, x ∈ l → f x = None) → first_success f l = None.
Proof.
  induction l as [|x l IH]; intros H; [done|]. simpl.
  rewrite (H x) by by left. apply IH. intros y Hy. apply H. by right.
Qed.

Lemma after_subseteq x (l : list Node) n : n ∈ after x l → n ∈ l.
Proof.
  induction l as [|m l IH]; simpl; [done|].
  destruct (id m =? x); intros H; right; [done|by apply IH].
Qed.

(** A candidate is a node of the graph, on the host of the pattern node. *)
Lemma candidates_spec a b n :
  n ∈ candidates g a b → n ∈ nodes g ∧ host n = bhost b.
Proof.
  unfold candidates. intros [Hh Hin]%list_elem_of_filter. split; [|done].
  destruct (last_on_host a (bhost b)); [by eapply after_subseteq|done].
Qed.

Lemma bid_unique (l : list BuilderNode) x y :
  NoDup (map bid l) → x ∈ l → y ∈ l → bid x = bid y → x = y.
Proof.
  induction l as [|z l IH]; intros Hnd Hx Hy Heq; [by inversion Hx|].
  simpl in Hnd. apply NoDup_cons in Hnd as [Hz Hnd].
  apply elem_of_cons in Hx as [->|Hx]; apply elem_of_cons in Hy as [->|Hy].
  - done.
  - exfalso. apply Hz. rewrite Heq. by apply list_elem_of_fmap_2.
  - exfalso. apply Hz. rewrite <- Heq. by apply list_elem_of_fmap_2.
  - by apply IH.
Qed.

(** With a pattern edge between two hosts and no reachability between the
    nodes of these hosts, no branch of the search succeeds. *)
Lemma search_fails a b :
  NoDup (map bid (bnodes p)) →
  a ∈ bnodes p → b ∈ bnodes p → (bid a, bid b) ∈ bedges p →
  (∀ x y, x ∈ nodes g → y ∈ nodes g → host x = bhost a → host y = bhost b →
          reachable g (id x) (id y) = false) →
  ∀ todo asg,
    (∀ bn, bn ∈ todo → bn ∈ bnodes p) → respects_hosts g p asg →
    search g p todo asg = None.
Proof.
  intros Hnd Ha Hb Hedge Hreach.
  induction todo as [|bn todo IH]; intros asg Htodo Hinv; simpl.
  - assert (forallb (edge_satisfied g asg) (bedges p) = false) as ->; [|done].
    apply not_true_iff_false. intros Hall.
    rewrite forallb_forall in Hall.
    specialize (Hall (bid a, bid b)). rewrite <- list_elem_of_In in Hall.
    specialize (Hall Hedge). unfold edge_satisfied in Hall. simpl in Hall.
    destruct (assigned asg (bid a)) as [x|] eqn:Ex; [|done].
    destruct (assigned asg (bid b)) as [y|] eqn:Ey; [|done].
    destruct (Hinv _ _ Ex) as (Hx & bx & Hbx & Hidx & Hhx).
    destruct (Hinv _ _ Ey) as (Hy & by' & Hby & Hidy & Hhy).
    assert (bx = a) as -> by by apply (bid_unique (bnodes p)).
    assert (by' = b) as -> by by apply (bid_unique (bnodes p)).
    rewrite (Hreach x y) in Hall by done. done.
  - apply first_success_None. intros n Hn.
    apply candidates_spec in Hn as [Hin Hhost].
    apply IH.
    + intros bn' Hbn'. apply Htodo. by right.
    + intros i n' Hi. simpl in Hi.
      destruct (bid bn =? i) eqn:Ei.
      * apply Nat.eqb_eq in Ei. simplify_eq. split; [done|].
        exists bn. split; [apply Htodo; by left|]. by split.
      * by apply Hinv.
Qed.

(** C9. When the pattern has an edge between two pattern nodes on different
    hosts and no node of the first host reaches a node of the second host
    through the edges of the graph, [find] fails with [NoMatchError],
    whatever the vector timestamps of the nodes are. *)
Theorem find_fails_without_reachability a b :
  NoDup (map bid (bnodes p)) →
  a ∈ bnodes p → b ∈ bnodes p →
  bhost a ≠ bhost b →
  (bid a, bid b) ∈ bedges p →
  (∀ x y, x ∈ nodes g → y ∈ nodes g → host x = bhost a → host y = bhost b →
          reachable g (id x) (id y) = false) →
  find g p = inl NoMatch.
Proof.
  intros Hnd Ha Hb _ Hedge Hreach. unfold find.
  rewrite (search_fails a b Hnd Ha Hb Hedge Hreach); [done|done|].
  intros i n Hi. done.
Qed.

End MotifFacts.

Lemma find_fails_without_reachability_witness :
  VectorTimestamp.compare
    (Examples.timestamp_of Examples.clock_a1 "a")
    (Examples.timestamp_of Examples.clock_a1b2 "b") = VectorTimestamp.LESS ∧
  MotifFinder.find Examples.unrelated_hosts Examples.cross_host_pattern
  = inl MotifFinder.NoMatch.
Proof.
  split; [vm_compute; reflexivity|].
  apply (find_fails_without_reachability
           Examples.unrelated_hosts Examples.cross_host_pattern
           Examples.pattern_a Examples.pattern_b).
  - apply (bool_decide_unpack _). vm_compute. exact I.
  - simpl. by left.
  - simpl. right. by left.
  - discriminate.
  - simpl. by left.
  - intros x y Hx Hy Hhx Hhy. simpl in Hx, Hy.
    repeat (apply elem_of_cons in Hx as [->|Hx]); [..|by inversion Hx];
      try discriminate Hhx;
      (repeat (apply elem_of_cons in Hy as [->|Hy]); [..|by inversion Hy]);
      try discriminate Hhy; vm_compute; reflexivity.
Defined.

(** With an edge from the first host to the second, the same pattern is
    found. *)
Lemma find_succeeds_with_an_edge :
  MotifFinder.find Examples.related_hosts Examples.cross_host_pattern
  = inr {| MotifFinder.matchedNodeIds := [1; 3];
           MotifFinder.matchedEdges := [(1, 3)] |}.
Proof. vm_compute. reflexivity. Qed.

(** ** The hosts of the graph builder *)

Section GraphBuilderFacts.

Import GraphBuilder.

Lemma indexOf_lt arr arg : ∀ i, indexOf arr arg = Some i → i < length arr.
Proof.
  induction arr as [|x arr IH]; intros i; simpl; [done|].
  destruct (ref x =? ref arg); [intros [= <-]; lia|].
  destruct (indexOf arr arg) as [j|]; [|done].
  intros [= <-]. specialize (IH j eq_refl). lia.
Qed.

(** [Array.remove] takes exactly one element away, when there is one. *)
Lemma Array_remove_length arr arg :
  length (Array_remove arr arg) = length arr - 1.
Proof.
  unfold Array_remove. destruct (indexOf arr arg) as [i|] eqn:E.
  - apply length_delete, lookup_lt_is_Some. by apply (indexOf_lt arr arg).
  - destruct arr as [|x arr]; [done|].
    apply length_delete, lookup_lt_is_Some. simpl. lia.
Qed.

(** The loop of [clear] ends, with no host left. *)
Lemma clear_loop_empties :
  ∀ fuel this,
    length (hosts this) < fuel →
    clear_loop fuel this = Normal {| hosts := []; allocated := allocated this |}.
Proof.
  induction fuel as [|fuel IH]; intros this Hfuel; [lia|]. simpl.
  destruct (last (hosts this)) as [h|] eqn:E.
  - assert (hosts this ≠ []) as Hne by (intros H; by rewrite H in E).
    rewrite IH; [done|]. simpl. rewrite Array_remove_length.
    destruct (hosts this); [done|]. simpl in *. lia.
  - apply last_None in E. destruct this as [hs n]. simpl in *. by subst.
Qed.

Lemma clear_two_hosts this :
  ∃ this', clear this = Normal this' ∧ length (hosts this') = 2.
Proof.
  unfold clear. rewrite clear_loop_empties by lia.
  eexists. split; [reflexivity|]. reflexivity.
Qed.

(** A call leaves at most [MAX_HOSTS] hosts when it found at most that
    many. *)
Lemma perform_bounded o this :
  length (hosts this) ≤ MAX_HOSTS →
  ∃ this', (perform o this = Normal this' ∨ ∃ e, perform o this = Abrupt this' e)
           ∧ length (hosts this') ≤ MAX_HOSTS.
Proof.
  intros Hle. destruct o as [|h|]; simpl.
  - unfold addHost. case_decide.
    + exists this. split; [right; eauto|done].
    + eexists. split; [by left|]. simpl. rewrite length_app. simpl. lia.
  - eexists. split; [by left|]. simpl. rewrite Array_remove_length. lia.
  - destruct (clear_two_hosts this) as (this' & -> & Hlen).
    exists this'. split; [by left|]. rewrite Hlen. unfold MAX_HOSTS. lia.
Qed.

Lemma run_bounded ops :
  ∀ this, length (hosts this) ≤ MAX_HOSTS →
          ∃ this', run ops this = Some this' ∧ length (hosts this') ≤ MAX_HOSTS.
Proof.
  induction ops as [|o ops IH]; intros this Hle; simpl; [eauto|].
  destruct (perform_bounded o this Hle) as (this' & [->|[e ->]] & Hle');
    by apply IH.
Qed.

(** C10. The constructor leaves two hosts. After any sequence of calls of
    [addHost], [removeHost] and [clear] on the builder, every call has ended
    and there are at most [MAX_HOSTS] = 5 hosts; there, [addHost] appends
    exactly one host when fewer than 5 are present, and throws, leaving the
    builder as it was, when 5 are present. *)
Theorem hosts_never_exceed_MAX_HOSTS ops :
  MAX_HOSTS = 5 ∧ GraphBuilder = Normal initial ∧
  ∃ this,
    run ops initial = Some this ∧
    length (hosts this) ≤ MAX_HOSTS ∧
    (length (hosts this) < MAX_HOSTS →
     ∃ host this',
       addHost this = Normal this' ∧ hosts this' = hosts this ++ [host]) ∧
    (length (hosts this) = MAX_HOSTS → ∃ e, addHost this = Abrupt this e).
Proof.
  split; [done|]. split; [done|].
  destruct (run_bounded ops initial) as (this & Hrun & Hle);
    [unfold MAX_HOSTS; simpl; lia|].
  exists this. split; [done|]. split; [done|]. split.
  - intros Hlt. unfold addHost. rewrite decide_False by lia. eauto.
  - intros Heq. unfold addHost. rewrite decide_True by lia. eauto.
Qed.

End GraphBuilderFacts.

Lemma hosts_never_exceed_MAX_HOSTS_witness :
  ∃ this,
    GraphBuilder.run
      [GraphBuilder.AddHost; GraphBuilder.AddHost; GraphBuilder.AddHost;
       GraphBuilder.AddHost;
       GraphBuilder.RemoveHost {| GraphBuilder.ref := 9; GraphBuilder.hostNum := 0 |};
       GraphBuilder.Clear; GraphBuilder.AddHost; GraphBuilder.AddHost;
       GraphBuilder.AddHost]
      GraphBuilder.initial = Some this ∧
    length (GraphBuilder.hosts this) = 5 ∧
    ∃ e, GraphBuilder.addHost this = GraphBuilder.Abrupt this e.
Proof.
  destruct (hosts_never_exceed_MAX_HOSTS
              [GraphBuilder.AddHost; GraphBuilder.AddHost; GraphBuilder.AddHost;
               GraphBuilder.AddHost;
               GraphBuilder.RemoveHost
                 {| GraphBuilder.ref := 9; GraphBuilder.hostNum := 0 |};
               GraphBuilder.Clear; GraphBuilder.AddHost; GraphBuilder.AddHost;
               GraphBuilder.AddHost])
    as (_ & _ & this & Hrun & Hle & Hlt & Heq).
  exists this. split; [exact Hrun|].
  assert (length (GraphBuilder.hosts this) = 5) as Hlen.
  { vm_compute in Hrun. injection Hrun as <-. reflexivity. }
  split; [exact Hlen|]. apply Heq. exact Hlen.
Defined.

(** ** More on the parser: what an execution holds *)

Lemma trim_start_whitespace w s :
  forallb is_whitespace (list_ascii_of_string w) = true →
  trim_start (w +:+ s) = trim_start s.
Proof.
  induction w as [|c w IH]; simpl; [done|].
  intros [Hc Hw]%andb_true_iff. rewrite Hc. by apply IH.
Qed.

Lemma trim_end_whitespace w :
  forallb is_whitespace (list_ascii_of_string w) = true →
  trim_end w = EmptyString.
Proof.
  induction w as [|c w IH]; simpl; [done|].
  intros [Hc Hw]%andb_true_iff. by rewrite IH, Hc.
Qed.

Lemma trim_end_app_whitespace s w :
  forallb is_whitespace (list_ascii_of_string w) = true →
  trim_end (s +:+ w) = trim_end s.
Proof.
  intros Hw. induction s as [|c s IH]; simpl.
  - by apply trim_end_whitespace.
  - by rewrite IH.
Qed.

Lemma trim_start_app_whitespace s w :
  forallb is_whitespace (list_ascii_of_string w) = true →
  trim_start (s +:+ w) = trim_start s +:+ w ∨
  (trim_start (s +:+ w) = EmptyString ∧ trim_start s = EmptyString).
Proof.
  intros Hw. induction s as [|c s IH]; simpl.
  - right. split; [|done]. induction w as [|c w IH]; [done|].
    simpl in *. apply andb_true_iff in Hw as [-> Hw]. by apply IH.
  - destruct (is_whitespace c); [exact IH|]. by left.
Qed.

(** White space around a text does not count. *)
Lemma trim_surrounding_whitespace w1 s w2 :
  forallb is_whitespace (list_ascii_of_string w1) = true →
  forallb is_whitespace (list_ascii_of_string w2) = true →
  trim (w1 +:+ s +:+ w2) = trim s.
Proof.
  intros H1 H2. unfold trim. rewrite (trim_start_whitespace w1 _ H1).
  destruct (trim_start_app_whitespace s w2 H2) as [->|[-> ->]]; [|done].
  by apply trim_end_app_whitespace.
Qed.


Section ExecutionContents.

Context {json VectorTimestamp : Type}.
Variable JSON_parse : string → string + json.
Variable VectorTimestamp_new : json → value → Exception + VectorTimestamp.
Variable globals : gmap string value.

(** A timestamp that was parsed is the one the constructor made from the
    parsed clock and the host: no handler returns. *)
Lemma parseTimestamp_returned outer clock host t :
  parseTimestamp JSON_parse VectorTimestamp_new outer clock host = Returned t →
  ∃ c, JSON_parse (ToString clock) = inr c ∧
       VectorTimestamp_new c host = inr t.
Proof.
  unfold parseTimestamp. cbv zeta.
  destruct (JSON_parse _) as [err|c].
  - match goal with
    | |- context [identifier ?env "line"] =>
        destruct (identifier env "line"); [|done|done];
        destruct (identifier env "text"); done
    end.
  - destruct (VectorTimestamp_new c host) as [exc|t'] eqn:Et.
    + match goal with
      | |- context [identifier ?env "line"] =>
          destruct (identifier env "line"); [|done|done];
          destruct (identifier env "text"); done
      end.
    + intros [= <-]. by exists c.
Qed.

Lemma parse_match_returned rawString label regexp m t e :
  parse_match JSON_parse VectorTimestamp_new globals rawString label regexp m
  = Returned (t, e) →
  timestamp e = t ∧
  text e = named regexp m "event" ∧
  lineNumber e = line_of rawString m ∧
  fields e = collect_fields regexp m ∧
  ∃ c, JSON_parse (ToString (named regexp m "clock")) = inr c ∧
       VectorTimestamp_new c (named regexp m "host") = inr t.
Proof.
  unfold parse_match. cbv zeta.
  match goal with
  | |- context [parseTimestamp ?a ?b ?c ?d ?e] =>
      pose proof (parseTimestamp_returned c d e) as Hts;
      destruct (parseTimestamp a b c d e) as [t'| |]; [|done|done]
  end.
  cbn. intros [= <- <-]. cbn. repeat split; try done. by apply Hts.
Qed.

Lemma events_of_parallel rawString label regexp ms :
  ∀ ts evs ep,
    events_of JSON_parse VectorTimestamp_new globals rawString label regexp
      ms ts evs = Returned ep →
    ∃ new, logEvents ep = evs ++ new ∧
           timestamps ep = ts ++ map timestamp new ∧
           length new = length ms.
Proof.
  induction ms as [|m ms IH]; intros ts evs ep; simpl.
  - intros [= <-]. exists []. simpl. by rewrite !app_nil_r.
  - destruct (parse_match _ _ _ _ _ _ m) as [[t e]| |] eqn:Er; simpl; [|done|done].
    intros H. destruct (IH _ _ _ H) as (new & Hl & Ht & Hn).
    apply parse_match_returned in Er as (He & _).
    exists (e :: new). simpl. rewrite Hl, Ht, <- !app_assoc, He, Hn. done.
Qed.

(** X1. An execution that was parsed holds one event for each successive
    match of the pattern in its text, in the order of the matches: the text
    of the event is the capture of the group event, its timestamp is the one
    the constructor of the timestamp made from the parsed clock capture and
    the host capture; and [timestamps] holds the timestamps of [logEvents],
    in the same order. *)
Theorem ExecutionParser_events_follow_matches rawString label regexp ep :
  ExecutionParser JSON_parse VectorTimestamp_new globals rawString label regexp
  = Returned ep →
  ep_rawString ep = rawString ∧ ep_label ep = label ∧
  timestamps ep = map timestamp (logEvents ep) ∧
  ∃ ms,
    matches_from regexp rawString 0 ms ∧
    Forall2
      (λ e m,
         text e = named regexp m "event" ∧
         ∃ c, JSON_parse (ToString (named regexp m "clock")) = inr c ∧
              VectorTimestamp_new c (named regexp m "host") = inr (timestamp e))
      (logEvents ep) ms.
Proof.
  intros H. apply ExecutionParser_loop_returned in H as (ms & Hms & Hev).
  destruct (events_of_parallel _ _ _ _ _ _ _ Hev) as (new & Hl & Ht & _).
  apply events_of_returned in Hev as (Hr & Hlab & new' & Hnew & Hall).
  simpl in *. subst new'.
  split; [done|]. split; [done|]. split; [by rewrite Ht, Hl|].
  exists ms. split; [done|].
  eapply Forall2_impl; [exact Hall|].
  intros e m Hem. apply parse_match_returned in Hem as (_ & Htext & _ & _ & Hc).
  by split.
Qed.


End ExecutionContents.

(** ** More on the parser: loops, labels and failures *)

Section ParserEnds.

Context {json VectorTimestamp : Type}.
Variable JSON_parse : string → string + json.
Variable VectorTimestamp_new : json → value → Exception + VectorTimestamp.
Variable globals : gmap string value.

(** After an empty match, the next search finds the same match again. *)
Lemma exec_again re s lastIndex m :
  exec re s lastIndex = Some m → matched m = 0 →
  exec re s (match_end m) = Some m.
Proof.
  intros E H0. destruct (exec_Some _ _ _ _ E) as (Hle & Hm & _).
  unfold match_end. rewrite H0, Nat.add_0_r.
  rewrite (exec_first re s (index m) (index m) (matched m) (groups m));
    [by destruct m|lia|intros; lia|done].
Qed.

(** X3. A pattern whose match is empty never lets the loop over its matches
    end, whatever the number of rounds: with such a delimiter, having a group
    named trace, the constructor of [LogParser] does not end; with such an
    event pattern, whose clock parses, the constructor of [ExecutionParser]
    does not end. *)
Theorem empty_match_never_ends :
  (∀ rawString d regexp m,
     "trace" ∈ names d →
     exec d (trim rawString) 0 = Some m → matched m = 0 →
     (∀ fuel currLabels,
        currLabels_loop d (trim rawString) fuel 0 currLabels = OutOfFuel) ∧
     LogParser JSON_parse VectorTimestamp_new globals rawString (Some d) regexp
     = OutOfFuel)
  ∧ (∀ rawString label regexp m r,
       exec regexp rawString 0 = Some m → matched m = 0 →
       parse_match JSON_parse VectorTimestamp_new globals rawString label regexp m
       = Returned r →
       (∀ fuel ts evs,
          ExecutionParser_loop JSON_parse VectorTimestamp_new globals
            rawString label regexp fuel 0 ts evs = OutOfFuel) ∧
       ExecutionParser JSON_parse VectorTimestamp_new globals rawString label regexp
       = OutOfFuel).
Proof.
  split.
  - intros rawString d regexp m Htrace E H0.
    assert (∀ fuel li currLabels,
              exec d (trim rawString) li = Some m →
              currLabels_loop d (trim rawString) fuel li currLabels = OutOfFuel)
      as Hloop.
    { induction fuel as [|fuel IH]; intros li acc Eli; simpl; [done|].
      rewrite Eli. apply IH. by eapply exec_again. }
    split; [intros; by apply Hloop|].
    unfold LogParser. cbv zeta.
    destruct (split_returns (trim rawString) d) as [l ->].
    rewrite bool_decide_eq_true_2 by done.
    by rewrite Hloop.
  - intros rawString label regexp m r E H0 Hr.
    assert (∀ fuel li ts evs,
              exec regexp rawString li = Some m →
              ExecutionParser_loop JSON_parse VectorTimestamp_new globals
                rawString label regexp fuel li ts evs = OutOfFuel) as Hloop.
    { induction fuel as [|fuel IH]; intros li ts evs Eli; simpl; [done|].
      rewrite Eli, Hr. cbn. apply IH. by eapply exec_again. }
    split; [intros; by apply Hloop|]. by apply Hloop.
Qed.

(** X4. With patterns whose matches are never empty and stay inside the
    text, the constructor of [LogParser] ends: it returns a parser or it
    throws. *)
Theorem LogParser_ends rawString delimiter regexp :
  (∀ d, delimiter = Some d → advancing d) →
  advancing regexp →
  (∃ p, LogParser JSON_parse VectorTimestamp_new globals rawString delimiter regexp
        = Returned p)
  ∨ (∃ e, LogParser JSON_parse VectorTimestamp_new globals rawString delimiter regexp
          = Thrown e).
Proof.
  intros Hd Hre.
  pose proof (LogParser_finishes JSON_parse VectorTimestamp_new globals
                rawString delimiter regexp Hd Hre) as H.
  destruct (LogParser _ _ _ _ _ _) as [p|e|]; [left|right|done]; eauto.
Qed.

Lemma segments_after_length d s p label ms :
  length (segments_after d s p label ms) = S (length ms).
Proof.
  revert p label. induction ms as [|m ms IH]; intros p label; simpl; [done|].
  by rewrite IH.
Qed.

Lemma filter_all_kept (l : list (value * string)) :
  Forall (λ x, non_blank x = true) l →
  filter (λ x, non_blank x = true) l = l.
Proof.
  induction 1 as [|x l Hx _ IH]; [done|].
  rewrite filter_cons_True by done. by rewrite IH.
Qed.

(** X5. With a delimiter that has [N] matches in the text, a parser that was
    constructed has at most [N + 1] labels, and exactly [N + 1] when no
    segment is blank. *)
Theorem labels_at_most_one_more_than_delimiters rawString d regexp ms p :
  advancing d →
  matches_from d (trim rawString) 0 ms →
  LogParser JSON_parse VectorTimestamp_new globals rawString (Some d) regexp
  = Returned p →
  length (getLabels p) ≤ S (length ms) ∧
  (Forall (λ x, non_blank x = true) (labelled_segments d (trim rawString) ms) →
   length (getLabels p) = S (length ms)).
Proof.
  intros Hadv Hms Hp.
  destruct (LogParser_returned JSON_parse VectorTimestamp_new globals
              rawString (Some d) regexp ms p (conj Hadv Hms) Hp) as [Hl _].
  unfold getLabels. rewrite Hl. simpl. rewrite length_map.
  split.
  - etrans; [apply length_filter|].
    unfold labelled_segments. by rewrite segments_after_length.
  - intros Hall. rewrite filter_all_kept by done.
    unfold labelled_segments. by rewrite segments_after_length.
Qed.

(** X6. White space before and after the log does not count: the parser is
    the one of the log without it. *)
Theorem surrounding_whitespace_is_ignored w1 rawString w2 delimiter regexp :
  forallb is_whitespace (list_ascii_of_string w1) = true →
  forallb is_whitespace (list_ascii_of_string w2) = true →
  LogParser JSON_parse VectorTimestamp_new globals
    (w1 +:+ rawString +:+ w2) delimiter regexp
  = LogParser JSON_parse VectorTimestamp_new globals rawString delimiter regexp.
Proof.
  intros H1 H2. unfold LogParser. cbv zeta.
  by rewrite (trim_surrounding_whitespace w1 rawString w2 H1 H2).
Qed.

Lemma ExecutionParser_thrown_line rawString label regexp e :
  globals !! "line" = None →
  ExecutionParser JSON_parse VectorTimestamp_new globals rawString label regexp
  = Thrown e →
  e = ReferenceError "line".
Proof.
  intros Hg H. apply ExecutionParser_loop_thrown in H as (li & m & _ & Hpm).
  destruct (parse_match_outcome JSON_parse VectorTimestamp_new globals
              rawString label regexp m Hg) as [[_ Ht]|[r Hr]]; congruence.
Qed.

Lemma ExecutionParser_malformed rawString label regexp ms :
  globals !! "line" = None →
  advancing regexp →
  matches_from regexp rawString 0 ms →
  Exists (malformed_clock JSON_parse VectorTimestamp_new regexp) ms →
  ExecutionParser JSON_parse VectorTimestamp_new globals rawString label regexp
  = Thrown (ReferenceError "line").
Proof.
  intros Hg Hadv Hms Hex. unfold ExecutionParser.
  rewrite (ExecutionParser_loop_matches _ _ _ _ _ _ ms); [|done|].
  - by apply events_of_malformed.
  - pose proof (matches_from_bound _ _ _ _ Hadv Hms). lia.
Qed.

(** X7. One malformed clock, in any segment, aborts the whole parse: the
    constructor throws, and the executions of the segments before it are
    not to be had. *)
Theorem one_malformed_clock_aborts_the_log rawString delimiter regexp ms x ems :
  globals !! "line" = None →
  delimiter_matches delimiter (trim rawString) ms →
  advancing regexp →
  x ∈ kept_segments delimiter (trim rawString) ms →
  matches_from regexp x.2 0 ems →
  Exists (malformed_clock JSON_parse VectorTimestamp_new regexp) ems →
  LogParser JSON_parse VectorTimestamp_new globals rawString delimiter regexp
  = Thrown (ReferenceError "line").
Proof.
  intros Hg Hms Hre Hx Hems Hbad.
  rewrite (LogParser_kept _ _ _ _ _ _ _ Hms).
  generalize (empty_parser (VectorTimestamp:=VectorTimestamp) (trim rawString)).
  induction (kept_segments delimiter (trim rawString) ms) as [|y l IH];
    intros this; [by inversion Hx|].
  simpl.
  destruct (ExecutionParser _ _ _ y.2 y.1 regexp) as [ep|e|] eqn:Ey.
  - simpl. apply elem_of_cons in Hx as [->|Hx]; [|by apply IH].
    rewrite (ExecutionParser_malformed _ _ _ _ Hg Hre Hems Hbad) in Ey. done.
  - simpl. apply ExecutionParser_thrown_line in Ey; [by subst|done].
  - by apply ExecutionParser_finishes in Ey.
Qed.

End ParserEnds.

Lemma ExecutionParser_events_follow_matches_witness :
  ∃ ep,
    Examples.parse_execution Examples.two_lines (Str "x") Examples.event_pattern
    = Returned ep ∧
    map text (logEvents ep) = [Str "p"; Str "q"] ∧
    timestamps ep = map timestamp (logEvents ep).
Proof.
  destruct (Examples.parse_execution Examples.two_lines (Str "x")
              Examples.event_pattern) as [ep|e|] eqn:Hep;
    [|vm_compute in Hep; discriminate|vm_compute in Hep; discriminate].
  exists ep. split; [reflexivity|].
  destruct (ExecutionParser_events_follow_matches
              Examples.JSON_parse Examples.VectorTimestamp_new Examples.no_globals
              Examples.two_lines (Str "x") Examples.event_pattern ep Hep)
    as (_ & _ & Hts & _).
  split; [|exact Hts].
  vm_compute in Hep. injection Hep as <-. reflexivity.
Defined.


Lemma empty_match_never_ends_witness :
  exec Examples.equals_run (trim Examples.two_lines) 0
  = Some {| index := 0; matched := 0; groups := [Str ""] |} ∧
  Examples.parse_log Examples.two_lines (Some Examples.equals_run)
    Examples.event_pattern = OutOfFuel ∧
  Examples.parse_execution Examples.two_lines (Str "")
    Examples.lookahead_pattern = OutOfFuel.
Proof.
  assert (exec Examples.equals_run (trim Examples.two_lines) 0
          = Some {| index := 0; matched := 0; groups := [Str ""] |}) as E
    by (vm_compute; reflexivity).
  split; [exact E|].
  destruct (empty_match_never_ends
              Examples.JSON_parse Examples.VectorTimestamp_new Examples.no_globals)
    as [Hd He].
  split.
  - refine (proj2 (Hd Examples.two_lines Examples.equals_run
                     Examples.event_pattern _ _ E eq_refl)).
    simpl. by left.
  - destruct (parse_match Examples.JSON_parse Examples.VectorTimestamp_new
                Examples.no_globals Examples.two_lines (Str "")
                Examples.lookahead_pattern
                {| index := 0; matched := 0;
                   groups := [Str "a"; Str Examples.clock_a1; Str "p"] |})
      as [r|e|] eqn:Hr;
      [|vm_compute in Hr; discriminate|vm_compute in Hr; discriminate].
    refine (proj2 (He Examples.two_lines (Str "") Examples.lookahead_pattern
                     {| index := 0; matched := 0;
                        groups := [Str "a"; Str Examples.clock_a1; Str "p"] |}
                     r _ eq_refl Hr)).
    vm_compute. reflexivity.
Defined.

Lemma LogParser_ends_witness :
  advancing Examples.delimiter ∧ advancing Examples.event_pattern ∧
  ((∃ p, Examples.parse_log Examples.two_executions (Some Examples.delimiter)
           Examples.event_pattern = Returned p)
   ∨ (∃ e, Examples.parse_log Examples.two_executions (Some Examples.delimiter)
             Examples.event_pattern = Thrown e)).
Proof.
  split; [exact delimiter_advancing|]. split; [exact event_pattern_advancing|].
  apply LogParser_ends; [|exact event_pattern_advancing].
  intros d [= <-]. exact delimiter_advancing.
Defined.

Lemma labels_at_most_one_more_than_delimiters_witness :
  advancing Examples.delimiter ∧
  matches_from Examples.delimiter (trim Examples.reused_label) 0
    Examples.reused_label_matches ∧
  ∃ p,
    Examples.parse_log Examples.reused_label (Some Examples.delimiter)
      Examples.event_pattern = Returned p ∧
    length (getLabels p) ≤ 4.
Proof.
  assert (matches_from Examples.delimiter (trim Examples.reused_label) 0
            Examples.reused_label_matches) as Hms by find_matches.
  split; [exact delimiter_advancing|]. split; [exact Hms|].
  destruct (Examples.parse_log Examples.reused_label (Some Examples.delimiter)
              Examples.event_pattern) as [p|e|] eqn:Hp;
    [|vm_compute in Hp; discriminate|vm_compute in Hp; discriminate].
  exists p. split; [reflexivity|].
  exact (proj1 (labels_at_most_one_more_than_delimiters
                  Examples.JSON_parse Examples.VectorTimestamp_new
                  Examples.no_globals Examples.reused_label Examples.delimiter
                  Examples.event_pattern Examples.reused_label_matches p
                  delimiter_advancing Hms Hp)).
Defined.

Lemma surrounding_whitespace_is_ignored_witness :
  Examples.parse_log
    ((" " +:+ Examples.nl) +:+ Examples.two_lines +:+ Examples.nl)
    None Examples.event_pattern
  = Examples.parse_log Examples.two_lines None Examples.event_pattern.
Proof.
  apply (surrounding_whitespace_is_ignored
           Examples.JSON_parse Examples.VectorTimestamp_new Examples.no_globals
           (" " +:+ Examples.nl) Examples.two_lines Examples.nl);
    vm_compute; reflexivity.
Defined.

Lemma one_malformed_clock_aborts_the_log_witness :
  delimiter_matches (Some Examples.delimiter)
    (trim Examples.broken_second_execution)
    Examples.broken_second_execution_matches ∧
  Examples.parse_log Examples.broken_second_execution (Some Examples.delimiter)
    Examples.event_pattern = Thrown (ReferenceError "line").
Proof.
  assert (delimiter_matches (Some Examples.delimiter)
            (trim Examples.broken_second_execution)
            Examples.broken_second_execution_matches) as Hms.
  { split; [exact delimiter_advancing|]. find_matches. }
  split; [exact Hms|].
  apply (one_malformed_clock_aborts_the_log
           Examples.JSON_parse Examples.VectorTimestamp_new Examples.no_globals
           Examples.broken_second_execution (Some Examples.delimiter)
           Examples.event_pattern Examples.broken_second_execution_matches
           (Str "y", "a" +:+ Examples.clock_broken +:+ "r")
           [ {| index := 0; matched := 7;
                groups := [Str "a"; Str Examples.clock_broken; Str "r"] |} ]).
  - reflexivity.
  - exact Hms.
  - exact event_pattern_advancing.
  - apply list_elem_of_In. vm_compute. right. left. reflexivity.
  - find_matches.
  - apply Exists_cons_hd. vm_compute. exact I.
Defined.

(** ** More on the graph builder: removing hosts *)

Section GraphBuilderMore.

Import GraphBuilder.

Lemma indexOf_None arr arg :
  ref arg ∉ map ref arr → indexOf arr arg = None.
Proof.
  induction arr as [|x arr IH]; simpl; [done|].
  intros [Hx Harr]%not_elem_of_cons.
  destruct (Nat.eqb_spec (ref x) (ref arg)); [congruence|].
  by rewrite IH.
Qed.

Lemma filter_other_refs arr r :
  r ∉ map ref arr → filter (λ x, ref x ≠ r) arr = arr.
Proof.
  induction arr as [|x arr IH]; simpl; [done|].
  intros [Hx Harr]%not_elem_of_cons.
  rewrite filter_cons_True by congruence. by rewrite IH.
Qed.

(** With distinct objects, [Array.remove] of an element of the array takes
    away that element and nothing else. *)
Lemma Array_remove_present arr arg :
  NoDup (map ref arr) → ref arg ∈ map ref arr →
  Array_remove arr arg = filter (λ x, ref x ≠ ref arg) arr.
Proof.
  unfold Array_remove. induction arr as [|x arr IH]; simpl.
  { intros _ H. inversion H. }
  intros [Hx Hnd]%NoDup_cons Hin.
  destruct (Nat.eqb_spec (ref x) (ref arg)) as [Heq|Hne].
  - simpl. rewrite filter_cons_False by (intros H; by apply H).
    rewrite filter_other_refs; [done|]. by rewrite <- Heq.
  - apply elem_of_cons in Hin as [Heq|Hin]; [congruence|].
    rewrite filter_cons_True by done.
    specialize (IH Hnd Hin).
    destruct (indexOf arr arg) as [i|] eqn:Ei; simpl.
    + by rewrite IH.
    + exfalso. clear IH. induction arr as [|y arr IH']; simpl in *;
        [by inversion Hin|].
      destruct (Nat.eqb_spec (ref y) (ref arg)); [done|].
      apply NoDup_cons in Hnd as [_ Hnd].
      apply not_elem_of_cons in Hx as [_ Hx].
      apply elem_of_cons in Hin as [Heq|Hin]; [congruence|].
      destruct (indexOf arr arg); [done|]. by apply IH'.
Qed.

(** [Array.remove] of an element that is not in the array takes the last
    element away. *)
Lemma Array_remove_absent arr arg :
  ref arg ∉ map ref arr →
  Array_remove arr arg = take (length arr - 1) arr.
Proof.
  intros H. unfold Array_remove. rewrite (indexOf_None _ _ H).
  destruct arr as [|x arr] using rev_ind; [done|].
  assert (length (arr ++ [x]) - 1 = length arr) as ->
    by (rewrite length_app; cbn [length]; lia).
  rewrite delete_take_drop, take_app_length.
  rewrite drop_ge by (rewrite length_app; cbn [length]; lia).
  by rewrite app_nil_r.
Qed.

(** X8. [removeHost] takes exactly one host away. With distinct host objects,
    it is the given host when the builder has it, the other hosts staying in
    their order; when the builder does not have it, it is the last host. *)
Theorem removeHost_takes_one_host_away this host :
  NoDup (map ref (hosts this)) →
  length (hosts (removeHost this host)) = length (hosts this) - 1 ∧
  (ref host ∈ map ref (hosts this) →
   hosts (removeHost this host)
   = filter (λ x, ref x ≠ ref host) (hosts this)) ∧
  (ref host ∉ map ref (hosts this) →
   hosts (removeHost this host)
   = take (length (hosts this) - 1) (hosts this)).
Proof.
  intros Hnd. simpl. split; [apply Array_remove_length|]. split.
  - by apply Array_remove_present.
  - by apply Array_remove_absent.
Qed.

Lemma find_first (f : GraphBuilderHost → bool) arr x :
  List.find f arr = Some x → f x = true ∧ x ∈ arr.
Proof.
  induction arr as [|y arr IH]; simpl; [done|].
  destruct (f y) eqn:Ey.
  - intros [= <-]. split; [done|]. by left.
  - intros H. destruct (IH H) as [? ?]. split; [done|]. by right.
Qed.

Lemma find_none (f : GraphBuilderHost → bool) arr :
  List.find f arr = None → filter (λ x, f x = false) arr = arr.
Proof.
  induction arr as [|y arr IH]; simpl; [done|].
  destruct (f y) eqn:Ey; [done|]. intros H.
  rewrite filter_cons_True by done. by rewrite IH.
Qed.

Lemma NoDup_refs_filter (P : GraphBuilderHost → Prop) `{∀ x, Decision (P x)} arr :
  NoDup (map ref arr) → NoDup (map ref (filter P arr)).
Proof.
  induction arr as [|y arr IH]; simpl; [done|].
  intros [Hy Hnd]%NoDup_cons. rewrite filter_cons.
  destruct (decide (P y)); [|by apply IH].
  simpl. apply NoDup_cons. split; [|by apply IH].
  intros Hin. apply Hy.
  apply list_elem_of_fmap in Hin as (z & Hz & Hzin).
  apply list_elem_of_filter in Hzin as [_ Hzin].
  rewrite Hz. by apply list_elem_of_fmap_2.
Qed.

(** Distinct objects are told apart by their identity. *)
Lemma ref_inj arr a b :
  NoDup (map ref arr) → a ∈ arr → b ∈ arr → ref a = ref b → a = b.
Proof.
  induction arr as [|z arr IH]; intros Hnd Ha Hb Hab; [by inversion Ha|].
  simpl in Hnd. apply NoDup_cons in Hnd as [Hz Hnd].
  apply elem_of_cons in Ha as [->|Ha];
    apply elem_of_cons in Hb as [->|Hb]; [done| | |by apply IH].
  - exfalso. apply Hz. rewrite Hab. by apply list_elem_of_fmap_2.
  - exfalso. apply Hz. rewrite <- Hab. by apply list_elem_of_fmap_2.
Qed.

Lemma filter_without_one (f : GraphBuilderHost → bool) arr x :
  NoDup (map ref arr) → x ∈ arr → f x = true →
  filter (λ y, f y = false) (filter (λ y, ref y ≠ ref x) arr)
  = filter (λ y, f y = false) arr.
Proof.
  intros Hnd Hx Hfx.
  assert (∀ l : list GraphBuilderHost, (∀ y, y ∈ l → y ∈ arr) →
            filter (λ y, f y = false) (filter (λ y, ref y ≠ ref x) l)
            = filter (λ y, f y = false) l) as H.
  { induction l as [|y l IH]; intros Hsub; [done|].
    assert (∀ z, z ∈ l → z ∈ arr) as Hsub' by (intros; apply Hsub; by right).
    destruct (decide (ref y = ref x)) as [Heq|Hne].
    - assert (y = x) as -> by (apply (ref_inj arr); [done|apply Hsub; by left|done|done]).
      rewrite filter_cons_False by (intros H; by apply H).
      rewrite (filter_cons_False _ x) by congruence. by apply IH.
    - rewrite filter_cons_True by done.
      rewrite !(filter_cons (λ y, f y = false)).
      destruct (decide (f y = false)); by rewrite IH. }
  by apply H.
Qed.

(** X9. With distinct objects, [Array.remove] with a function ends, and takes
    away every element on which the function holds, the other elements
    staying in their order. *)
Theorem Array_remove_where_filters arr arg :
  NoDup (map ref arr) →
  Array_remove_where arr arg = Some (filter (λ x, arg x = false) arr).
Proof.
  unfold Array_remove_where.
  assert (∀ fuel arr, NoDup (map ref arr) → length arr < fuel →
            Array_remove_loop fuel arr arg
            = Some (filter (λ x, arg x = false) arr)) as H.
  { clear arr. induction fuel as [|fuel IH]; intros arr Hnd Hfuel; [lia|].
    simpl. destruct (List.find arg arr) as [x|] eqn:Ef.
    - destruct (find_first _ _ _ Ef) as [Hx Hin].
      rewrite Array_remove_present; [|done|by apply list_elem_of_fmap_2].
      rewrite IH.
      + by rewrite filter_without_one.
      + by apply NoDup_refs_filter.
      + eapply Nat.lt_le_trans;
          [apply (length_filter_lt _ _ x Hin); intros Hne; by apply Hne|lia].
    - by rewrite find_none. }
  intros Hnd. apply H; [done|lia].
Qed.

Lemma indexOf_snoc arr new :
  ref new ∉ map ref arr → indexOf (arr ++ [new]) new = Some (length arr).
Proof.
  induction arr as [|y arr IH]; simpl.
  - by rewrite Nat.eqb_refl.
  - intros [Hy Hl]%not_elem_of_cons.
    destruct (Nat.eqb_spec (ref y) (ref new)); [congruence|].
    by rewrite IH.
Qed.

(** X10. Whatever hosts the builder holds, [clear] ends and leaves exactly
    two hosts, both new, numbered 0 and 1. *)
Theorem clear_leaves_two_new_hosts this :
  clear this
  = Normal
      {| hosts := [ {| ref := allocated this; hostNum := 0 |};
                    {| ref := S (allocated this); hostNum := 1 |} ];
         allocated := S (S (allocated this)) |}.
Proof.
  unfold clear. rewrite clear_loop_empties by lia. reflexivity.
Qed.

(** X11. A host that [addHost] has just added is taken away again by
    [removeHost], which gives the hosts back as they were; and after any
    [removeHost] on a builder of at most [MAX_HOSTS] hosts, one of them at
    least, [addHost] does not throw. *)
Theorem addHost_removeHost this :
  (∀ h, h ∈ hosts this → ref h < allocated this) →
  length (hosts this) ≤ MAX_HOSTS →
  (length (hosts this) < MAX_HOSTS →
   ∃ this' host,
     addHost this = Normal this' ∧ last (hosts this') = Some host ∧
     hosts (removeHost this' host) = hosts this)
  ∧ (0 < length (hosts this) →
     ∀ host, ∃ this', addHost (removeHost this host) = Normal this').
Proof.
  intros Hfresh Hle. split.
  - intros Hlt. unfold addHost. rewrite decide_False by lia.
    eexists _, _. split; [reflexivity|]. simpl. split; [apply last_snoc|].
    set (new := {| ref := allocated this; hostNum := length (hosts this) |}).
    assert (ref new ∉ map ref (hosts this)) as Hnew.
    { intros (h & Hh & Hin)%list_elem_of_fmap. apply Hfresh in Hin.
      simpl in Hh. lia. }
    unfold Array_remove.
    rewrite (indexOf_snoc _ _ Hnew).
    rewrite delete_take_drop, take_app_length.
    rewrite drop_ge by (rewrite length_app; cbn [length]; lia).
    by rewrite app_nil_r.
  - intros Hpos host. unfold addHost. rewrite decide_False; [eauto|].
    simpl. rewrite Array_remove_length. lia.
Qed.

End GraphBuilderMore.

Lemma removeHost_takes_one_host_away_witness :
  NoDup (map GraphBuilder.ref (GraphBuilder.hosts GraphBuilder.initial)) ∧
  GraphBuilder.hosts
    (GraphBuilder.removeHost GraphBuilder.initial
       {| GraphBuilder.ref := 0; GraphBuilder.hostNum := 0 |})
  = [ {| GraphBuilder.ref := 1; GraphBuilder.hostNum := 1 |} ] ∧
  GraphBuilder.hosts
    (GraphBuilder.removeHost GraphBuilder.initial
       {| GraphBuilder.ref := 7; GraphBuilder.hostNum := 0 |})
  = [ {| GraphBuilder.ref := 0; GraphBuilder.hostNum := 0 |} ].
Proof.
  assert (NoDup (map GraphBuilder.ref (GraphBuilder.hosts GraphBuilder.initial)))
    as Hnd by (apply (bool_decide_unpack _); vm_compute; exact I).
  split; [exact Hnd|]. split.
  - rewrite (proj1 (proj2 (removeHost_takes_one_host_away
                             GraphBuilder.initial
                             {| GraphBuilder.ref := 0; GraphBuilder.hostNum := 0 |}
                             Hnd))).
    + vm_compute. reflexivity.
    + simpl. by left.
  - rewrite (proj2 (proj2 (removeHost_takes_one_host_away
                             GraphBuilder.initial
                             {| GraphBuilder.ref := 7; GraphBuilder.hostNum := 0 |}
                             Hnd))).
    + reflexivity.
    + apply (bool_decide_unpack _). vm_compute. exact I.
Defined.

Lemma Array_remove_where_filters_witness :
  NoDup (map GraphBuilder.ref (GraphBuilder.hosts GraphBuilder.initial)) ∧
  GraphBuilder.Array_remove_where (GraphBuilder.hosts GraphBuilder.initial)
    (λ h, GraphBuilder.hostNum h =? 0)
  = Some [ {| GraphBuilder.ref := 1; GraphBuilder.hostNum := 1 |} ].
Proof.
  assert (NoDup (map GraphBuilder.ref (GraphBuilder.hosts GraphBuilder.initial)))
    as Hnd by (apply (bool_decide_unpack _); vm_compute; exact I).
  split; [exact Hnd|].
  rewrite (Array_remove_where_filters _ (λ h, GraphBuilder.hostNum h =? 0) Hnd).
  vm_compute. reflexivity.
Defined.

Lemma addHost_removeHost_witness :
  ∃ this' host,
    GraphBuilder.addHost GraphBuilder.initial = GraphBuilder.Normal this' ∧
    last (GraphBuilder.hosts this') = Some host ∧
    GraphBuilder.hosts (GraphBuilder.removeHost this' host)
    = GraphBuilder.hosts GraphBuilder.initial.
Proof.
  apply (proj1 (addHost_removeHost GraphBuilder.initial
                  ltac:(intros h Hh; simpl in Hh;
                        repeat (apply elem_of_cons in Hh as [->|Hh]);
                        [simpl; lia|simpl; lia|by inversion Hh])
                  ltac:(unfold GraphBuilder.MAX_HOSTS; simpl; lia))).
  unfold GraphBuilder.MAX_HOSTS. simpl. lia.
Defined.

(** ** Abbreviations *)

Section AbbreviationFacts.
Import Abbreviation.

Lemma list_of_app s1 s2 :
  list_ascii_of_string (s1 +:+ s2)
  = list_ascii_of_string s1 ++ list_ascii_of_string s2.
Proof. induction s1 as [|c s1 IH]; simpl; [done|by rewrite IH]. Qed.

Lemma list_of_length s : length (list_ascii_of_string s) = String.length s.
Proof. induction s as [|c s IH]; simpl; [done|by rewrite IH]. Qed.

Lemma list_of_inj s1 s2 :
  list_ascii_of_string s1 = list_ascii_of_string s2 → s1 = s2.
Proof.
  intros H. rewrite <- (string_of_list_ascii_of_string s1),
    <- (string_of_list_ascii_of_string s2). by rewrite H.
Qed.

Lemma list_of_substring s : ∀ n m,
  list_ascii_of_string (substring n m s)
  = take m (drop n (list_ascii_of_string s)).
Proof.
  induction s as [|c s IH]; intros [|n] [|m]; simpl; try done;
    by rewrite IH.
Qed.

Lemma list_of_charAt s i :
  list_ascii_of_string (charAt s i) = take 1 (drop i (list_ascii_of_string s)).
Proof.
  unfold charAt. revert i.
  induction s as [|c s IH]; intros [|i]; simpl; done.
Qed.

Lemma length_app_string s1 s2 :
  String.length (s1 +:+ s2) = String.length s1 + String.length s2.
Proof. by rewrite <- !list_of_length, list_of_app, length_app. Qed.

Lemma eqb_empty s : String.eqb s "" = bool_decide (s = "").
Proof.
  destruct (String.eqb_spec s ""); symmetry;
    [by apply bool_decide_eq_true|by apply bool_decide_eq_false].
Qed.

Lemma nonempty_length s : s ≠ "" ↔ 0 < String.length s.
Proof. destruct s; simpl; split; intros; try done; lia. Qed.

Lemma slice_index_nat len k : slice_index len (Z.of_nat k) = Nat.min k len.
Proof.
  unfold slice_index. destruct (Z.ltb_spec (Z.of_nat k) 0); [lia|].
  by rewrite Nat2Z.id.
Qed.

Lemma slice_index_neg len k :
  0 < k → slice_index len (- Z.of_nat k) = len - k.
Proof.
  intros Hk. unfold slice_index.
  destruct (Z.ltb_spec (- Z.of_nat k) 0); lia.
Qed.

Lemma slice_from s k :
  list_ascii_of_string (String_slice s (Z.of_nat k) None)
  = drop k (list_ascii_of_string s).
Proof.
  unfold String_slice. rewrite slice_index_nat, list_of_substring.
  destruct (decide (k ≤ String.length s)).
  - rewrite Nat.min_l by done. apply take_ge.
    rewrite length_drop, list_of_length. lia.
  - rewrite Nat.min_r by lia. rewrite Nat.sub_diag, take_0.
    symmetry. apply drop_ge. rewrite list_of_length. lia.
Qed.

Lemma slice_to s k :
  list_ascii_of_string (String_slice s 0 (Some (Z.of_nat k)))
  = take k (list_ascii_of_string s).
Proof.
  unfold String_slice. rewrite (slice_index_nat _ 0), slice_index_nat.
  rewrite list_of_substring, drop_0, Nat.sub_0_r.
  destruct (decide (k ≤ String.length s)).
  - by rewrite Nat.min_l.
  - rewrite Nat.min_r by lia. rewrite !take_ge; [done|..];
      rewrite list_of_length; lia.
Qed.

Lemma slice_without_end s k :
  0 < k →
  list_ascii_of_string (String_slice s 0 (Some (- Z.of_nat k)%Z))
  = take (String.length s - k) (list_ascii_of_string s).
Proof.
  intros Hk. unfold String_slice.
  rewrite (slice_index_nat _ 0), slice_index_neg by done.
  by rewrite list_of_substring, drop_0, Nat.sub_0_r.
Qed.

Lemma startsWith_cut s p :
  startsWith s p = true →
  p +:+ String_slice s (Z.of_nat (String.length p)) None = s.
Proof.
  unfold startsWith. intros H%String.eqb_eq. apply list_of_inj.
  rewrite list_of_app, slice_from. rewrite <- H at 1.
  rewrite list_of_substring, drop_0. apply take_drop.
Qed.

Lemma endsWith_cut s p :
  p ≠ "" → endsWith s p = true →
  String_slice s 0 (Some (- Z.of_nat (String.length p))%Z) +:+ p = s.
Proof.
  unfold endsWith. intros Hp H. destruct (decide _) as [Hle|]; [|done].
  apply String.eqb_eq in H. apply list_of_inj.
  rewrite list_of_app, slice_without_end by by apply nonempty_length.
  rewrite <- H at 2. rewrite list_of_substring.
  rewrite (take_ge (drop _ _)).
  - apply take_drop.
  - rewrite length_drop, list_of_length. lia.
Qed.

Lemma shiftPrefix_join r :
  r ≠ "" → charAt r 0 +:+ String_slice r 1 None = r.
Proof.
  intros _. apply list_of_inj.
  rewrite list_of_app, list_of_charAt. change 1%Z with (Z.of_nat 1).
  rewrite slice_from, drop_0. apply take_drop.
Qed.

Lemma shiftSuffix_join r :
  String_slice r 0 (Some (-1)%Z) +:+ charAt r (String.length r - 1) = r.
Proof.
  apply list_of_inj. rewrite list_of_app, list_of_charAt.
  change (-1)%Z with (- Z.of_nat 1)%Z. rewrite slice_without_end by lia.
  rewrite (take_ge (drop _ _)).
  - apply take_drop.
  - rewrite length_drop, list_of_length. lia.
Qed.

Lemma slice_1_length r :
  String.length (String_slice r 1 None) = String.length r - 1.
Proof.
  rewrite <- !list_of_length. change 1%Z with (Z.of_nat 1).
  by rewrite slice_from, length_drop.
Qed.

Lemma slice_m1_length r :
  String.length (String_slice r 0 (Some (-1)%Z)) = String.length r - 1.
Proof.
  rewrite <- !list_of_length. change (-1)%Z with (- Z.of_nat 1)%Z.
  rewrite slice_without_end by lia. rewrite length_take, !list_of_length. lia.
Qed.

Lemma charAt_length r i :
  i < String.length r → String.length (charAt r i) = 1.
Proof.
  intros Hi. rewrite <- list_of_length, list_of_charAt, length_take, length_drop.
  rewrite list_of_length. lia.
Qed.

Lemma app_assoc_string a b c : (a +:+ b) +:+ c = a +:+ (b +:+ c).
Proof. apply list_of_inj. by rewrite !list_of_app, app_assoc. Qed.

Lemma app_empty_l s : "" +:+ s = s.
Proof. done. Qed.

Lemma app_empty_r s : s +:+ "" = s.
Proof. apply list_of_inj. by rewrite list_of_app, app_nil_r. Qed.

Lemma Abbreviation_made p r s :
  getOriginalString (Abbreviation p r s).1 = (p +:+ r) +:+ s ∧
  (root (Abbreviation p r s).1 = "" → (p +:+ r) +:+ s = "") ∧
  (p = "" → prefix (Abbreviation p r s).1 = "") ∧
  (s = "" → suffix (Abbreviation p r s).1 = "") ∧
  (p = "" ∨ s = "" → (Abbreviation p r s).2 = []).
Proof.
  unfold Abbreviation.Abbreviation, getOriginalString.
  destruct p as [|a p], r as [|b r], s as [|c s];
    cbn -[both_affixes empty_root]; rewrite ?app_empty_r;
    repeat split; try done; by intros [?|?].
Qed.

(** X12. The object the constructor makes stands for the text
    [prefix + root + suffix] it was given; when the root given is empty an
    affix takes its place, so that the root is empty only for the empty
    text. The second assertion never fails, and nothing at all is written
    exactly when one of the affixes given is empty. *)
Theorem Abbreviation_stands_for_its_text p r s :
  getOriginalString (Abbreviation p r s).1 = (p +:+ r) +:+ s ∧
  (root (Abbreviation p r s).1 = "" → (p +:+ r) +:+ s = "") ∧
  (empty_root ∉ (Abbreviation p r s).2) ∧
  ((Abbreviation p r s).2 = [] ↔ p = "" ∨ s = "").
Proof.
  unfold Abbreviation.Abbreviation, getOriginalString.
  destruct p as [|a p], r as [|b r], s as [|c s];
    cbn -[both_affixes empty_root]; rewrite ?app_empty_r;
    (split; [done|]); (split; [done|]); split;
    try (intros H; repeat (apply elem_of_cons in H as [H|H]);
         try discriminate H; by apply elem_of_nil in H);
    split; try done; try (by left); try (by right); by intros [?|?].
Qed.

Lemma shiftPrefix_text this :
  getOriginalString (shiftPrefix this) = getOriginalString this.
Proof.
  destruct this as [p r s]. unfold getOriginalString, shiftPrefix.
  cbn [prefix root suffix]. rewrite eqb_empty.
  destruct (decide (r = "")) as [->|Hr]; [done|].
  rewrite bool_decide_eq_false_2 by done. cbn [negb].
  rewrite (app_assoc_string p). by rewrite shiftPrefix_join.
Qed.

Lemma shiftSuffix_text this :
  getOriginalString (shiftSuffix this) = getOriginalString this.
Proof.
  destruct this as [p r s]. unfold getOriginalString, shiftSuffix.
  cbn [prefix root suffix]. rewrite eqb_empty.
  destruct (decide (r = "")) as [->|Hr]; [done|].
  rewrite bool_decide_eq_false_2 by done. cbn [negb].
  rewrite !app_assoc_string.
  rewrite <- (app_assoc_string (String_slice r 0 (Some (-1)%Z))).
  by rewrite shiftSuffix_join.
Qed.

Lemma shiftPrefix_lengths this :
  String.length (root (shiftPrefix this)) = String.length (root this) - 1 ∧
  String.length (prefix (shiftPrefix this))
    = String.length (prefix this) + Nat.min 1 (String.length (root this)).
Proof.
  destruct this as [p r s]. unfold shiftPrefix.
  cbn [prefix root suffix]. rewrite slice_1_length, eqb_empty.
  destruct (decide (r = "")) as [->|Hr];
    [rewrite bool_decide_eq_true_2 by done; cbn [negb String.length]; lia|].
  rewrite bool_decide_eq_false_2 by done. cbn [negb].
  pose proof (proj1 (nonempty_length r) Hr) as Hl.
  rewrite !length_app_string, !charAt_length by lia. lia.
Qed.

Lemma shiftSuffix_lengths this :
  String.length (root (shiftSuffix this)) = String.length (root this) - 1 ∧
  String.length (suffix (shiftSuffix this))
    = String.length (suffix this) + Nat.min 1 (String.length (root this)).
Proof.
  destruct this as [p r s]. unfold shiftSuffix.
  cbn [prefix root suffix]. rewrite slice_m1_length, eqb_empty.
  destruct (decide (r = "")) as [->|Hr];
    [rewrite bool_decide_eq_true_2 by done; cbn [negb String.length]; lia|].
  rewrite bool_decide_eq_false_2 by done. cbn [negb].
  pose proof (proj1 (nonempty_length r) Hr) as Hl.
  rewrite !length_app_string, !charAt_length by lia. lia.
Qed.

(** X13. Shifting moves one character of the root to an affix and nothing
    else: the text the object stands for stays the same, the root loses one
    character (none when it is empty), and the other affix is untouched. *)
Theorem shifts_keep_the_text this :
  getOriginalString (shiftPrefix this) = getOriginalString this ∧
  getOriginalString (shiftSuffix this) = getOriginalString this ∧
  String.length (root (shiftPrefix this)) = String.length (root this) - 1 ∧
  String.length (root (shiftSuffix this)) = String.length (root this) - 1 ∧
  String.length (prefix (shiftPrefix this))
    = String.length (prefix this) + Nat.min 1 (String.length (root this)) ∧
  String.length (suffix (shiftSuffix this))
    = String.length (suffix this) + Nat.min 1 (String.length (root this)) ∧
  suffix (shiftPrefix this) = suffix this ∧
  prefix (shiftSuffix this) = prefix this.
Proof.
  pose proof (shiftPrefix_lengths this) as [? ?].
  pose proof (shiftSuffix_lengths this) as [? ?].
  repeat split; try done; [apply shiftPrefix_text|apply shiftSuffix_text].
Qed.

Lemma ellipsify_length s :
  String.length (ellipsify s) ≤ String.length s ∧
  (String.length s < ABBREV_CHARS → ellipsify s = s).
Proof.
  unfold ellipsify. destruct (Nat.ltb_spec (String.length s) ABBREV_CHARS).
  - split; [lia|done].
  - split; [|lia]. unfold ABBREV_CHARS in *. simpl. lia.
Qed.

(** X14. The text shown for an abbreviation is never empty; while the root
    is not empty it holds the root whole, is no longer than the original
    text, and is the original text when both affixes have fewer than
    [ABBREV_CHARS] characters. With an empty root it is the ellipsis, even
    for the empty text. *)
Theorem getEllipsesString_shortens this :
  getEllipsesString this ≠ "" ∧
  (root this = "" → getEllipsesString this = ELLIPSIS) ∧
  (root this ≠ "" →
     String.length (getEllipsesString this)
       ≤ String.length (getOriginalString this) ∧
     (∃ pre suf, getEllipsesString this = (pre +:+ root this) +:+ suf) ∧
     (String.length (prefix this) < ABBREV_CHARS →
      String.length (suffix this) < ABBREV_CHARS →
      getEllipsesString this = getOriginalString this)).
Proof.
  unfold getEllipsesString, getOriginalString. rewrite eqb_empty.
  destruct (decide (root this = "")) as [Hr|Hr].
  - rewrite bool_decide_eq_true_2 by done. by repeat split.
  - rewrite bool_decide_eq_false_2 by done. split; [|split; [done|]].
    + apply nonempty_length. rewrite !length_app_string.
      apply nonempty_length in Hr. lia.
    + intros _. split; [|split].
      * rewrite !length_app_string.
        pose proof (ellipsify_length (prefix this)) as [? _].
        pose proof (ellipsify_length (suffix this)) as [? _]. lia.
      * by eexists _, _.
      * intros Hp Hs.
        by rewrite (proj2 (ellipsify_length _) Hp),
          (proj2 (ellipsify_length _) Hs).
Qed.

Section Truncate.
Variable isFit : string → bool.
Variables leftAlways rightAlways : bool.

Lemma truncate_loop_stuck : ∀ fuel abbrev isLeftNext,
  root abbrev = "" → isFit ELLIPSIS = false →
  truncate_loop isFit leftAlways rightAlways fuel abbrev isLeftNext
  = Unfinished.
Proof.
  induction fuel as [|fuel IH]; intros abbrev l Hr Hf; [done|].
  cbn [truncate_loop]. unfold getEllipsesString at 1. rewrite Hr. cbn [String.eqb].
  rewrite Hf. cbn [negb]. apply IH; [|done].
  destruct l; unfold shiftPrefix, shiftSuffix; cbn [root]; by rewrite Hr.
Qed.

Lemma truncate_loop_completed : ∀ fuel abbrev isLeftNext abbrev',
  truncate_loop isFit leftAlways rightAlways fuel abbrev isLeftNext
  = Completed abbrev' →
  isFit (getEllipsesString abbrev') = true ∧
  getOriginalString abbrev' = getOriginalString abbrev.
Proof.
  induction fuel as [|fuel IH]; intros abbrev l abbrev' H; [done|].
  cbn [truncate_loop] in H.
  destruct (isFit (getEllipsesString abbrev)) eqn:Hf; cbn [negb] in H.
  - by injection H as <-.
  - apply IH in H as [? ->]. split; [done|].
    destruct l; [apply shiftPrefix_text|apply shiftSuffix_text].
Qed.

Lemma shift_root_length abbrev (isLeftNext : bool) :
  String.length
    (root (if isLeftNext then shiftPrefix abbrev else shiftSuffix abbrev))
  = String.length (root abbrev) - 1.
Proof.
  destruct isLeftNext;
    [apply shiftPrefix_lengths|apply shiftSuffix_lengths].
Qed.

Lemma not_fit_root abbrev :
  isFit ELLIPSIS = true → isFit (getEllipsesString abbrev) = false →
  root abbrev ≠ "".
Proof.
  intros He Hf Hr. unfold getEllipsesString in Hf. rewrite Hr in Hf.
  cbn [String.eqb] in Hf. congruence.
Qed.

Lemma truncate_loop_ends : ∀ fuel abbrev isLeftNext,
  isFit ELLIPSIS = true → String.length (root abbrev) < fuel →
  ∃ abbrev',
    truncate_loop isFit leftAlways rightAlways fuel abbrev isLeftNext
    = Completed abbrev'.
Proof.
  induction fuel as [|fuel IH]; intros abbrev l He Hlen; [lia|].
  cbn [truncate_loop].
  destruct (isFit (getEllipsesString abbrev)) eqn:Hf; cbn [negb].
  - by eexists.
  - apply IH; [done|]. rewrite shift_root_length.
    pose proof (not_fit_root _ He Hf) as Hr%nonempty_length. lia.
Qed.

Lemma truncate_loop_never_ends : ∀ fuel abbrev isLeftNext,
  String.length (root abbrev) < fuel →
  truncate_loop isFit leftAlways rightAlways fuel abbrev isLeftNext
  = Unfinished →
  isFit ELLIPSIS = false ∧
  ∀ fuel', truncate_loop isFit leftAlways rightAlways fuel' abbrev isLeftNext
           = Unfinished.
Proof.
  induction fuel as [|fuel IH]; intros abbrev l Hlen H; [lia|].
  cbn [truncate_loop] in H.
  destruct (isFit (getEllipsesString abbrev)) eqn:Hf; cbn [negb] in H;
    [done|].
  destruct (decide (root abbrev = "")) as [Hr|Hr].
  - assert (isFit ELLIPSIS = false) as He.
    { unfold getEllipsesString in Hf. rewrite Hr in Hf. exact Hf. }
    split; [done|]. intros fuel'. by apply truncate_loop_stuck.
  - apply IH in H as [He Hall].
    + split; [done|]. intros [|fuel']; [done|].
      cbn [truncate_loop]. rewrite Hf. cbn [negb]. apply Hall.
    + rewrite shift_root_length. apply nonempty_length in Hr. lia.
Qed.

Lemma truncate_loop_left : ∀ fuel abbrev abbrev',
  leftAlways = true → rightAlways = false →
  truncate_loop isFit leftAlways rightAlways fuel abbrev true
  = Completed abbrev' →
  suffix abbrev' = suffix abbrev.
Proof.
  intros fuel abbrev abbrev' -> ->. revert abbrev.
  induction fuel as [|fuel IH]; intros abbrev H; [done|].
  cbn [truncate_loop] in H.
  destruct (isFit (getEllipsesString abbrev)); cbn [negb Bool.eqb] in H.
  - by injection H as <-.
  - by apply IH in H as ->.
Qed.

Lemma truncate_loop_right : ∀ fuel abbrev abbrev',
  leftAlways = false → rightAlways = true →
  truncate_loop isFit leftAlways rightAlways fuel abbrev false
  = Completed abbrev' →
  prefix abbrev' = prefix abbrev.
Proof.
  intros fuel abbrev abbrev' -> ->. revert abbrev.
  induction fuel as [|fuel IH]; intros abbrev H; [done|].
  cbn [truncate_loop] in H.
  destruct (isFit (getEllipsesString abbrev)); cbn [negb Bool.eqb] in H.
  - by injection H as <-.
  - by apply IH in H as ->.
Qed.

Lemma truncate_loop_in_turn : ∀ fuel abbrev isLeftNext abbrev',
  leftAlways = rightAlways →
  truncate_loop isFit leftAlways rightAlways fuel abbrev isLeftNext
  = Completed abbrev' →
  String.length (suffix abbrev)
  = String.length (prefix abbrev) + (if isLeftNext then 1 else 0) →
  String.length (suffix abbrev') = String.length (prefix abbrev') ∨
  String.length (suffix abbrev') = S (String.length (prefix abbrev')).
Proof.
  intros fuel abbrev l abbrev' Heq. revert abbrev l.
  induction fuel as [|fuel IH]; intros abbrev l H Hlen; [done|].
  cbn [truncate_loop] in H.
  destruct (isFit (getEllipsesString abbrev)) eqn:Hf; cbn [negb] in H.
  - injection H as <-. destruct l; lia.
  - destruct (decide (root abbrev = "")) as [Hr|Hr].
    + rewrite truncate_loop_stuck in H; [done| |].
      * destruct l; unfold shiftPrefix, shiftSuffix; cbn [root];
          by rewrite Hr.
      * unfold getEllipsesString in Hf. rewrite Hr in Hf. exact Hf.
    + assert (Bool.eqb leftAlways rightAlways = true) as Hb
        by (rewrite Heq; apply Bool.eqb_reflx).
      rewrite Hb in H. apply IH in H; [done|].
      apply nonempty_length in Hr.
      pose proof (shiftPrefix_lengths abbrev) as [_ Hp].
      pose proof (shiftSuffix_lengths abbrev) as [_ Hs].
      destruct l; cbn [negb].
      * rewrite Hp. unfold shiftPrefix. cbn [suffix]. lia.
      * rewrite Hs. unfold shiftSuffix. cbn [prefix]. lia.
Qed.

End Truncate.

(** X15. With a fitter that accepts the ellipsis, [truncate] ends: the text
    it leaves fits, the abbreviation still stands for the same original
    text, and nothing is written to the console. *)
Theorem truncate_ends_with_a_fit abbrev isFit :
  isFit ELLIPSIS = true →
  ∃ abbrev',
    truncate abbrev (Some isFit) = Completed (abbrev', []) ∧
    isFit (getEllipsesString abbrev') = true ∧
    getOriginalString abbrev' = getOriginalString abbrev.
Proof.
  intros He. unfold truncate.
  destruct (truncate_loop_ends isFit
              (negb (String.eqb (prefix abbrev) ""))
              (negb (String.eqb (suffix abbrev) ""))
              (S (String.length (root abbrev))) abbrev
              (negb (String.eqb (prefix abbrev) "")) He) as [abbrev' H];
    [lia|].
  exists abbrev'. rewrite H. split; [done|].
  by apply truncate_loop_completed in H.
Qed.

(** X16. A text too small even for the ellipsis is never reported. The last
    assertion of [truncate] compares with [Abbreviation.ELLIPSIS_STRING],
    which is not defined, so a [truncate] that ends writes nothing; and when
    its loop has not ended after one round more than the root has
    characters, the ellipsis does not fit and the loop never ends. *)
Theorem truncate_never_reports_too_small abbrev isFit :
  (∀ abbrev' log,
     truncate abbrev (Some isFit) = Completed (abbrev', log) → log = []) ∧
  (truncate abbrev (Some isFit) = Unfinished →
   isFit ELLIPSIS = false ∧
   ∀ fuel,
     truncate_loop isFit (negb (String.eqb (prefix abbrev) ""))
       (negb (String.eqb (suffix abbrev) "")) fuel abbrev
       (negb (String.eqb (prefix abbrev) "")) = Unfinished).
Proof.
  unfold truncate. split.
  - intros abbrev' log H.
    destruct (truncate_loop _ _ _ _ _ _) as [a| |]; [|done..].
    cbn in H. by injection H as _ <-.
  - intros H.
    destruct (truncate_loop _ _ _ _ _ _) as [a| |] eqn:Hl; [done..|].
    apply truncate_loop_never_ends in Hl; [done|lia].
Qed.

(** X17. [truncate] cuts on one side only when the abbreviation has an
    affix: with a prefix and no suffix the suffix stays empty, with a
    suffix and no prefix the prefix stays empty. With neither it takes
    characters from both ends in turn, the right end first, so that the
    suffix has as many characters as the prefix, or one more. *)
Theorem truncate_cuts_on_the_side_of_the_affix abbrev isFit abbrev' log :
  truncate abbrev (Some isFit) = Completed (abbrev', log) →
  (prefix abbrev ≠ "" → suffix abbrev = "" → suffix abbrev' = "") ∧
  (prefix abbrev = "" → suffix abbrev ≠ "" → prefix abbrev' = "") ∧
  (prefix abbrev = "" → suffix abbrev = "" →
   String.length (suffix abbrev') = String.length (prefix abbrev') ∨
   String.length (suffix abbrev') = S (String.length (prefix abbrev'))).
Proof.
  unfold truncate. intros H.
  destruct (truncate_loop _ _ _ _ _ _) as [a| |] eqn:Hl; [|done..].
  cbn in H. injection H as -> _. rewrite !eqb_empty in Hl.
  split; [|split].
  - intros Hp Hs. rewrite (bool_decide_eq_false_2 _ Hp) in Hl.
    rewrite (bool_decide_eq_true_2 _ Hs) in Hl. cbn [negb] in Hl.
    apply truncate_loop_left in Hl; [|done..]. by rewrite Hl.
  - intros Hp Hs. rewrite (bool_decide_eq_true_2 _ Hp) in Hl.
    rewrite (bool_decide_eq_false_2 _ Hs) in Hl. cbn [negb] in Hl.
    apply truncate_loop_right in Hl; [|done..]. by rewrite Hl.
  - intros Hp Hs. rewrite (bool_decide_eq_true_2 _ Hp) in Hl.
    rewrite (bool_decide_eq_true_2 _ Hs) in Hl. cbn [negb] in Hl.
    apply truncate_loop_in_turn in Hl; [done|done|].
    by rewrite Hp, Hs.
Qed.

Lemma charAt_some s i : charAt s i ≠ "" → i < String.length s.
Proof.
  intros H. destruct (decide (i < String.length s)) as [|Hn]; [done|].
  exfalso. apply H. apply list_of_inj. rewrite list_of_charAt.
  rewrite drop_ge by (rewrite list_of_length; lia). done.
Qed.

Lemma bucket_push_of i strings char str : ∀ buckets,
  Forall (bucket_of i strings) buckets →
  str ∈ strings → charAt str i = char → char ≠ "" →
  Forall (bucket_of i strings) (bucket_push buckets char str).
Proof.
  intros buckets Hb Hin Hc Hne.
  induction buckets as [|[c b] rest IH]; cbn [bucket_push].
  - constructor; [|constructor]. split; [done|].
    intros s Hs. apply list_elem_of_singleton in Hs as ->. done.
  - apply Forall_cons in Hb as [[Hc1 Hb1] Hrest]. cbn [fst snd] in *.
    destruct (String.eqb_spec c char) as [->|Hneq].
    + constructor; [|done]. split; [done|]. cbn [fst snd].
      intros s [Hs|Hs%list_elem_of_singleton]%elem_of_app;
        [by apply Hb1|by subst].
    + constructor; [by split|by apply IH].
Qed.

Lemma fill_buckets_fold i strings : ∀ l st,
  (∀ s, s ∈ l → s ∈ strings) →
  Forall (bucket_of i strings) st.2 →
  (st.1 = true → ∃ s, s ∈ strings ∧ charAt s i ≠ "") →
  Forall (bucket_of i strings)
    (foldl (λ st str,
              let char := charAt str i in
              if negb (String.eqb char "")
              then (true, bucket_push st.2 char str)
              else st) st l).2 ∧
  ((foldl (λ st str,
              let char := charAt str i in
              if negb (String.eqb char "")
              then (true, bucket_push st.2 char str)
              else st) st l).1 = true →
   ∃ s, s ∈ strings ∧ charAt s i ≠ "").
Proof.
  induction l as [|str l IH]; intros st Hl Hst Hmore; [done|].
  cbn [foldl]. apply IH.
  - intros s Hs. apply Hl. by right.
  - cbv zeta. destruct (String.eqb_spec (charAt str i) "") as [He|He];
      cbn [negb snd]; [done|].
    apply bucket_push_of; try done. apply Hl. by left.
  - cbv zeta. destruct (String.eqb_spec (charAt str i) "") as [He|He];
      cbn [negb fst]; [done|].
    intros _. exists str. split; [|done]. apply Hl. by left.
Qed.

Lemma fill_buckets_of i bucket :
  Forall (bucket_of i bucket) (fill_buckets i bucket).2 ∧
  ((fill_buckets i bucket).1 = true →
   ∃ s, s ∈ bucket ∧ charAt s i ≠ "").
Proof. unfold fill_buckets. by apply fill_buckets_fold. Qed.

Lemma largest_bucket_fold (all : list (string * list string)) :
  ∀ buckets st,
  (∀ cb, cb ∈ buckets → cb ∈ all) →
  (st.2 = [] ∨ ∃ c, (c, st.2) ∈ all) →
  (foldl (λ st cb,
            if st.1 <? length cb.2 then (length cb.2, cb.2) else st)
         st buckets).2 = [] ∨
  ∃ c, (c, (foldl (λ st cb,
                     if st.1 <? length cb.2 then (length cb.2, cb.2) else st)
                  st buckets).2) ∈ all.
Proof.
  induction buckets as [|[c b] rest IH]; intros st Hsub Hst; [done|].
  cbn [foldl]. apply IH.
  - intros cb Hcb. apply Hsub. by right.
  - cbn [snd]. destruct (st.1 <? length b); [|done].
    right. exists c. apply Hsub. by left.
Qed.

Lemma largest_bucket_of buckets :
  (largest_bucket buckets).2 = [] ∨
  ∃ c, (c, (largest_bucket buckets).2) ∈ buckets.
Proof. unfold largest_bucket. apply largest_bucket_fold; [done|by left]. Qed.

Lemma share_start_nil i : share_start i [].
Proof. intros s t Hs. by apply elem_of_nil in Hs. Qed.

Lemma bucket_shares i bucket cb :
  share_start i bucket → bucket_of i bucket cb → share_start (i + 1) cb.2.
Proof.
  intros Hsh [Hc Hb] s t Hs Ht.
  apply Hb in Hs as [Hs Hcs]. apply Hb in Ht as [Ht Hct].
  destruct (Hsh s t Hs Ht) as [_ Heq].
  split.
  - assert (i < String.length s); [|lia].
    apply charAt_some. by rewrite Hcs.
  - rewrite <- !take_take_drop, Heq, <- !list_of_charAt. by rewrite Hcs, Hct.
Qed.

Lemma largest_shares i bucket :
  share_start i bucket →
  share_start (i + 1) (largest_bucket (fill_buckets i bucket).2).2 ∧
  ∀ s, s ∈ (largest_bucket (fill_buckets i bucket).2).2 → s ∈ bucket.
Proof.
  intros Hsh.
  destruct (largest_bucket_of (fill_buckets i bucket).2) as [->|[c Hc]].
  - split; [apply share_start_nil|]. intros s Hs. by apply elem_of_nil in Hs.
  - pose proof (fill_buckets_of i bucket) as [Hall _].
    rewrite Forall_forall in Hall. apply Hall in Hc. split.
    + exact (bucket_shares _ _ _ Hsh Hc).
    + intros s Hs. by apply Hc in Hs as [? _].
Qed.

Lemma findPrefix_loop_shares (strings : list string) :
  ∀ fuel i prevMaxCount prevMaxBucket (r : nat * list string),
  findPrefix_loop fuel i prevMaxCount prevMaxBucket = Completed r →
  share_start i prevMaxBucket →
  (∀ s, s ∈ prevMaxBucket → s ∈ strings) →
  share_start r.1 r.2 ∧ ∀ s, s ∈ r.2 → s ∈ strings.
Proof.
  induction fuel as [|fuel IH]; intros i pmc B r H Hsh Hsub; [done|].
  cbn [findPrefix_loop] in H. cbv zeta in H.
  pose proof (largest_shares i B Hsh) as [Hsh' Hsub'].
  destruct (pmc <=? _).
  - destruct (fill_buckets i B).1.
    + apply IH in H; [done|done|]. intros s Hs. by apply Hsub, Hsub'.
    + injection H as <-. cbn [fst snd]. split; [done|].
      intros s Hs. by apply Hsub, Hsub'.
  - injection H as <-. by split.
Qed.

Lemma length_le_longest strings s :
  s ∈ strings → String.length s ≤ foldr Nat.max 0 (map String.length strings).
Proof.
  induction strings as [|x strings IH]; intros Hs.
  - by apply elem_of_nil in Hs.
  - apply elem_of_cons in Hs as [->|Hs]; cbn [map foldr]; [lia|].
    apply IH in Hs. lia.
Qed.

Lemma findPrefix_loop_ends strings : ∀ fuel i prevMaxCount prevMaxBucket,
  (∀ s, s ∈ prevMaxBucket → s ∈ strings) →
  i ≤ foldr Nat.max 0 (map String.length strings) →
  foldr Nat.max 0 (map String.length strings) + 1 - i < fuel →
  ∃ r, findPrefix_loop fuel i prevMaxCount prevMaxBucket = Completed r.
Proof.
  induction fuel as [|fuel IH]; intros i pmc B Hsub Hi Hfuel; [lia|].
  cbn [findPrefix_loop]. cbv zeta.
  destruct (pmc <=? _); [|by eexists].
  pose proof (fill_buckets_of i B) as [Hall Hmore].
  destruct (fill_buckets i B).1 eqn:Hm; [|by eexists].
  destruct (Hmore eq_refl) as (s & Hs & Hc).
  pose proof (charAt_some _ _ Hc) as Hlt.
  pose proof (length_le_longest strings s (Hsub s Hs)) as Hle.
  apply IH; [|lia|lia].
  intros t Ht. apply Hsub.
  destruct (largest_bucket_of (fill_buckets i B).2) as [He|[c Hc']].
  - rewrite He in Ht. by apply elem_of_nil in Ht.
  - rewrite Forall_forall in Hall. destruct (Hall _ Hc') as [_ Hb].
    by destruct (Hb t Ht).
Qed.

Lemma startsWith_empty s : startsWith s "" = true.
Proof. unfold startsWith. by destruct s. Qed.

Lemma findPrefix_ends strings :
  ∃ r, findPrefix_loop (2 + foldr Nat.max 0 (map String.length strings))
         0 0 strings = Completed r.
Proof. apply (findPrefix_loop_ends strings); [done|lia|lia]. Qed.

(** X18. [findPrefix] always ends. Every string of the bucket it returns as
    [count] is one of the strings given and starts with the prefix
    returned, and a prefix that is not empty is shared by two strings at
    least. *)
Theorem findPrefix_is_a_shared_start strings :
  ∃ info, findPrefix strings = Completed info ∧
    (∀ s, s ∈ pi_count info →
       s ∈ strings ∧ startsWith s (pi_prefix info) = true) ∧
    (pi_prefix info ≠ "" → 1 < length (pi_count info)).
Proof.
  unfold findPrefix. destruct (findPrefix_ends strings) as [[i B] Hr].
  rewrite Hr. cbn [mbind completion_bind mret completion_ret fst snd].
  eexists. split; [done|]. cbn [pi_prefix pi_count].
  apply findPrefix_loop_shares with (strings := strings) in Hr as [Hsh Hsub];
    [|intros s t Hs Ht; split; [lia|by rewrite !take_0]|done].
  cbn [fst snd] in Hsh, Hsub. split.
  - intros s Hs. split; [by apply Hsub|].
    destruct (Nat.ltb_spec 1 (length B)) as [Hlen|Hlen];
      [|apply startsWith_empty].
    destruct B as [|s0 B]; [cbn in Hlen; lia|]. cbn [lookup list_lookup default].
    cbn [from_option]. destruct (Hsh s0 s) as [Hi Heq]; [by left|done|].
    unfold startsWith. apply String.eqb_eq, list_of_inj.
    rewrite list_of_substring, drop_0, slice_to.
    rewrite <- list_of_length, slice_to, length_take, list_of_length.
    rewrite Nat.min_l by done. done.
  - intros Hp. destruct (Nat.ltb_spec 1 (length B)); done.
Qed.

Section WithReverse.
Variable reverseString : string → string.

Lemma abbrevString_one_affix p sfx str :
  p = "" ∨ sfx = "" →
  getOriginalString (abbrevString p sfx str).1 = str ∧
  (abbrevString p sfx str).2 = [] ∧
  (p = "" → prefix (abbrevString p sfx str).1 = "") ∧
  (sfx = "" → suffix (abbrevString p sfx str).1 = "") ∧
  (root (abbrevString p sfx str).1 = "" → str = "").
Proof.
  intros Hone. unfold abbrevString. cbv zeta.
  destruct (negb (String.eqb p "") && startsWith str p) eqn:Hc1;
    cbn [fst snd].
  - apply andb_prop in Hc1 as [Hp Hs]. rewrite eqb_empty in Hp.
    apply negb_true_iff, bool_decide_eq_false in Hp.
    destruct Hone as [-> | ->]; [done|]. cbn [String.eqb negb andb fst snd].
    apply startsWith_cut in Hs.
    destruct (Abbreviation_made p
                (String_slice str (Z.of_nat (String.length p)) None) "")
      as (Ht & Hr & _ & Hs' & Hl).
    rewrite app_empty_r, Hs in Ht, Hr.
    repeat split; [done|apply Hl; by right|done|done|done].
  - destruct (negb (String.eqb sfx "") && endsWith str sfx) eqn:Hc2;
      cbn [fst snd].
    + apply andb_prop in Hc2 as [Hne Hs]. rewrite eqb_empty in Hne.
      apply negb_true_iff, bool_decide_eq_false in Hne.
      destruct Hone as [-> | ->]; [|done].
      apply endsWith_cut in Hs; [|done].
      destruct (Abbreviation_made ""
                  (String_slice str 0
                     (Some (- Z.of_nat (String.length sfx))%Z)) sfx)
        as (Ht & Hr & Hp & _ & Hl).
      rewrite app_empty_l, Hs in Ht, Hr.
      repeat split; [done|apply Hl; by left|done|done|done].
    + destruct (Abbreviation_made "" str "") as (Ht & Hr & Hp & Hs & Hl).
      rewrite app_empty_r, app_empty_l in Ht, Hr.
      repeat split; [done|apply Hl; by left|by intros; apply Hp
                    |by intros; apply Hs|done].
Qed.

Lemma abbrevStrings_made strings :
  ∃ p sfx,
    (p = "" ∨ sfx = "") ∧
    abbrevStrings reverseString strings
    = Completed (map fst (map (abbrevString p sfx) strings),
                 concat (map snd (map (abbrevString p sfx) strings))).
Proof.
  unfold abbrevStrings, findSuffix, findPrefix.
  destruct (findPrefix_ends strings) as [r1 ->].
  destruct (findPrefix_ends (map reverseString strings)) as [r2 ->].
  cbn [mbind completion_bind mret completion_ret si_count si_suffix
       pi_count pi_prefix]. cbv zeta.
  destruct (Array_gt _ _); cbn [fst snd].
  - eexists _, "". split; [by right|done].
  - eexists "", _. split; [by left|done].
Qed.

Lemma abbrevStrings_keys strings :
  ∃ abbrevs,
    abbrevStrings reverseString strings = Completed (abbrevs, []) ∧
    map getOriginalString abbrevs = strings.
Proof.
  destruct (abbrevStrings_made strings) as (p & sfx & Hone & ->).
  eexists. split.
  - f_equal. f_equal.
    induction strings as [|str strings IH]; [done|]. cbn [map concat].
    pose proof (abbrevString_one_affix p sfx str Hone) as (_ & Hl & _).
    by rewrite Hl.
  - induction strings as [|str strings IH]; [done|]. cbn [map].
    pose proof (abbrevString_one_affix p sfx str Hone) as (Ht & _).
    by rewrite Ht, IH.
Qed.

(** X19. [abbrevStrings] gives one abbreviation for each string, in order,
    and each stands for its string. None of the constructor's assertions
    fails: the abbreviations all have an empty suffix or all have an empty
    prefix, and a root is empty only for the empty string. *)
Theorem abbrevStrings_stand_for_the_strings strings :
  ∃ abbrevs,
    abbrevStrings reverseString strings = Completed (abbrevs, []) ∧
    map getOriginalString abbrevs = strings ∧
    (Forall (λ a, suffix a = "") abbrevs ∨
     Forall (λ a, prefix a = "") abbrevs) ∧
    Forall (λ a, root a = "" → getOriginalString a = "") abbrevs.
Proof.
  destruct (abbrevStrings_keys strings) as (abbrevs & Hrun & Hkeys).
  exists abbrevs. split; [done|]. split; [done|].
  destruct (abbrevStrings_made strings) as (p & sfx & Hone & Hmade).
  rewrite Hmade in Hrun. injection Hrun as <- _. split.
  - destruct Hone as [Hp|Hs]; [right|left];
      rewrite !Forall_map; apply Forall_forall; intros str _;
      unfold compose;
      pose proof (abbrevString_one_affix p sfx str) as (_ & _ & H1 & H2 & _);
      auto.
  - rewrite !Forall_map. apply Forall_forall. intros str _. unfold compose.
    pose proof (abbrevString_one_affix p sfx str Hone) as (Ht & _ & _ & _ & Hr).
    intros H%Hr. by rewrite Ht.
Qed.

Lemma Map_get_key (stringsToFitter : list (string * (string → bool))) key :
  key ∈ map fst stringsToFitter → ∃ f, Map_get stringsToFitter key = Some f.
Proof.
  induction stringsToFitter as [|[k v] rest IH]; intros Hk.
  - by apply elem_of_nil in Hk.
  - cbn [Map_get]. destruct (String.eqb_spec k key) as [->|Hne];
      [by eexists|].
    apply IH. cbn [map fst] in Hk.
    by apply elem_of_cons in Hk as [->|Hk].
Qed.

Lemma Map_get_entry (stringsToFitter : list (string * (string → bool))) kf :
  NoDup (map fst stringsToFitter) → kf ∈ stringsToFitter →
  Map_get stringsToFitter kf.1 = Some kf.2.
Proof.
  induction stringsToFitter as [|[k v] rest IH]; intros Hnd Hin.
  - by apply elem_of_nil in Hin.
  - cbn [map fst] in Hnd. apply NoDup_cons in Hnd as [Hk Hnd].
    cbn [Map_get]. apply elem_of_cons in Hin as [->|Hin].
    + cbn [fst snd]. by rewrite String.eqb_refl.
    + destruct (String.eqb_spec k kf.1) as [->|Hne]; [|by apply IH].
      exfalso. apply Hk. apply list_elem_of_fmap. by exists kf.
Qed.

Lemma truncate_loop_not_TypeError isFit leftAlways rightAlways message :
  ∀ fuel abbrev isLeftNext,
  truncate_loop isFit leftAlways rightAlways fuel abbrev isLeftNext
  ≠ TypeError message.
Proof.
  induction fuel as [|fuel IH]; intros abbrev l; [done|].
  cbn [truncate_loop]. destruct (negb _); [apply IH|done].
Qed.

Lemma truncate_not_TypeError abbrev isFit message :
  truncate abbrev (Some isFit) ≠ TypeError message.
Proof.
  unfold truncate.
  pose proof (truncate_loop_not_TypeError isFit
                (negb (String.eqb (prefix abbrev) ""))
                (negb (String.eqb (suffix abbrev) "")) message
                (S (String.length (root abbrev))) abbrev
                (negb (String.eqb (prefix abbrev) ""))) as H.
  destruct (truncate_loop _ _ _ _ _ _); [done| |done].
  intros [= ->]. by apply H.
Qed.

Lemma truncate_each_finds stringsToFitter : ∀ abbrevs message,
  Forall (λ a, getOriginalString a ∈ map fst stringsToFitter) abbrevs →
  truncate_each stringsToFitter abbrevs ≠ TypeError message.
Proof.
  induction abbrevs as [|a abbrevs IH]; intros message Hall; [done|].
  apply Forall_cons in Hall as [Ha Hall]. cbn [truncate_each].
  destruct (Map_get_key _ _ Ha) as [f ->].
  pose proof (truncate_not_TypeError a f message) as Hf.
  destruct (truncate a (Some f)) as [r|m|];
    [|intros [= ->]; by apply Hf|done].
  cbn [mbind completion_bind]. specialize (IH message Hall).
  destruct (truncate_each stringsToFitter abbrevs); [done| |done].
  intros [= ->]. by apply IH.
Qed.

Lemma truncate_each_fits stringsToFitter :
  ∀ abbrevs (entries : list (string * (string → bool))),
  Forall2 (λ a kf, Map_get stringsToFitter (getOriginalString a) = Some kf.2
                   ∧ kf.2 ELLIPSIS = true) abbrevs entries →
  ∃ abbrevs',
    truncate_each stringsToFitter abbrevs = Completed (abbrevs', []) ∧
    map getOriginalString abbrevs' = map getOriginalString abbrevs ∧
    Forall2 (λ a' kf, kf.2 (getEllipsesString a') = true) abbrevs' entries.
Proof.
  intros abbrevs entries H.
  induction H as [|a kf abbrevs entries [Hg He] _ (abbrevs' & IH1 & IH2 & IH3)].
  - exists []. by repeat split.
  - cbn [truncate_each]. rewrite Hg. unfold truncate.
    destruct (truncate_loop_ends kf.2
                (negb (String.eqb (prefix a) ""))
                (negb (String.eqb (suffix a) ""))
                (S (String.length (root a))) a
                (negb (String.eqb (prefix a) "")) He) as [a' Ha]; [lia|].
    rewrite Ha, IH1. cbn.
    apply truncate_loop_completed in Ha as [Hfit Ht].
    exists (a' :: abbrevs'). split; [done|]. split.
    + cbn [map]. by rewrite Ht, IH2.
    + by constructor.
Qed.

(** X20. Given a [Map] whose fitters all accept the ellipsis,
    [generateFromStrings] ends with one abbreviation for each key, in
    order, each standing for its key and fitting by the fitter of that
    key; nothing is written to the console. *)
Theorem generateFromStrings_fits_every_key
    (stringsToFitter : list (string * (string → bool))) :
  NoDup (map fst stringsToFitter) →
  (∀ kf, kf ∈ stringsToFitter → kf.2 ELLIPSIS = true) →
  ∃ abbrevs,
    generateFromStrings reverseString stringsToFitter
    = Completed (abbrevs, []) ∧
    map getOriginalString abbrevs = map fst stringsToFitter ∧
    Forall2 (λ a kf, kf.2 (getEllipsesString a) = true)
      abbrevs stringsToFitter.
Proof.
  intros Hnd Hfit. unfold generateFromStrings.
  destruct (abbrevStrings_keys (map fst stringsToFitter))
    as (made & -> & Hkeys).
  cbn [mbind completion_bind fst snd].
  destruct (truncate_each_fits stringsToFitter made stringsToFitter)
    as (abbrevs & -> & Ht & Hf).
  - apply Forall2_same_length_lookup_2.
    + by rewrite <- (length_map getOriginalString), Hkeys, length_map.
    + intros i a kf Ha Hkf.
      assert (getOriginalString a = kf.1) as ->.
      { apply (f_equal (λ l, l !! i)) in Hkeys.
        rewrite !list_lookup_fmap, Ha, Hkf in Hkeys. cbn in Hkeys.
        by injection Hkeys. }
      apply list_elem_of_lookup_2 in Hkf.
      split; [by apply Map_get_entry|by apply Hfit].
  - cbn. exists abbrevs. split; [done|]. split; [congruence|done].
Qed.

(** X21. [generateFromStrings] never calls a fitter that is not there: every
    abbreviation stands for a key of the [Map], so the look-up in line 105
    finds a fitter and no [TypeError] is raised. *)
Theorem generateFromStrings_finds_every_fitter
    (stringsToFitter : list (string * (string → bool))) message :
  generateFromStrings reverseString stringsToFitter ≠ TypeError message.
Proof.
  unfold generateFromStrings.
  destruct (abbrevStrings_keys (map fst stringsToFitter))
    as (made & -> & Hkeys).
  cbn [mbind completion_bind fst snd].
  pose proof (truncate_each_finds stringsToFitter made message) as H.
  destruct (truncate_each stringsToFitter made) as [r|m|]; [done| |done].
  intros [= ->]. apply H; [|done].
  apply Forall_forall. intros a Ha. rewrite <- Hkeys.
  apply list_elem_of_fmap. by exists a.
Qed.

End WithReverse.

End AbbreviationFacts.

Lemma Abbreviation_stands_for_its_text_witness :
  (Abbreviation.Abbreviation "" "" "beta").2 = [] ∧
  Abbreviation.getOriginalString (Abbreviation.Abbreviation "" "" "beta").1
  = "beta".
Proof.
  destruct (Abbreviation_stands_for_its_text "" "" "beta")
    as (Ht & _ & _ & Hl).
  split; [apply Hl; by left|exact Ht].
Defined.

Lemma getEllipsesString_shortens_witness :
  String.length
    (Abbreviation.getEllipsesString
       {| Abbreviation.prefix := "proc-"; Abbreviation.root := "alpha";
          Abbreviation.suffix := "" |})
  ≤ 10.
Proof.
  destruct (getEllipsesString_shortens
              {| Abbreviation.prefix := "proc-"; Abbreviation.root := "alpha";
                 Abbreviation.suffix := "" |}) as (_ & _ & H).
  destruct H as (Hlen & _); [done|exact Hlen].
Defined.

Lemma truncate_ends_with_a_fit_witness :
  ∃ abbrev',
    Abbreviation.truncate
      {| Abbreviation.prefix := "proc-"; Abbreviation.root := "alpha";
         Abbreviation.suffix := "" |} (Some (Examples.fits 6))
    = Abbreviation.Completed (abbrev', []) ∧
    Examples.fits 6 (Abbreviation.getEllipsesString abbrev') = true ∧
    Abbreviation.getOriginalString abbrev' = "proc-alpha".
Proof.
  apply (truncate_ends_with_a_fit
           {| Abbreviation.prefix := "proc-"; Abbreviation.root := "alpha";
              Abbreviation.suffix := "" |} (Examples.fits 6)).
  reflexivity.
Defined.

Lemma truncate_never_reports_too_small_witness :
  Abbreviation.truncate
    {| Abbreviation.prefix := ""; Abbreviation.root := "alpha";
       Abbreviation.suffix := "" |} (Some (Examples.fits 1))
  = Abbreviation.Unfinished ∧
  ∀ fuel,
    Abbreviation.truncate_loop (Examples.fits 1) false false fuel
      {| Abbreviation.prefix := ""; Abbreviation.root := "alpha";
         Abbreviation.suffix := "" |} false
    = Abbreviation.Unfinished.
Proof.
  split; [reflexivity|].
  destruct (truncate_never_reports_too_small
              {| Abbreviation.prefix := ""; Abbreviation.root := "alpha";
                 Abbreviation.suffix := "" |} (Examples.fits 1)) as [_ H].
  destruct H as [_ H]; [reflexivity|exact H].
Defined.

Lemma truncate_cuts_on_the_side_of_the_affix_witness :
  Abbreviation.truncate
    {| Abbreviation.prefix := "proc-"; Abbreviation.root := "alpha";
       Abbreviation.suffix := "" |} (Some (Examples.fits 6))
  = Abbreviation.Completed
      ({| Abbreviation.prefix := "proc-a"; Abbreviation.root := "lpha";
          Abbreviation.suffix := "" |}, []) ∧
  Abbreviation.suffix
    {| Abbreviation.prefix := "proc-a"; Abbreviation.root := "lpha";
       Abbreviation.suffix := "" |} = "".
Proof.
  split; [reflexivity|].
  destruct (truncate_cuts_on_the_side_of_the_affix
              {| Abbreviation.prefix := "proc-"; Abbreviation.root := "alpha";
                 Abbreviation.suffix := "" |} (Examples.fits 6)
              {| Abbreviation.prefix := "proc-a"; Abbreviation.root := "lpha";
                 Abbreviation.suffix := "" |} [] eq_refl) as (H & _).
  apply H; done.
Defined.

Lemma generateFromStrings_fits_every_key_witness :
  ∃ abbrevs,
    Abbreviation.generateFromStrings Examples.reverseString
      Examples.three_fitters
    = Abbreviation.Completed (abbrevs, []) ∧
    map Abbreviation.getOriginalString abbrevs
    = ["proc-alpha"; "proc-beta"; "proc-gamma"] ∧
    Forall2 (λ a kf, kf.2 (Abbreviation.getEllipsesString a) = true)
      abbrevs Examples.three_fitters.
Proof.
  apply (generateFromStrings_fits_every_key Examples.reverseString
           Examples.three_fitters).
  - unfold Examples.three_fitters. cbn [map fst].
    repeat (apply NoDup_cons; split;
            [intros H; repeat (apply elem_of_cons in H as [H|H]);
             try discriminate H; by apply elem_of_nil in H|]).
    apply NoDup_nil_2.
  - intros kf H. unfold Examples.three_fitters in H.
    repeat (apply elem_of_cons in H as [->|H]); try reflexivity.
    by apply elem_of_nil in H.
Defined.
